(** * The queue monitor of the Hydra queue runner

    A shallow embedding of [src/hydra-queue-runner/queue-monitor.cc]:
    the Step Graph ([State::createStep]), the build loader (the
    [createBuild] closure of [State::getQueuedBuilds]), priority
    propagation ([Build::propagatePriorities]) and queue reconciliation
    ([State::processQueueChange]).

    C++ objects held through [shared_ptr] live in an explicit heap that is
    indexed by object identities; a [weak_ptr] is an identity whose
    [lock()] is a heap lookup.  The model is sequential: it describes the
    queue monitor thread running alone. *)

From Stdlib Require Import ZArith NArith String List Lia.
From stdpp Require Import base option gmap sets list strings sorting.

Open Scope Z_scope.
Open Scope N_scope.
Open Scope nat_scope.

Set Warnings "-clear-no-such-hyp".

(** ** Data model *)

(** [Path] and the names in a derivation are [std::string]; [BuildID] is
    [unsigned int]; [time_t] is an integer. A [Step::ptr] is the identity
    of a Step object. *)
Abbreviation Path := string (only parsing).
Abbreviation BuildID := N (only parsing).
Abbreviation time_t := Z (only parsing).
Abbreviation ident := nat (only parsing).

(** [nix::Derivation], as far as the queue monitor reads it. Both maps are
    kept in the order in which [std::map] iterates over them. *)
Record DerivationOutput := { path : Path }.

Record Derivation := {
  outputs : list (string * DerivationOutput);
  inputDrvs : list (Path * list string);
  platform : string;
  env : gmap string string
}.

Definition emptyDerivation : Derivation :=
  {| outputs := []; inputDrvs := []; platform := ""; env := ∅ |}.

(** A Jobset object is created once per (project, jobset) pair by
    [State::createJobset] and never destroyed, so a [Jobset::ptr] is
    identified with that pair. *)
Abbreviation JobsetPtr := (string * string)%type (only parsing).

Record Step := {
  drvPath : Path;
  drv : Derivation;
  requiredSystemFeatures : list string;
  preferLocalBuild : bool;
  (* Step::State, guarded by the step's lock *)
  created : bool;
  deps : gset ident;          (* std::set<Step::ptr> *)
  rdeps : list ident;         (* std::vector<Step::wptr> *)
  builds : list BuildID;      (* std::vector<Build::wptr>, by build id *)
  jobsets : gset JobsetPtr;
  highestGlobalPriority : Z;
  highestLocalPriority : Z;
  lowestBuildID : BuildID
}.

Record Build := {
  build_id : BuildID;
  build_drvPath : Path;
  projectName : string;
  jobsetName : string;
  jobName : string;
  maxSilentTime : Z;
  buildTimeout : Z;
  timestamp : time_t;
  globalPriority : Z;
  localPriority : Z;
  jobset : JobsetPtr;
  finishedInDB : bool;
  toplevel : option ident
}.

Inductive BuildStatus :=
  bsSuccess | bsFailed | bsDepFailed | bsAborted | bsUnsupported.

Inductive BuildStepStatus := bssFailed | bssUnsupported.

Global Instance BuildStatus_eq_dec : EqDecision BuildStatus.
Proof. solve_decision. Defined.

Global Instance BuildStepStatus_eq_dec : EqDecision BuildStepStatus.
Proof. solve_decision. Defined.

(** The columns of the [Builds] table that the queue monitor reads or
    writes. *)
Record BuildsRow := {
  project : string;
  jobset_ : string;
  job : string;
  drvPath_ : Path;
  maxsilent : Z;
  timeout : Z;
  timestamp_ : time_t;
  globalPriority_ : Z;
  priority : Z;
  finished : Z;
  busy : Z;
  buildStatus : option BuildStatus;
  startTime : option time_t;
  stopTime : option time_t;
  errorMsg : option string;
  isCachedBuild : option Z
}.

Record BuildStepsRow := {
  bs_build : BuildID;
  bs_drvPath : Path;
  bs_machine : string;
  bs_status : BuildStepStatus;
  bs_startTime : time_t
}.

Record Machine := { supportsStep : Step → bool }.

(** ** The environment

    What the queue monitor consumes from the store, the database
    connection, the machines map and the clock during one pass. *)
Record Env := {
  isValidPath : Path → bool;
  (* [None]: the store throws *)
  readDerivation : Path → option Derivation;
  tokenizeString : string → list string;
  localPlatforms : gset string;
  checkCachedFailure : Step → bool;
  machines : list Machine;
  (* the value of the n-th call of time(0) *)
  time : nat → time_t;
  (* iteration order of a std::set<Step::ptr>: by object address *)
  order : list ident → list ident;
  order_perm : ∀ l, order l ≡ₚ l;
  buildOne : BuildID
}.

(** ** Errors *)

Inductive error :=
  | AssertionFailed   (* an assert() of the source fails *)
  | Exception         (* a C++ exception leaves the pass *)
  | NullPointer       (* a pointer that holds no object is dereferenced *)
  | OutOfFuel.        (* the recursion bound of the model is exhausted *)

Inductive result (A : Type) :=
  | Ok (a : A)
  | Err (e : error).
Arguments Ok {A} a.
Arguments Err {A} e.

Global Instance result_ret : MRet result := λ A a, Ok a.
Global Instance result_bind : MBind result := λ A B f m,
  match m with Ok a => f a | Err e => Err e end.

Global Instance error_eq_dec : EqDecision error.
Proof. solve_decision. Defined.

(** ** The state of the queue runner and of one [getQueuedBuilds] pass *)

Record World := {
  (* live Step objects and the allocation counter *)
  heap : gmap ident Step;
  next : ident;
  (* State::steps : std::map<Path, Step::wptr> *)
  steps_ : gmap Path ident;
  (* State::builds : std::map<BuildID, Build::ptr> *)
  builds_ : gmap BuildID Build;
  (* the database: tables Builds and BuildSteps *)
  db : gmap BuildID BuildsRow;
  buildSteps : list BuildStepsRow;
  (* counters *)
  nrBuildsRead : N;
  nrBuildsDone : N;
  (* State::runnable, filled by makeRunnable *)
  runnable : list ident;
  (* number of calls of time(0) so far *)
  clock : nat;
  (* locals of getQueuedBuilds that createBuild captures by reference *)
  newBuildsByID : gmap BuildID Build;
  newBuildsByPath : list (Path * BuildID);
  newRunnable : gset ident;
  nrAdded : N
}.

Definition set_heap (h : gmap ident Step) (w : World) : World :=
  {| heap := h; next := next w; steps_ := steps_ w; builds_ := builds_ w;
     db := db w; buildSteps := buildSteps w; nrBuildsRead := nrBuildsRead w;
     nrBuildsDone := nrBuildsDone w; runnable := runnable w; clock := clock w;
     newBuildsByID := newBuildsByID w; newBuildsByPath := newBuildsByPath w;
     newRunnable := newRunnable w; nrAdded := nrAdded w |}.

Definition set_next (n : ident) (w : World) : World :=
  {| heap := heap w; next := n; steps_ := steps_ w; builds_ := builds_ w;
     db := db w; buildSteps := buildSteps w; nrBuildsRead := nrBuildsRead w;
     nrBuildsDone := nrBuildsDone w; runnable := runnable w; clock := clock w;
     newBuildsByID := newBuildsByID w; newBuildsByPath := newBuildsByPath w;
     newRunnable := newRunnable w; nrAdded := nrAdded w |}.

Definition set_steps (m : gmap Path ident) (w : World) : World :=
  {| heap := heap w; next := next w; steps_ := m; builds_ := builds_ w;
     db := db w; buildSteps := buildSteps w; nrBuildsRead := nrBuildsRead w;
     nrBuildsDone := nrBuildsDone w; runnable := runnable w; clock := clock w;
     newBuildsByID := newBuildsByID w; newBuildsByPath := newBuildsByPath w;
     newRunnable := newRunnable w; nrAdded := nrAdded w |}.

Definition set_builds (m : gmap BuildID Build) (w : World) : World :=
  {| heap := heap w; next := next w; steps_ := steps_ w; builds_ := m;
     db := db w; buildSteps := buildSteps w; nrBuildsRead := nrBuildsRead w;
     nrBuildsDone := nrBuildsDone w; runnable := runnable w; clock := clock w;
     newBuildsByID := newBuildsByID w; newBuildsByPath := newBuildsByPath w;
     newRunnable := newRunnable w; nrAdded := nrAdded w |}.

Definition set_db (d : gmap BuildID BuildsRow) (w : World) : World :=
  {| heap := heap w; next := next w; steps_ := steps_ w; builds_ := builds_ w;
     db := d; buildSteps := buildSteps w; nrBuildsRead := nrBuildsRead w;
     nrBuildsDone := nrBuildsDone w; runnable := runnable w; clock := clock w;
     newBuildsByID := newBuildsByID w; newBuildsByPath := newBuildsByPath w;
     newRunnable := newRunnable w; nrAdded := nrAdded w |}.

Definition set_buildSteps (l : list BuildStepsRow) (w : World) : World :=
  {| heap := heap w; next := next w; steps_ := steps_ w; builds_ := builds_ w;
     db := db w; buildSteps := l; nrBuildsRead := nrBuildsRead w;
     nrBuildsDone := nrBuildsDone w; runnable := runnable w; clock := clock w;
     newBuildsByID := newBuildsByID w; newBuildsByPath := newBuildsByPath w;
     newRunnable := newRunnable w; nrAdded := nrAdded w |}.

Definition set_nrBuildsRead (n : N) (w : World) : World :=
  {| heap := heap w; next := next w; steps_ := steps_ w; builds_ := builds_ w;
     db := db w; buildSteps := buildSteps w; nrBuildsRead := n;
     nrBuildsDone := nrBuildsDone w; runnable := runnable w; clock := clock w;
     newBuildsByID := newBuildsByID w; newBuildsByPath := newBuildsByPath w;
     newRunnable := newRunnable w; nrAdded := nrAdded w |}.

Definition set_nrBuildsDone (n : N) (w : World) : World :=
  {| heap := heap w; next := next w; steps_ := steps_ w; builds_ := builds_ w;
     db := db w; buildSteps := buildSteps w; nrBuildsRead := nrBuildsRead w;
     nrBuildsDone := n; runnable := runnable w; clock := clock w;
     newBuildsByID := newBuildsByID w; newBuildsByPath := newBuildsByPath w;
     newRunnable := newRunnable w; nrAdded := nrAdded w |}.

Definition set_runnable (l : list ident) (w : World) : World :=
  {| heap := heap w; next := next w; steps_ := steps_ w; builds_ := builds_ w;
     db := db w; buildSteps := buildSteps w; nrBuildsRead := nrBuildsRead w;
     nrBuildsDone := nrBuildsDone w; runnable := l; clock := clock w;
     newBuildsByID := newBuildsByID w; newBuildsByPath := newBuildsByPath w;
     newRunnable := newRunnable w; nrAdded := nrAdded w |}.

Definition set_clock (n : nat) (w : World) : World :=
  {| heap := heap w; next := next w; steps_ := steps_ w; builds_ := builds_ w;
     db := db w; buildSteps := buildSteps w; nrBuildsRead := nrBuildsRead w;
     nrBuildsDone := nrBuildsDone w; runnable := runnable w; clock := n;
     newBuildsByID := newBuildsByID w; newBuildsByPath := newBuildsByPath w;
     newRunnable := newRunnable w; nrAdded := nrAdded w |}.

Definition set_newBuildsByID (m : gmap BuildID Build) (w : World) : World :=
  {| heap := heap w; next := next w; steps_ := steps_ w; builds_ := builds_ w;
     db := db w; buildSteps := buildSteps w; nrBuildsRead := nrBuildsRead w;
     nrBuildsDone := nrBuildsDone w; runnable := runnable w; clock := clock w;
     newBuildsByID := m; newBuildsByPath := newBuildsByPath w;
     newRunnable := newRunnable w; nrAdded := nrAdded w |}.

Definition set_newBuildsByPath (l : list (Path * BuildID)) (w : World) : World :=
  {| heap := heap w; next := next w; steps_ := steps_ w; builds_ := builds_ w;
     db := db w; buildSteps := buildSteps w; nrBuildsRead := nrBuildsRead w;
     nrBuildsDone := nrBuildsDone w; runnable := runnable w; clock := clock w;
     newBuildsByID := newBuildsByID w; newBuildsByPath := l;
     newRunnable := newRunnable w; nrAdded := nrAdded w |}.

Definition set_newRunnable (s : gset ident) (w : World) : World :=
  {| heap := heap w; next := next w; steps_ := steps_ w; builds_ := builds_ w;
     db := db w; buildSteps := buildSteps w; nrBuildsRead := nrBuildsRead w;
     nrBuildsDone := nrBuildsDone w; runnable := runnable w; clock := clock w;
     newBuildsByID := newBuildsByID w; newBuildsByPath := newBuildsByPath w;
     newRunnable := s; nrAdded := nrAdded w |}.

Definition set_nrAdded (n : N) (w : World) : World :=
  {| heap := heap w; next := next w; steps_ := steps_ w; builds_ := builds_ w;
     db := db w; buildSteps := buildSteps w; nrBuildsRead := nrBuildsRead w;
     nrBuildsDone := nrBuildsDone w; runnable := runnable w; clock := clock w;
     newBuildsByID := newBuildsByID w; newBuildsByPath := newBuildsByPath w;
     newRunnable := newRunnable w; nrAdded := n |}.

(** The queue runner right after start-up. *)
Definition initialWorld : World :=
  {| heap := ∅; next := 0; steps_ := ∅; builds_ := ∅; db := ∅;
     buildSteps := []; nrBuildsRead := 0%N; nrBuildsDone := 0%N;
     runnable := []; clock := 0; newBuildsByID := ∅; newBuildsByPath := [];
     newRunnable := ∅; nrAdded := 0%N |}.

(** [time(0)]: the next value of the clock. *)
Definition time0 (E : Env) (w : World) : time_t * World :=
  (time E (clock w), set_clock (S (clock w)) w).

(** Wrap-around of [unsigned int]. *)
Definition wrap32 (n : N) : N := (n mod 2 ^ 32)%N.

(** ** Updates of a Step under its lock *)

Definition set_created (b : bool) (s : Step) : Step :=
  {| drvPath := drvPath s; drv := drv s;
     requiredSystemFeatures := requiredSystemFeatures s;
     preferLocalBuild := preferLocalBuild s; created := b; deps := deps s;
     rdeps := rdeps s; builds := builds s; jobsets := jobsets s;
     highestGlobalPriority := highestGlobalPriority s;
     highestLocalPriority := highestLocalPriority s;
     lowestBuildID := lowestBuildID s |}.

Definition set_deps (d : gset ident) (s : Step) : Step :=
  {| drvPath := drvPath s; drv := drv s;
     requiredSystemFeatures := requiredSystemFeatures s;
     preferLocalBuild := preferLocalBuild s; created := created s; deps := d;
     rdeps := rdeps s; builds := builds s; jobsets := jobsets s;
     highestGlobalPriority := highestGlobalPriority s;
     highestLocalPriority := highestLocalPriority s;
     lowestBuildID := lowestBuildID s |}.

Definition set_rdeps (l : list ident) (s : Step) : Step :=
  {| drvPath := drvPath s; drv := drv s;
     requiredSystemFeatures := requiredSystemFeatures s;
     preferLocalBuild := preferLocalBuild s; created := created s;
     deps := deps s; rdeps := l; builds := builds s; jobsets := jobsets s;
     highestGlobalPriority := highestGlobalPriority s;
     highestLocalPriority := highestLocalPriority s;
     lowestBuildID := lowestBuildID s |}.

Definition set_step_builds (l : list BuildID) (s : Step) : Step :=
  {| drvPath := drvPath s; drv := drv s;
     requiredSystemFeatures := requiredSystemFeatures s;
     preferLocalBuild := preferLocalBuild s; created := created s;
     deps := deps s; rdeps := rdeps s; builds := l; jobsets := jobsets s;
     highestGlobalPriority := highestGlobalPriority s;
     highestLocalPriority := highestLocalPriority s;
     lowestBuildID := lowestBuildID s |}.

(** Modelled from the spec: the constructor of Step (state.hh is not among
    the sources). A Step starts with [created = false], no dependencies,
    no referrers and no jobsets; the priorities start at the neutral
    values of the [max] and [min] of [propagatePriorities] for queued
    builds. *)
Definition new_Step (p : Path) : Step :=
  {| drvPath := p; drv := emptyDerivation; requiredSystemFeatures := [];
     preferLocalBuild := false; created := false; deps := ∅; rdeps := [];
     builds := []; jobsets := ∅; highestGlobalPriority := 0%Z;
     highestLocalPriority := 0%Z; lowestBuildID := (2 ^ 32 - 1)%N |}.

(** What [createStep] fills in of a new Step from its derivation
    (queue-monitor.cc, lines 356-366). *)
Definition initStep (E : Env) (d : Derivation) (s : Step) : Step :=
  {| drvPath := drvPath s; drv := d;
     requiredSystemFeatures :=
       match env d !! "requiredSystemFeatures" with
       | Some v => tokenizeString E v
       | None => requiredSystemFeatures s
       end;
     preferLocalBuild :=
       match env d !! "preferLocalBuild" with
       | Some v => bool_decide (v = "1")
                   && bool_decide (platform d ∈ localPlatforms E)
       | None => false
       end;
     created := created s; deps := deps s; rdeps := rdeps s;
     builds := builds s; jobsets := jobsets s;
     highestGlobalPriority := highestGlobalPriority s;
     highestLocalPriority := highestLocalPriority s;
     lowestBuildID := lowestBuildID s |}.

(** ** The Step Graph: [State::createStep] *)

(** The sets that one expansion of a build passes by reference. *)
Record Expansion := {
  finishedDrvs : gset Path;
  newSteps : gset ident
}.

Definition emptyExpansion : Expansion :=
  {| finishedDrvs := ∅; newSteps := ∅ |}.

(** [steps_->find(drvPath)] followed by [prev->second.lock()]: the Step
    registered for the path, when it is still alive. *)
Definition lockStep (w : World) (p : Path) : option (ident * Step) :=
  a ← steps_ w !! p; s ← heap w !! a; Some (a, s).

(** Lines 335-345, under the step's lock: the assertion, the link from the
    referrer, and the (re)insertion into [steps]. *)
Definition addReferrers (referringBuild : option BuildID)
    (referringStep : option ident) (s : Step) : Step :=
  let s1 := match referringBuild with
            | Some b => set_step_builds (builds s ++ [b]) s
            | None => s
            end in
  match referringStep with
  | Some r => set_rdeps (rdeps s1 ++ [r]) s1
  | None => s1
  end.

Definition linkStep (p : Path) (referringBuild : option BuildID)
    (referringStep : option ident) (isNew : bool) (a : ident) (s : Step)
    (w : World) : result World :=
  if bool_decide (created s = isNew) then Err AssertionFailed else
  Ok (set_steps (<[p := a]> (steps_ w))
        (set_heap (<[a := addReferrers referringBuild referringStep s]>
                     (heap w)) w)).

(** [deps.insert(dep)] under the lock of step [a]. *)
Definition addDep (a d : ident) (w : World) : World :=
  set_heap (alter (λ s, set_deps ({[d]} ∪ deps s) s) a (heap w)) w.

Definition allValid (E : Env) (d : Derivation) : bool :=
  forallb (λ o, isValidPath E (path o.2)) (outputs d).

Section CreateStep.
Context (E : Env).

(** The loop over [step->drv.inputDrvs] (lines 388-394); [rec] is the
    recursive call of [createStep]. *)
Fixpoint createDeps
    (rec : Path → option BuildID → option ident → Expansion → World →
           result (option ident * Expansion * World))
    (a : ident) (inputs : list (Path * list string))
    (x : Expansion) (w : World) : result (Expansion * World) :=
  match inputs with
  | [] => Ok (x, w)
  | i :: rest =>
      '(dep, x1, w1) ← rec i.1 None (Some a) x w;
      let w2 := match dep with
                | Some d => addDep a d w1
                | None => w1
                end in
      createDeps rec a rest x1 w2
  end.

(** Lines 396-404: the step becomes created, and runnable when it has
    no dependencies left. *)
Definition finishStep (a : ident) (w : World) : result World :=
  match heap w !! a with
  | None => Err NullPointer
  | Some s =>
      if created s then Err AssertionFailed else
      let w1 := set_heap (<[a := set_created true s]> (heap w)) w in
      Ok (if decide (deps s = ∅)
          then set_newRunnable ({[a]} ∪ newRunnable w1) w1
          else w1)
  end.

Fixpoint createStep (fuel : nat) (p : Path)
    (referringBuild : option BuildID) (referringStep : option ident)
    (x : Expansion) (w : World)
    : result (option ident * Expansion * World) :=
  match fuel with
  | O => Err OutOfFuel
  | S fuel' =>
      if decide (p ∈ finishedDrvs x) then Ok (None, x, w) else
      match lockStep w p with
      | Some (a, s) =>
          (* the step exists: link it and return it *)
          w1 ← linkStep p referringBuild referringStep false a s w;
          Ok (Some a, x, w1)
      | None =>
          (* absent or stale: erase the entry, allocate a new Step *)
          let a := next w in
          let w0 := set_next (S a) (set_steps (delete p (steps_ w)) w) in
          w1 ← linkStep p referringBuild referringStep true a (new_Step p) w0;
          d ← from_option Ok (Err Exception) (readDerivation E p);
          let w2 := set_heap (alter (initStep E d) a (heap w1)) w1 in
          if allValid E d then
            (* all outputs valid: the only owner drops the new Step *)
            Ok (None,
                {| finishedDrvs := {[p]} ∪ finishedDrvs x;
                   newSteps := newSteps x |},
                set_heap (delete a (heap w2)) w2)
          else
            let x1 := {| finishedDrvs := finishedDrvs x;
                         newSteps := {[a]} ∪ newSteps x |} in
            '(x2, w3) ← createDeps (createStep fuel') a (inputDrvs d) x1 w2;
            w4 ← finishStep a w3;
            Ok (Some a, x2, w4)
      end
  end.
End CreateStep.

(** ** Ownership: which Steps die when references are dropped

    Steps are owned through [Step::ptr]: by the [deps] of other Steps, by
    the [toplevel] of a Build, by [newSteps] and [newRunnable]. When the
    references [dropped] go away, a Step dies exactly when it was
    reachable from them and is no longer reachable from the references
    that remain. *)

Definition depsOf (h : gmap ident Step) (a : ident) : gset ident :=
  default ∅ (deps <$> h !! a).

Definition expand (h : gmap ident Step) (s : gset ident) : gset ident :=
  s ∪ ⋃ (depsOf h <$> elements s).

(** Everything owned, directly or through [deps], by [from]. A shortest
    chain of owners passes through distinct live Steps, hence [size h]
    rounds are enough. *)
Definition reachable (h : gmap ident Step) (from : gset ident) : gset ident :=
  Nat.iter (size h) (expand h) from.

Definition dropRefs (dropped remaining : gset ident) (h : gmap ident Step)
    : gmap ident Step :=
  filter (λ kv, kv.1 ∈ reachable h remaining ∨ kv.1 ∉ reachable h dropped) h.

(** The Steps owned by the builds of the registry. *)
Definition registryRoots (w : World) : gset ident :=
  list_to_set (omap (λ kb, toplevel kb.2) (map_to_list (builds_ w))).

(** ** Priority propagation: [Build::propagatePriorities] *)

Definition set_toplevel (t : option ident) (b : Build) : Build :=
  {| build_id := build_id b; build_drvPath := build_drvPath b;
     projectName := projectName b; jobsetName := jobsetName b;
     jobName := jobName b; maxSilentTime := maxSilentTime b;
     buildTimeout := buildTimeout b; timestamp := timestamp b;
     globalPriority := globalPriority b; localPriority := localPriority b;
     jobset := jobset b; finishedInDB := finishedInDB b; toplevel := t |}.

Definition set_finishedInDB (f : bool) (b : Build) : Build :=
  {| build_id := build_id b; build_drvPath := build_drvPath b;
     projectName := projectName b; jobsetName := jobsetName b;
     jobName := jobName b; maxSilentTime := maxSilentTime b;
     buildTimeout := buildTimeout b; timestamp := timestamp b;
     globalPriority := globalPriority b; localPriority := localPriority b;
     jobset := jobset b; finishedInDB := f; toplevel := toplevel b |}.

Definition set_globalPriority (p : Z) (b : Build) : Build :=
  {| build_id := build_id b; build_drvPath := build_drvPath b;
     projectName := projectName b; jobsetName := jobsetName b;
     jobName := jobName b; maxSilentTime := maxSilentTime b;
     buildTimeout := buildTimeout b; timestamp := timestamp b;
     globalPriority := p; localPriority := localPriority b;
     jobset := jobset b; finishedInDB := finishedInDB b;
     toplevel := toplevel b |}.

(** The visitor of [propagatePriorities] (lines 261-265), under the lock
    of the visited step. *)
Definition raisePriorities (b : Build) (s : Step) : Step :=
  {| drvPath := drvPath s; drv := drv s;
     requiredSystemFeatures := requiredSystemFeatures s;
     preferLocalBuild := preferLocalBuild s; created := created s;
     deps := deps s; rdeps := rdeps s; builds := builds s;
     jobsets := {[jobset b]} ∪ jobsets s;
     highestGlobalPriority := Z.max (highestGlobalPriority s) (globalPriority b);
     highestLocalPriority := Z.max (highestLocalPriority s) (localPriority b);
     lowestBuildID := N.min (lowestBuildID s) (build_id b) |}.

Section Visit.
Context (E : Env).

(** The work list of [visitDependencies]: [todo] is the queue of steps
    still to visit, [queued] the steps that were ever put on it. *)
Fixpoint visitLoop (fuel : nat) (visitor : Step → Step)
    (todo : list ident) (queued : gset ident) (h : gmap ident Step)
    : gmap ident Step :=
  match fuel, todo with
  | S fuel', a :: rest =>
      let h1 := alter visitor a h in
      let new := filter (λ d, d ∉ queued)
                        (order E (elements (depsOf h1 a))) in
      visitLoop fuel' visitor (rest ++ new) (queued ∪ list_to_set new) h1
  | _, _ => h
  end.

(** Every identity that can be put on the work list. *)
Definition universe (start : ident) (h : gmap ident Step) : gset ident :=
  {[start]} ∪ ⋃ (deps <$> (map_to_list h).*2).

(** Modelled from the spec: [visitDependencies] of state.hh, which is not
    among the sources. From [start] it traverses all steps reachable
    through [deps] and applies the visitor to each, with a visited set
    that makes it tolerate steps reached twice. No identity enters the
    work list twice, so the fuel given here is never exhausted
    ([visitLoop_enough_fuel] below). *)
Definition visitDependencies (visitor : Step → Step) (start : ident)
    (h : gmap ident Step) : gmap ident Step :=
  visitLoop (S (size (universe start h))) visitor [start] {[start]} h.

Definition propagatePriorities (b : Build) (w : World) : result World :=
  match toplevel b with
  | None => Err NullPointer
  | Some t =>
      Ok (set_heap (visitDependencies (raisePriorities b) t (heap w)) w)
  end.
End Visit.

(** ** The database gateway *)

(** [update Builds set ... where id = $1 and finished = 0]. *)
Definition updateBuilds (i : BuildID) (f : BuildsRow → BuildsRow)
    (d : gmap BuildID BuildsRow) : gmap BuildID BuildsRow :=
  match d !! i with
  | Some r => if decide (finished r = 0%Z) then <[i := f r]> d else d
  | None => d
  end.

(** Lines 114-119: the row of a build whose derivation was collected. *)
Definition abortedRow (now : time_t) (r : BuildsRow) : BuildsRow :=
  {| project := project r; jobset_ := jobset_ r; job := job r;
     drvPath_ := drvPath_ r; maxsilent := maxsilent r; timeout := timeout r;
     timestamp_ := timestamp_ r; globalPriority_ := globalPriority_ r;
     priority := priority r; finished := 1; busy := 0;
     buildStatus := Some bsAborted; startTime := Some now;
     stopTime := Some now;
     errorMsg := Some "derivation was garbage-collected prior to build"%string;
     isCachedBuild := isCachedBuild r |}.

(** Lines 193-198: the row of a build that fails on a bad step. *)
Definition failedRow (status : BuildStatus) (now : time_t) (r : BuildsRow)
    : BuildsRow :=
  {| project := project r; jobset_ := jobset_ r; job := job r;
     drvPath_ := drvPath_ r; maxsilent := maxsilent r; timeout := timeout r;
     timestamp_ := timestamp_ r; globalPriority_ := globalPriority_ r;
     priority := priority r; finished := 1; busy := 0;
     buildStatus := Some status; startTime := Some now; stopTime := Some now;
     errorMsg := errorMsg r;
     isCachedBuild :=
       Some (if decide (status = bsUnsupported) then 0%Z else 1%Z) |}.

(** Modelled from the spec: [createBuildStep] of the queue runner, which is
    not among the sources; it inserts a [BuildSteps] row for the build
    with the given step, machine and status. *)
Definition createBuildStep (start : time_t) (b : Build) (s : Step)
    (machine : string) (status : BuildStepStatus)
    (rows : list BuildStepsRow) : list BuildStepsRow :=
  rows ++ [ {| bs_build := build_id b; bs_drvPath := drvPath s;
               bs_machine := machine; bs_status := status;
               bs_startTime := start |} ].

(** Modelled from the spec: [markSucceededBuild] of the queue runner, which
    is not among the sources; it finalizes the [Builds] row of the build
    as succeeded, with the given cached flag and times. The spec gives it
    no other effect on the state of the queue monitor. *)
Definition markSucceededBuild (b : Build) (cached : bool)
    (start stop : time_t) (d : gmap BuildID BuildsRow)
    : gmap BuildID BuildsRow :=
  updateBuilds (build_id b)
    (λ r, {| project := project r; jobset_ := jobset_ r; job := job r;
             drvPath_ := drvPath_ r; maxsilent := maxsilent r;
             timeout := timeout r; timestamp_ := timestamp_ r;
             globalPriority_ := globalPriority_ r; priority := priority r;
             finished := 1; busy := 0; buildStatus := Some bsSuccess;
             startTime := Some start; stopTime := Some stop;
             errorMsg := errorMsg r;
             isCachedBuild := Some (if cached then 1%Z else 0%Z) |}) d.

(** Modelled from the spec: [makeRunnable] of the dispatcher, which is not
    among the sources; it publishes the step into the runnable set. *)
Definition makeRunnable (r : ident) (w : World) : World :=
  set_runnable (runnable w ++ [r]) w.

(** ** The build loader: the [createBuild] closure *)

Section Loader.
Context (E : Env).

(** Lines 164-186: the status that step [r] gives the build whose
    top-level step is [step]. *)
Definition classifyStep (step r : ident) (s : Step)
    : BuildStatus * BuildStepStatus :=
  let cached :=
    if checkCachedFailure E s
    then (if decide (step = r) then bsFailed else bsDepFailed, bssFailed)
    else (bsSuccess, bssFailed) in
  if decide (cached.1 = bsSuccess) then
    if existsb (λ m, supportsStep m s) (machines E)
    then cached
    else (bsUnsupported, bssUnsupported)
  else cached.

(** Lines 162-206: the loop that looks for a bad step. The result says
    whether one was found ([badStep]). *)
Fixpoint checkSteps (build : Build) (step : ident) (l : list ident)
    (w : World) : result (bool * Build * World) :=
  match l with
  | [] => Ok (false, build, w)
  | r :: rest =>
      match heap w !! r with
      | None => Err NullPointer
      | Some s =>
          let '(status, stepStatus) := classifyStep step r s in
          if decide (status = bsSuccess) then checkSteps build step rest w
          else
            let '(now, w1) := time0 E w in
            if finishedInDB build then Ok (true, build, w1)
            else
              let w2 := set_buildSteps
                          (createBuildStep 0 build s "" stepStatus
                             (buildSteps w1)) w1 in
              let w3 := set_db
                          (updateBuilds (build_id build)
                             (failedRow status now) (db w2)) w2 in
              Ok (true, set_finishedInDB true build,
                  set_nrBuildsDone (nrBuildsDone w3 + 1)%N w3)
      end
  end.

(** [newBuildsByPath.find(p)]: the first entry for the path. *)
Definition findByPath (p : Path) (l : list (Path * BuildID))
    : option BuildID :=
  (λ e, e.2.2) <$> list_find (λ e, e.1 = p) l.

(** Lines 135-141: new steps that are the top level of builds not yet
    loaded; [rec] is the recursive call of [createBuild]. *)
Fixpoint loadNested (rec : Build → World → result (Build * World))
    (l : list ident) (w : World) : result World :=
  match l with
  | [] => Ok w
  | r :: rest =>
      match heap w !! r with
      | None => Err NullPointer
      | Some s =>
          match findByPath (drvPath s) (newBuildsByPath w) with
          | None => loadNested rec rest w
          | Some i =>
              match newBuildsByID w !! i with
              | None => loadNested rec rest w
              | Some b =>
                  '(_, w1) ← rec b w;
                  loadNested rec rest w1
              end
          end
      end
  end.

(** The strong references that remain when a frame of [createBuild]
    returns: those of the enclosing frames ([held]), [newRunnable] and
    the registry. *)
Definition owners (held : gset ident) (w : World) : gset ident :=
  held ∪ newRunnable w ∪ registryRoots w.

(** The frame of [createBuild] returns: [newSteps] and [step] are
    destroyed. *)
Definition leave (held : gset ident) (x : Expansion) (step : option ident)
    (w : World) : World :=
  set_heap (dropRefs (newSteps x ∪ option_to_set step) (owners held w)
              (heap w)) w.

(** [depth] bounds the recursion of [createStep], [fuel] that of
    [createBuild]; [held] are the Steps owned by the enclosing frames.
    The result is the Build object after the call. *)
Fixpoint createBuild (depth fuel : nat) (held : gset ident)
    (build : Build) (w : World) : result (Build * World) :=
  match fuel with
  | O => Err OutOfFuel
  | S fuel' =>
      let w := set_nrAdded (wrap32 (nrAdded w + 1)) w in
      let w := set_newBuildsByID (delete (build_id build) (newBuildsByID w)) w in
      if negb (isValidPath E (build_drvPath build)) then
        (* the derivation has been garbage-collected *)
        if negb (finishedInDB build) then
          let '(now, w) := time0 E w in
          let w := set_db (updateBuilds (build_id build) (abortedRow now)
                             (db w)) w in
          Ok (set_finishedInDB true build,
              set_nrBuildsDone (nrBuildsDone w + 1)%N w)
        else Ok (build, w)
      else
        '(step, x, w) ← createStep E depth (build_drvPath build)
                           (Some (build_id build)) None emptyExpansion w;
        w ← loadNested
              (createBuild depth fuel'
                 (held ∪ newSteps x ∪ option_to_set step))
              (order E (elements (newSteps x))) w;
        match step with
        | None =>
            (* all outputs are valid: a finished, cached build *)
            _ ← from_option Ok (Err Exception)
                  (readDerivation E (build_drvPath build));
            let '(now, w) := time0 E w in
            let w := set_db (markSucceededBuild build true now now (db w)) w in
            Ok (set_finishedInDB true build, leave held x step w)
        | Some a =>
            '(badStep, build, w) ←
               checkSteps build a (order E (elements (newSteps x))) w;
            if (badStep : bool) then Ok (build, leave held x step w)
            else
              let build := set_toplevel (Some a) build in
              let w := if finishedInDB build then w
                       else set_builds (<[build_id build := build]> (builds_ w)) w in
              w ← propagatePriorities E build w;
              Ok (build, leave held x step w)
        end
  end.
End Loader.

(** ** The queue monitor: [State::getQueuedBuilds] *)

(** [order by globalPriority desc, id]. *)
Definition queueOrder (a b : BuildID * BuildsRow) : Prop :=
  (globalPriority_ b.2 < globalPriority_ a.2)%Z
  ∨ (globalPriority_ a.2 = globalPriority_ b.2 ∧ (a.1 ≤ b.1)%N).

Global Instance queueOrder_dec a b : Decision (queueOrder a b).
Proof. unfold queueOrder. apply _. Defined.

(** Lines 69-72: the unfinished builds above the watermark. *)
Definition queryQueue (d : gmap BuildID BuildsRow) (lastBuildId : BuildID)
    : list (BuildID * BuildsRow) :=
  merge_sort queueOrder
    (filter (λ kr, (lastBuildId < kr.1)%N ∧ finished kr.2 = 0%Z)
            (map_to_list d)).

(** Lines 81-92: the Build object made from a row. *)
Definition buildOfRow (i : BuildID) (r : BuildsRow) : Build :=
  {| build_id := i; build_drvPath := drvPath_ r; projectName := project r;
     jobsetName := jobset_ r; jobName := job r; maxSilentTime := maxsilent r;
     buildTimeout := timeout r; timestamp := timestamp_ r;
     globalPriority := globalPriority_ r; localPriority := priority r;
     jobset := (project r, jobset_ r); finishedInDB := false;
     toplevel := None |}.

Section QueueMonitor.
Context (E : Env).

(** Lines 74-97: the loop over the rows. It yields the watermark, the
    list [newIDs] and the world with [newBuildsByID] and
    [newBuildsByPath] filled. *)
Fixpoint readRows (rows : list (BuildID * BuildsRow))
    (lastBuildId : BuildID) (newIDs : list BuildID) (w : World)
    : BuildID * list BuildID * World :=
  match rows with
  | [] => (lastBuildId, newIDs, w)
  | (i, r) :: rest =>
      if bool_decide (buildOne E ≠ 0%N) && bool_decide (i ≠ buildOne E)
      then readRows rest lastBuildId newIDs w
      else
        let lastBuildId := if decide (lastBuildId < i)%N then i
                           else lastBuildId in
        if decide (is_Some (builds_ w !! i))
        then readRows rest lastBuildId newIDs w
        else
          let build := buildOfRow i r in
          readRows rest lastBuildId (newIDs ++ [i])
            (set_newBuildsByPath
               (newBuildsByPath w ++ [(build_drvPath build, i)])
               (set_newBuildsByID (<[i := build]> (newBuildsByID w)) w))
  end.

(** [newRunnable.clear()], and the destruction of [newRunnable] at the
    end of the pass. *)
Definition clearNewRunnable (w : World) : World :=
  set_newRunnable ∅
    (set_heap (dropRefs (newRunnable w) (registryRoots w) (heap w)) w).

(** Lines 229-250: the loop over [newIDs]. *)
Fixpoint loadBuilds (depth : nat) (ids : list BuildID) (w : World)
    : result World :=
  match ids with
  | [] => Ok w
  | i :: rest =>
      match newBuildsByID w !! i with
      | None => loadBuilds depth rest w
      | Some build =>
          let w := set_nrAdded 0 (clearNewRunnable w) in
          '(_, w) ← createBuild E depth (S (size (newBuildsByID w))) ∅
                      build w;
          let w := foldl (λ w r, makeRunnable r w) w
                     (order E (elements (newRunnable w))) in
          loadBuilds depth rest
            (set_nrBuildsRead (nrBuildsRead w + nrAdded w)%N w)
      end
  end.

(** One pass. The locals start empty; what they hold when the pass ends
    is destroyed with them, their last values stay readable in the
    result. *)
Definition getQueuedBuilds (depth : nat) (lastBuildId : BuildID)
    (w : World) : result (BuildID * World) :=
  let w := set_nrAdded 0 (set_newRunnable ∅ (set_newBuildsByPath []
             (set_newBuildsByID ∅ w))) in
  let '(lastBuildId, newIDs, w) :=
    readRows (queryQueue (db w) lastBuildId) lastBuildId [] w in
  w ← loadBuilds depth newIDs w;
  Ok (lastBuildId,
      set_heap (dropRefs (newRunnable w) (registryRoots w) (heap w)) w).
End QueueMonitor.

(** ** Queue reconciliation: [State::processQueueChange] *)

(** [row["globalPriority"].as<BuildID>()]: the conversion throws when the
    field is not an unsigned number. *)
Definition as_BuildID (z : Z) : result BuildID :=
  if decide (0 ≤ z < 2 ^ 32)%Z then Ok (Z.to_N z) else Err Exception.

(** The conversion of [unsigned int] to the [int] that [currentIds]
    stores. *)
Definition int_of_BuildID (n : BuildID) : Z :=
  if decide (n < 2 ^ 31)%N then Z.of_N n else (Z.of_N n - 2 ^ 32)%Z.

(** Line 276: [select id, globalPriority from Builds where finished = 0]. *)
Definition queryUnfinished (d : gmap BuildID BuildsRow) : list (BuildID * Z) :=
  (λ kr, (kr.1, globalPriority_ kr.2))
    <$> filter (λ kr, finished kr.2 = 0%Z) (map_to_list d).

(** Lines 277-278. *)
Fixpoint readCurrentIds (rows : list (BuildID * Z)) (m : gmap BuildID Z)
    : result (gmap BuildID Z) :=
  match rows with
  | [] => Ok m
  | (i, p) :: rest =>
      n ← as_BuildID p;
      readCurrentIds rest (<[i := int_of_BuildID n]> m)
  end.

Section Reconcile.
Context (E : Env).

(** Lines 283-297: the loop over the registry, in the order of the
    build ids. Erasing a build destroys the Build object and with it the
    reference to its top-level step. *)
Fixpoint reconcile (currentIds : gmap BuildID Z) (ids : list BuildID)
    (w : World) : result World :=
  match ids with
  | [] => Ok w
  | i :: rest =>
      match builds_ w !! i with
      | None => reconcile currentIds rest w
      | Some build =>
          match currentIds !! i with
          | None =>
              let w1 := set_builds (delete i (builds_ w)) w in
              reconcile currentIds rest
                (set_heap (dropRefs (option_to_set (toplevel build))
                             (registryRoots w1) (heap w1)) w1)
          | Some p =>
              if decide (globalPriority build < p)%Z then
                let build := set_globalPriority p build in
                let w1 := set_builds (<[i := build]> (builds_ w)) w in
                w2 ← propagatePriorities E build w1;
                reconcile currentIds rest w2
              else reconcile currentIds rest w
          end
      end
  end.

Definition processQueueChange (w : World) : result World :=
  currentIds ← readCurrentIds (queryUnfinished (db w)) ∅;
  reconcile currentIds (merge_sort N.le (elements (dom (builds_ w)))) w.
End Reconcile.

(** * Vocabulary of the statements *)

(** [w'] differs from [w] at most in the Step Graph and in [newRunnable]:
    the part of the world that [createStep] works on. *)
Definition graphOnly (w w' : World) : Prop :=
  w' = set_newRunnable (newRunnable w')
         (set_steps (steps_ w') (set_next (next w') (set_heap (heap w') w))).

(** The world right after [createStep] allocated, linked and initialised
    a new Step for [p] (lines 329-366). *)
Definition allocStep (E : Env) (p : Path) (referringBuild : option BuildID)
    (referringStep : option ident) (d : Derivation) (w : World) : World :=
  set_heap
    (<[next w := initStep E d (addReferrers referringBuild referringStep
                                 (new_Step p))]> (heap w))
    (set_steps (<[p := next w]> (steps_ w)) (set_next (S (next w)) w)).

(** The world after [createStep] found a live Step [a] for [p] and linked
    it to the referrer (lines 335-345). *)
Definition linkFound (p : Path) (referringBuild : option BuildID)
    (referringStep : option ident) (a : ident) (s : Step) (w : World)
    : World :=
  set_steps (<[p := a]> (steps_ w))
    (set_heap (<[a := addReferrers referringBuild referringStep s]> (heap w))
       w).

(** What a call of [createStep] can do to a Step object that existed
    before the call: its path and its [created] flag are fixed, its
    [builds] list only grows at the end. *)
Definition stepGrows (s s' : Step) : Prop :=
  drvPath s' = drvPath s
  ∧ builds s `prefix_of` builds s'
  ∧ created s' = created s.

(** How one call of [createStep] moves the expansion and the world. New
    objects get the identities from [next w] on; nothing that lived
    before is destroyed. *)
Definition extends (x : Expansion) (w : World) (x' : Expansion) (w' : World)
    : Prop :=
  graphOnly w w'
  ∧ next w ≤ next w'
  ∧ finishedDrvs x ⊆ finishedDrvs x'
  ∧ newSteps x ⊆ newSteps x'
  ∧ newRunnable w ⊆ newRunnable w'
  ∧ (∀ i, i ∈ newSteps x' → i ∈ newSteps x ∨ next w ≤ i < next w')
  ∧ (∀ i, i ∈ newRunnable w' → i ∈ newRunnable w ∨ next w ≤ i < next w')
  ∧ (∀ i, is_Some (heap w' !! i) →
          is_Some (heap w !! i) ∨ next w ≤ i < next w')
  ∧ (∀ i s, i < next w → heap w !! i = Some s →
            ∃ s', heap w' !! i = Some s' ∧ stepGrows s s')
  ∧ (∀ p, is_Some (steps_ w !! p) → is_Some (steps_ w' !! p))
  ∧ (∀ p a, steps_ w' !! p = Some a →
            steps_ w !! p = Some a ∨ next w ≤ a < next w').

(** A Step is runnable when it is created and has no dependencies left. *)
Definition runnableStep (s : Step) : Prop :=
  created s = true ∧ deps s = ∅.

(** ** A small store and queue, used to run the model

    Derivation [a] depends on [b] and on [v]; [c] depends on [b]; the
    output of [v] is already in the store; [c] has a cached failure;
    [gone.drv] has been garbage-collected; nothing builds [u]. *)
Definition exampleDrv (out : string) (inputs : list string) : Derivation :=
  {| outputs := [("out"%string, {| path := out |})];
     inputDrvs := (λ i, (i, ["out"%string])) <$> inputs;
     platform := "x86_64-linux"; env := ∅ |}.

Definition exampleStore (valid : list string) : Env :=
  {| isValidPath := λ p, bool_decide (p ∈ valid);
     readDerivation := λ p,
       if decide (p = "/d/a.drv"%string)
       then Some (exampleDrv "/o/a" ["/d/b.drv"; "/d/v.drv"]%string)
       else if decide (p = "/d/b.drv"%string)
       then Some (exampleDrv "/o/b" [])
       else if decide (p = "/d/c.drv"%string)
       then Some (exampleDrv "/o/c" ["/d/b.drv"%string])
       else if decide (p = "/d/v.drv"%string)
       then Some (exampleDrv "/o/v" [])
       else if decide (p = "/d/u.drv"%string)
       then Some (exampleDrv "/o/u" [])
       else None;
     tokenizeString := λ s, [s];
     localPlatforms := ∅;
     checkCachedFailure := λ s, bool_decide (drvPath s = "/d/c.drv"%string);
     machines :=
       [ {| supportsStep := λ s,
              bool_decide (drvPath s ≠ "/d/u.drv"%string) |} ];
     time := λ n, Z.of_nat n;
     order := λ l, l;
     order_perm := λ l, Permutation_refl l;
     buildOne := 0%N |}.

Definition exampleEnv : Env :=
  exampleStore ["/d/a.drv"; "/d/b.drv"; "/d/c.drv"; "/d/v.drv"; "/d/u.drv";
                "/o/v"]%string.

(** The same store at an earlier time, when the output of [v] was not yet
    in it. *)
Definition exampleEnvBefore : Env :=
  exampleStore ["/d/a.drv"; "/d/b.drv"; "/d/c.drv"; "/d/v.drv";
                "/d/u.drv"]%string.

Definition exampleRow (p : string) (prio : Z) : BuildsRow :=
  {| project := "p"; jobset_ := "j"; job := "job"; drvPath_ := p;
     maxsilent := 0; timeout := 0; timestamp_ := 0; globalPriority_ := prio;
     priority := 0; finished := 0; busy := 0; buildStatus := None;
     startTime := None; stopTime := None; errorMsg := None;
     isCachedBuild := None |}.

Definition exampleDb : gmap BuildID BuildsRow :=
  <[1%N := exampleRow "/d/a.drv" 5]>
    (<[2%N := exampleRow "/d/c.drv" 7]>
       (<[3%N := exampleRow "/d/gone.drv" 7]>
          (<[4%N := exampleRow "/d/v.drv" 7]>
             (<[5%N := exampleRow "/d/b.drv" 1]>
                (<[6%N := exampleRow "/d/u.drv" 0]> ∅))))).

Definition exampleWorld : World := set_db exampleDb initialWorld.

Definition exampleBuild (i : BuildID) (p : string) (prio : Z) : Build :=
  buildOfRow i (exampleRow p prio).

(** The world when [createBuild] has counted the build and erased it from
    [newBuildsByID] (lines 106-107). *)
Definition enter (b : Build) (w : World) : World :=
  set_newBuildsByID (delete (build_id b) (newBuildsByID w))
    (set_nrAdded (wrap32 (nrAdded w + 1)) w).

(** [w'] differs from [w] at most in the heap. *)
Definition heapOnly (w w' : World) : Prop := w' = set_heap (heap w') w.

(** The world after a build without [finishedInDB] was failed on the bad
    step [s] (lines 189-201). *)
Definition failBuild (E : Env) (b : Build) (s : Step) (status : BuildStatus)
    (stepStatus : BuildStepStatus) (w : World) : World :=
  set_nrBuildsDone (nrBuildsDone w + 1)%N
    (set_db (updateBuilds (build_id b) (failedRow status (time E (clock w)))
               (db w))
       (set_buildSteps (createBuildStep 0 b s "" stepStatus (buildSteps w))
          (set_clock (S (clock w)) w))).

(** The step has no cached failure and some machine supports it. *)
Definition goodStep (E : Env) (s : Step) : Prop :=
  checkCachedFailure E s = false
  ∧ existsb (λ m, supportsStep m s) (machines E) = true.

Global Instance goodStep_dec (E : Env) (s : Step) : Decision (goodStep E s).
Proof. unfold goodStep. apply _. Defined.

(** The build status and step status that a bad step [r] gives the build
    with top-level step [step]. *)
Definition badStatus (E : Env) (step r : ident) (s : Step)
    : BuildStatus * BuildStepStatus :=
  if checkCachedFailure E s
  then (if decide (step = r) then bsFailed else bsDepFailed, bssFailed)
  else (bsUnsupported, bssUnsupported).

(** ** Bookkeeping of the loader *)

(** Every build waiting in [newBuildsByID] is filed under its own id. *)
Definition keysOk (w : World) : Prop :=
  ∀ i b, newBuildsByID w !! i = Some b → build_id b = i.

(** [w'] has the loader state of [w]. *)
Definition sameLoader (w w' : World) : Prop :=
  newBuildsByID w' = newBuildsByID w ∧ nrAdded w' = nrAdded w
  ∧ builds_ w' = builds_ w ∧ newBuildsByPath w' = newBuildsByPath w
  ∧ nrBuildsRead w' = nrBuildsRead w.

(** From [w] to [w'] builds were loaded: each one left [newBuildsByID] and
    was counted in [nrAdded]; the registry changed only at the ids of
    builds that were waiting. *)
Definition loads (w w' : World) : Prop :=
  keysOk w'
  ∧ newBuildsByID w' ⊆ newBuildsByID w
  ∧ (nrAdded w' + N.of_nat (size (newBuildsByID w'))
     = nrAdded w + N.of_nat (size (newBuildsByID w)))%N
  ∧ (∀ i, newBuildsByID w !! i = None → builds_ w' !! i = builds_ w !! i)
  ∧ newBuildsByPath w' = newBuildsByPath w
  ∧ nrBuildsRead w' = nrBuildsRead w.

(** A row of the queue that [getQueuedBuilds] turns into a new build:
    it passes the [buildOne] filter and its id is not in the registry
    [reg] (lines 77-79). *)
Definition accepted (E : Env) (reg : gmap BuildID Build)
    (kr : BuildID * BuildsRow) : Prop :=
  (buildOne E = 0%N ∨ kr.1 = buildOne E) ∧ reg !! kr.1 = None.

Global Instance accepted_dec E reg kr : Decision (accepted E reg kr).
Proof. unfold accepted. apply _. Defined.

(** The builds that a pass reads from the queue and loads. *)
Definition newBuilds (E : Env) (w : World) (lastBuildId : BuildID)
    : list (BuildID * BuildsRow) :=
  filter (accepted E (builds_ w)) (queryQueue (db w) lastBuildId).

(** The world when a pass starts: the locals are empty. *)
Definition startPass (w : World) : World :=
  set_nrAdded 0 (set_newRunnable ∅ (set_newBuildsByPath []
    (set_newBuildsByID ∅ w))).

(** ** Priorities *)

(** Step [a] is alive in [h] and depends directly on [c]. *)
Definition depEdge (h : gmap ident Step) (a c : ident) : Prop :=
  ∃ s, h !! a = Some s ∧ c ∈ deps s.

(** [c] is reachable from [a] through [deps]. *)
Definition reaches (h : gmap ident Step) (a c : ident) : Prop :=
  rtc (depEdge h) a c.

(** The priorities of the step cover the build. *)
Definition covers (b : Build) (s : Step) : Prop :=
  (globalPriority b ≤ highestGlobalPriority s)%Z
  ∧ (localPriority b ≤ highestLocalPriority s)%Z
  ∧ (lowestBuildID s ≤ build_id b)%N
  ∧ jobset b ∈ jobsets s.

(** From [s] to [s'] the priority fields only moved in their direction:
    the highest priorities up, the lowest build id down, the jobsets
    grew; every other field is the same. *)
Definition priorityMono (s s' : Step) : Prop :=
  (highestGlobalPriority s ≤ highestGlobalPriority s')%Z
  ∧ (highestLocalPriority s ≤ highestLocalPriority s')%Z
  ∧ (lowestBuildID s' ≤ lowestBuildID s)%N
  ∧ jobsets s ⊆ jobsets s'
  ∧ drvPath s' = drvPath s ∧ drv s' = drv s
  ∧ requiredSystemFeatures s' = requiredSystemFeatures s
  ∧ preferLocalBuild s' = preferLocalBuild s
  ∧ created s' = created s ∧ deps s' = deps s ∧ rdeps s' = rdeps s
  ∧ builds s' = builds s.

(** During the traversal of [visitDependencies]: step [a], when alive,
    satisfies [P] and all its dependencies were put on the queue. *)
Definition visited (P : Step → Prop) (h : gmap ident Step)
    (queued : gset ident) (a : ident) : Prop :=
  ∀ s, h !! a = Some s → P s ∧ deps s ⊆ queued.

(** The registered build [b] is in the snapshot [currentIds], which does
    not give it a higher priority. *)
Definition settled (currentIds : gmap BuildID Z) (i : BuildID) (b : Build)
    : Prop :=
  ∃ p, currentIds !! i = Some p ∧ (p ≤ globalPriority b)%Z.

(** The world after a pass that returns. *)
Definition afterPass (E : Env) (depth : nat) (lastBuildId : BuildID)
    (w : World) : World :=
  match getQueuedBuilds E depth lastBuildId w with
  | Ok (_, w') => w'
  | Err _ => w
  end.

(** The example after the expansion of [a] alone, after a pass over the
    whole queue, and after build 5 was then deleted and build 1 bumped in
    the database. *)
Definition exampleGraph : World :=
  match createStep exampleEnv 5 "/d/a.drv" (Some 1%N) None emptyExpansion
          initialWorld with
  | Ok (_, _, w) => w
  | Err _ => initialWorld
  end.

Definition exampleAfterPass : World := afterPass exampleEnv 5 0 exampleWorld.

Definition exampleBumped : World :=
  set_db (<[1%N := exampleRow "/d/a.drv" 9]> (delete 5%N (db exampleAfterPass)))
    exampleAfterPass.

(** A later pass that finds build 7, of the derivation of build 1. *)
Definition exampleSecondQueue : World :=
  set_db (<[7%N := exampleRow "/d/a.drv" 3]> (db exampleAfterPass))
    exampleAfterPass.

Definition exampleShared : World := afterPass exampleEnv 5 6 exampleSecondQueue.

(** ** The assertion [created != isNew] *)

(** The derivations of the store form no cycle: inputs have a smaller
    rank. *)
Definition acyclic (E : Env) (rank : Path → nat) : Prop :=
  ∀ p d i, readDerivation E p = Some d → i ∈ (inputDrvs d).*1 →
           rank i < rank p.

(** The Step Graph only refers to identities that were allocated. *)
Definition stepsFresh (w : World) : Prop :=
  ∀ q a, steps_ w !! q = Some a → a < next w.

(** Every live Step that the Step Graph registers is created: the state
    between two expansions. *)
Definition allCreated (w : World) : Prop :=
  stepsFresh w
  ∧ ∀ p a s, lockStep w p = Some (a, s) → created s = true.

(** During an expansion the registered live Steps that are not yet created
    are those whose [createStep] is still running; their derivations rank
    above [p]. *)
Definition uncreatedAbove (rank : Path → nat) (w : World) (p : Path) : Prop :=
  stepsFresh w
  ∧ ∀ q a s, lockStep w q = Some (a, s) → created s = false →
             rank p < rank q.

(** Every registered live Step that is not created in [w'] was already so
    in [w]. *)
Definition uncreatedFrom (w w' : World) : Prop :=
  ∀ q a s', lockStep w' q = Some (a, s') → created s' = false →
            ∃ s, lockStep w q = Some (a, s) ∧ created s = false.

(** A result that is not a failed assertion. *)
Definition safe {A : Type} (post : A → Prop) (m : result A) : Prop :=
  match m with
  | Ok a => post a
  | Err e => e ≠ AssertionFailed
  end.

(** From [w] to [w'] no registered live Step lost its [created] flag or
    appeared without it, and the Step Graph stays within the allocated
    identities. *)
Definition graphSafe (w w' : World) : Prop :=
  uncreatedFrom w w' ∧ (stepsFresh w → stepsFresh w').

(** A rank for the derivations of the example store. *)
Definition exampleRank (p : string) : nat :=
  if decide (p = "/d/a.drv"%string) then 1
  else if decide (p = "/d/c.drv"%string) then 1 else 0.

(** ** Sharing of Steps *)

(** Every live Step has an allocated identity. *)
Definition heapFresh (w : World) : Prop :=
  ∀ a, is_Some (heap w !! a) → a < next w.

(** A live Step that the Step Graph registers for a path is a Step of
    that path. *)
Definition mapConsistent (w : World) : Prop :=
  ∀ p a s, lockStep w p = Some (a, s) → drvPath s = p.

(** Every live Step is the one that the Step Graph registers for its
    path. *)
Definition uniqueSteps (w : World) : Prop :=
  ∀ a s, heap w !! a = Some s → steps_ w !! drvPath s = Some a.

(** No path that the expansion found finished has a live Step. *)
Definition finishedOk (x : Expansion) (w : World) : Prop :=
  ∀ p, p ∈ finishedDrvs x → lockStep w p = None.

Definition sharing (w : World) : Prop :=
  heapFresh w ∧ stepsFresh w ∧ mapConsistent w ∧ uniqueSteps w.

(** Every build of the registry is filed under its id and owns a live
    top-level Step of its derivation path, whose [builds] list names
    it. *)
Definition admitted (w : World) : Prop :=
  ∀ i b, builds_ w !! i = Some b →
    build_id b = i
    ∧ ∃ a s, toplevel b = Some a ∧ heap w !! a = Some s
        ∧ drvPath s = build_drvPath b ∧ i ∈ builds s.

(** The invariant of the Step Graph and the registry between the
    operations of the queue monitor. *)
Definition graphInv (w : World) : Prop := sharing w ∧ admitted w.

(** A Step kept alive: same path, and no build left its [builds] list. *)
Definition keptStep (s s' : Step) : Prop :=
  drvPath s' = drvPath s ∧ ∀ i, i ∈ builds s → i ∈ builds s'.

(** The Steps of [w] with an identity in [k] are kept alive in [w']. *)
Definition keeps (k : gset ident) (w w' : World) : Prop :=
  ∀ a s, a ∈ k → heap w !! a = Some s →
         ∃ s', heap w' !! a = Some s' ∧ keptStep s s'.

(** The builds and steps that referred to a Step, as lists. *)
Definition referrers {A : Type} (r : option A) : list A :=
  match r with Some a => [a] | None => [] end.

(** * Vocabulary of the further properties *)

(** Every Step of [w] with an identity below [next w] is alive in [w']
    and related to its old state by [R]. *)
Definition stepwise (R : Step → Step → Prop) (w w' : World) : Prop :=
  ∀ i s, i < next w → heap w !! i = Some s →
         ∃ s', heap w' !! i = Some s' ∧ R s s'.

(** [s'] is [s] with more referrers at the end of [builds] and [rdeps],
    and nothing else changed. *)
Definition referred (s s' : Step) : Prop :=
  ∃ bs rs,
    s' = set_rdeps (rdeps s ++ rs) (set_step_builds (builds s ++ bs) s).

(** The expansion sets after the expansion of [a] in the example. *)
Definition exampleExpansion : Expansion :=
  match createStep exampleEnv 5 "/d/a.drv" (Some 1%N) None emptyExpansion
          initialWorld with
  | Ok (_, x, _) => x
  | Err _ => emptyExpansion
  end.

(** ** What a pass does to the registry and to the database *)

(** The loader finalized the row: it was unfinished and is finished, with
    a status and [startTime = stopTime]; the columns that the queue
    monitor reads are as they were. *)
Definition finalizes (r r' : BuildsRow) : Prop :=
  finished r = 0%Z ∧ finished r' = 1%Z ∧ busy r' = 0%Z
  ∧ is_Some (buildStatus r') ∧ is_Some (startTime r')
  ∧ stopTime r' = startTime r'
  ∧ project r' = project r ∧ jobset_ r' = jobset_ r ∧ job r' = job r
  ∧ drvPath_ r' = drvPath_ r ∧ maxsilent r' = maxsilent r
  ∧ timeout r' = timeout r ∧ timestamp_ r' = timestamp_ r
  ∧ globalPriority_ r' = globalPriority_ r ∧ priority r' = priority r.

(** The builds that wait in [newBuildsByID]: filed under their id, not
    finished, not registered, with an unfinished row. *)
Definition pendingOk (w : World) : Prop :=
  ∀ i b, newBuildsByID w !! i = Some b →
    build_id b = i ∧ finishedInDB b = false
    ∧ builds_ w !! i = None
    ∧ ∃ r, db w !! i = Some r ∧ finished r = 0%Z.

(** The build is registered or its row is finished. *)
Definition settledIn (w : World) (i : BuildID) : Prop :=
  is_Some (builds_ w !! i) ∨ ∃ r, db w !! i = Some r ∧ finished r = 1%Z.

(** From [w] to [w'] the loader worked on builds of [pending] only: no
    build came to wait; the registry kept its builds and got builds of
    [pending] with their top-level step; rows were neither added nor
    removed, and the rows that changed are rows of [pending], finalized. *)
Definition changes (pending : gmap BuildID Build) (w w' : World) : Prop :=
  newBuildsByID w' ⊆ newBuildsByID w
  ∧ (∀ i b, builds_ w !! i = Some b → builds_ w' !! i = Some b)
  ∧ (∀ i b, builds_ w' !! i = Some b →
       builds_ w !! i = Some b
       ∨ ∃ b0 a, pending !! i = Some b0 ∧ b = set_toplevel (Some a) b0)
  ∧ (∀ i, match db w !! i with
          | Some r =>
              ∃ r', db w' !! i = Some r'
                ∧ (r' = r ∨ (finalizes r r' ∧ is_Some (pending !! i)))
          | None => db w' !! i = None
          end).

(** Every build that left [newBuildsByID] between [w] and [w'] is
    registered or finished. *)
Definition noneLost (w w' : World) : Prop :=
  ∀ i, is_Some (newBuildsByID w !! i) → newBuildsByID w' !! i = None →
       settledIn w' i.

(** ** Reconciliation *)

(** What the registry holds for build [i] after a reconciliation with
    the snapshot [currentIds], when it held [ob] before. *)
Definition reconciled (currentIds : gmap BuildID Z) (i : BuildID)
    (ob : option Build) : option Build :=
  b ← ob; p ← currentIds !! i;
  Some (if decide (globalPriority b < p)%Z then set_globalPriority p b
        else b).

(** [w'] differs from [w] at most in the heap and in the registry, and
    every Step of [w'] was a Step of [w], from which its priority fields
    moved monotonically. *)
Definition reconciles (w w' : World) : Prop :=
  w' = set_builds (builds_ w') (set_heap (heap w') w)
  ∧ ∀ a s', heap w' !! a = Some s' →
            ∃ s, heap w !! a = Some s ∧ priorityMono s s'.

(** The example after the reconciliation with the changed queue. *)
Definition exampleReconciled : World :=
  match processQueueChange exampleEnv exampleBumped with
  | Ok w => w
  | Err _ => exampleBumped
  end.

(** * More of the queue monitor *)

(** ** The event loop: [State::queueMonitorLoop] *)

(** Modelled from the spec: the notification receivers of the database
    connection, which are not among the sources. [await_notification]
    blocks until a channel fires and lets the caller check a flag per
    channel. A wake-up gives the values that the calls of [get()] return
    in one iteration of the loop, and the [Builds] table as the other
    clients of the database left it while the monitor slept. *)
Record Wakeup := {
  tableNow : gmap BuildID BuildsRow → gmap BuildID BuildsRow;
  buildsAdded : bool;
  buildsRestarted : bool;
  buildsCancelled : bool;
  buildsDeleted : bool;
  buildsBumped : bool
}.

(** The queue runner with the local [lastBuildId] of the loop and the
    counter [nrQueueWakeups]. *)
Record Monitor := {
  world : World;
  lastBuildId : BuildID;
  nrQueueWakeups : N
}.

(** Lines 35-51: one iteration of the loop. The store and the machines
    are those of the time of the iteration. *)
Definition monitorIteration (depth : nat) (E : Env) (n : Wakeup)
    (m : Monitor) : result Monitor :=
  '(last, w) ← getQueuedBuilds E depth (lastBuildId m) (world m);
  (* conn->await_notification() *)
  let w := set_db (tableNow n (db w)) w in
  let wakeups := (nrQueueWakeups m + 1)%N in
  let last := if buildsRestarted n then 0%N else last in
  w ← (if buildsCancelled n || buildsDeleted n || buildsBumped n
       then processQueueChange E w else Ok w);
  Ok {| world := w; lastBuildId := last; nrQueueWakeups := wakeups |}.

(** The iterations of the loop for a sequence of wake-ups. *)
Fixpoint monitorIterations (depth : nat) (rounds : list (Env * Wakeup))
    (m : Monitor) : result Monitor :=
  match rounds with
  | [] => Ok m
  | (E, n) :: rest =>
      m1 ← monitorIteration depth E n m;
      monitorIterations depth rest m1
  end.

(** Lines 20-53: the loop starts with [lastBuildId = 0]; the result is
    the state after the given wake-ups (the loop itself does not end). *)
Definition queueMonitorLoop (depth : nat) (rounds : list (Env * Wakeup))
    (wakeups : N) (w : World) : result Monitor :=
  monitorIterations depth rounds
    {| world := w; lastBuildId := 0; nrQueueWakeups := wakeups |}.

(** No wake-up of the sequence reports a restart. *)
Definition noRestart (rounds : list (Env * Wakeup)) : Prop :=
  ∀ r, r ∈ rounds → buildsRestarted r.2 = false.

(** No wake-up of the sequence reports a cancelled, deleted or bumped
    build. *)
Definition noQueueChange (rounds : list (Env * Wakeup)) : Prop :=
  ∀ r, r ∈ rounds →
       buildsCancelled r.2 || buildsDeleted r.2 || buildsBumped r.2 = false.

(** Two wake-ups of the example: build 7 of the derivation of build 1 is
    queued; then build 5 is cancelled and build 1 bumped to 9. *)
Definition exampleAdded : Env * Wakeup :=
  (exampleEnv,
   {| tableNow := <[7%N := exampleRow "/d/a.drv" 3]>;
      buildsAdded := true; buildsRestarted := false;
      buildsCancelled := false; buildsDeleted := false;
      buildsBumped := false |}).

Definition exampleChanged : Env * Wakeup :=
  (exampleEnv,
   {| tableNow := λ d, <[1%N := exampleRow "/d/a.drv" 9]> (delete 5%N d);
      buildsAdded := false; buildsRestarted := false;
      buildsCancelled := true; buildsDeleted := false;
      buildsBumped := true |}).

(** A wake-up without news. *)
Definition exampleIdle : Env * Wakeup :=
  (exampleEnv,
   {| tableNow := λ d, d;
      buildsAdded := false; buildsRestarted := false;
      buildsCancelled := false; buildsDeleted := false;
      buildsBumped := false |}).

Definition exampleStart : Monitor :=
  {| world := exampleWorld; lastBuildId := 0; nrQueueWakeups := 0 |}.

Definition afterRounds (rounds : list (Env * Wakeup)) : Monitor :=
  match monitorIterations 5 rounds exampleStart with
  | Ok m => m
  | Err _ => exampleStart
  end.

(** ** The jobset registry: [State::createJobset] *)

(** Modelled from the spec: the class [Jobset] of state.hh, which is not
    among the sources. A Jobset has its scheduling shares and a record
    of the (start, duration) pairs of recent build steps; [addStep]
    records one more. *)
Record Jobset := {
  shares : N;
  jobsetSteps : list (time_t * time_t)
}.

Definition new_Jobset (shares : N) : Jobset :=
  {| shares := shares; jobsetSteps := [] |}.

Definition addStep (startTime duration : time_t) (j : Jobset) : Jobset :=
  {| shares := shares j;
     jobsetSteps := jobsetSteps j ++ [(startTime, duration)] |}.

(** The tables that [createJobset] reads: [Jobsets], and the times of
    [BuildSteps], which it joins with [Builds]. *)
Record JobsetsRow := {
  jobsets_project : string;
  jobsets_name : string;
  schedulingShares : Z
}.

Record StepTimes := {
  st_build : BuildID;
  st_startTime : option time_t;
  st_stopTime : option time_t
}.

Record JobsetDb := {
  jobsetsTable : list JobsetsRow;
  buildStepTimes : list StepTimes;
  buildsTable : gmap BuildID BuildsRow
}.

(** Lines 420-422: [select schedulingShares from Jobsets where project =
    $1 and name = $2]. *)
Definition querySchedulingShares (d : JobsetDb)
    (projectName jobsetName : string) : list Z :=
  schedulingShares
    <$> filter (λ r, jobsets_project r = projectName
                     ∧ jobsets_name r = jobsetName) (jobsetsTable d).

(** Lines 431-434: the build steps of the jobset that have a start time
    and stopped after [since]. *)
Definition queryRecentSteps (d : JobsetDb) (since : time_t)
    (projectName jobsetName : string) : list (time_t * time_t) :=
  omap (λ s,
          start ← st_startTime s;
          stop ← st_stopTime s;
          b ← buildsTable d !! st_build s;
          if decide ((since < stop)%Z ∧ project b = projectName
                     ∧ jobset_ b = jobsetName)
          then Some (start, stop) else None)
       (buildStepTimes d).

(** Lines 410-443. [schedulingWindow] is [Jobset::schedulingWindow], a
    constant of state.hh; [now] is the value of [time(0)]. The result is
    the Jobset pointer, which the pair identifies, and the registry. *)
Definition createJobset (schedulingWindow : Z) (d : JobsetDb)
    (now : time_t) (projectName jobsetName : string)
    (jobsets_ : gmap (string * string) Jobset)
    : result (JobsetPtr * gmap (string * string) Jobset) :=
  let p := (projectName, jobsetName) in
  match jobsets_ !! p with
  | Some _ => Ok (p, jobsets_)
  | None =>
      match querySchedulingShares d projectName jobsetName with
      | [] => Err Exception
      | z :: _ =>
          n ← as_BuildID z;
          let n := if decide (n = 0%N) then 1%N else n in
          let jobset :=
            foldl (λ j row, addStep row.1 (row.2 - row.1)%Z j)
                  (new_Jobset n)
                  (queryRecentSteps d (now - schedulingWindow * 10)%Z
                     projectName jobsetName) in
          Ok (p, <[p := jobset]> jobsets_)
      end
  end.

(** All registered jobsets have at least one share. *)
Definition sharesPositive (jobsets_ : gmap (string * string) Jobset)
    : Prop :=
  ∀ k j, jobsets_ !! k = Some j → (1 ≤ shares j)%N.

(** A database with the jobset [p:j] of the example, with no shares, and
    two build steps of build 1, of which one has no stop time. *)
Definition exampleJobsetDb : JobsetDb :=
  {| jobsetsTable :=
       [ {| jobsets_project := "p"; jobsets_name := "j";
            schedulingShares := 0 |} ];
     buildStepTimes :=
       [ {| st_build := 1%N; st_startTime := Some 100%Z;
            st_stopTime := Some 160%Z |};
         {| st_build := 1%N; st_startTime := Some 200%Z;
            st_stopTime := None |} ];
     buildsTable := exampleDb |}.

Definition exampleJobsets : gmap (string * string) Jobset :=
  match createJobset 3600 exampleJobsetDb 1000 "p" "j" ∅ with
  | Ok (_, m) => m
  | Err _ => ∅
  end.

(** The example when the loader has expanded build 1. *)
Definition exampleExpanded : World :=
  match createStep exampleEnv 5 "/d/a.drv" (Some 1%N) None emptyExpansion
          (enter (exampleBuild 1 "/d/a.drv" 5) exampleWorld) with
  | Ok (_, _, w) => w
  | Err _ => exampleWorld
  end.

(** ** A pass with the jobset registry *)

(** The tables that [createJobset] reads in the transaction of the row
    loop: [Jobsets] and the times of [BuildSteps] as [jd] gives them,
    joined with the [Builds] table of the world. *)
Definition jobsetTables (jd : JobsetDb) (w : World) : JobsetDb :=
  {| jobsetsTable := jobsetsTable jd; buildStepTimes := buildStepTimes jd;
     buildsTable := db w |}.

(** Lines 74-97 with line 92: the loop over the rows as [readRows] has
    it, and the call of [createJobset] for every row that becomes a
    build, which [readRows] leaves out. The call can throw, which ends
    the pass; it reads the clock when the jobset is not registered
    (line 434), and it may add a Jobset to [State::jobsets], the last
    component of the result. *)
Fixpoint readRowsWithJobsets (E : Env) (schedulingWindow : Z)
    (jd : JobsetDb) (rows : list (BuildID * BuildsRow))
    (lastBuildId : BuildID) (newIDs : list BuildID) (w : World)
    (jobsets_ : gmap (string * string) Jobset)
    : result (BuildID * list BuildID * World
              * gmap (string * string) Jobset) :=
  match rows with
  | [] => Ok (lastBuildId, newIDs, w, jobsets_)
  | (i, r) :: rest =>
      if bool_decide (buildOne E ≠ 0%N) && bool_decide (i ≠ buildOne E)
      then readRowsWithJobsets E schedulingWindow jd rest lastBuildId
             newIDs w jobsets_
      else
        let lastBuildId := if decide (lastBuildId < i)%N then i
                           else lastBuildId in
        if decide (is_Some (builds_ w !! i))
        then readRowsWithJobsets E schedulingWindow jd rest lastBuildId
               newIDs w jobsets_
        else
          let '(now, w1) := time0 E w in
          '(ptr, jobsets1) ←
             createJobset schedulingWindow (jobsetTables jd w) now
               (project r) (jobset_ r) jobsets_;
          let w := if jobsets_ !! (project r, jobset_ r) is Some _
                   then w else w1 in
          let build :=
            {| build_id := i; build_drvPath := drvPath_ r;
               projectName := project r; jobsetName := jobset_ r;
               jobName := job r; maxSilentTime := maxsilent r;
               buildTimeout := timeout r; timestamp := timestamp_ r;
               globalPriority := globalPriority_ r;
               localPriority := priority r; jobset := ptr;
               finishedInDB := false; toplevel := None |} in
          readRowsWithJobsets E schedulingWindow jd rest lastBuildId
            (newIDs ++ [i])
            (set_newBuildsByPath
               (newBuildsByPath w ++ [(build_drvPath build, i)])
               (set_newBuildsByID (<[i := build]> (newBuildsByID w)) w))
            jobsets1
  end.

(** Lines 56-251: a pass as [getQueuedBuilds] has it, with the row loop
    that calls [createJobset]. *)
Definition getQueuedBuildsWithJobsets (E : Env) (schedulingWindow : Z)
    (jd : JobsetDb) (depth : nat) (lastBuildId : BuildID) (w : World)
    (jobsets_ : gmap (string * string) Jobset)
    : result (BuildID * World * gmap (string * string) Jobset) :=
  let w := startPass w in
  '(lastBuildId, newIDs, w, jobsets_) ←
     readRowsWithJobsets E schedulingWindow jd
       (queryQueue (db w) lastBuildId) lastBuildId [] w jobsets_;
  w ← loadBuilds E depth newIDs w;
  Ok (lastBuildId,
      set_heap (dropRefs (newRunnable w) (registryRoots w) (heap w)) w,
      jobsets_).

(** ** Failures *)

(** [q] is an input derivation of the derivation that the store reads at
    [p]. *)
Definition inputOf (E : Env) (p q : Path) : Prop :=
  ∃ d, readDerivation E p = Some d ∧ q ∈ (inputDrvs d).*1.

(** The expansion of [p] meets a derivation that the store cannot read:
    [p] itself, or an input that is reached from [p] through derivations
    that the store reads. *)
Definition unreadableFrom (E : Env) (p : Path) : Prop :=
  ∃ q, rtc (inputOf E) p q ∧ readDerivation E q = None.

(** [createJobset] throws for the jobset: it is not registered, and the
    [Jobsets] table has no row for it or the shares of the first row are
    no [unsigned int]. *)
Definition jobsetFailure (jd : JobsetDb)
    (jobsets_ : gmap (string * string) Jobset) (p j : string) : Prop :=
  jobsets_ !! (p, j) = None
  ∧ (querySchedulingShares jd p j = []
     ∨ ∃ z rest, querySchedulingShares jd p j = z :: rest
         ∧ ¬ (0 ≤ z < 2 ^ 32)%Z).

(** An error of the loader that the analysis admits: a failed assertion,
    which the invariant of the [created] flags excludes, or the
    exception of the store at a derivation that a build of [pending]
    needs. *)
Definition expected (E : Env) (pending : gmap BuildID Build) (e : error)
    : Prop :=
  e = AssertionFailed
  ∨ (e = Exception
     ∧ ∃ i b, pending !! i = Some b ∧ unreadableFrom E (build_drvPath b)).

(** The new steps of the expansion are alive. *)
Definition newStepsAlive (x : Expansion) (w : World) : Prop :=
  heapFresh w ∧ ∀ r, r ∈ newSteps x → is_Some (heap w !! r).

(** A queue with a build whose derivation path is valid but is not a
    derivation that the store can read. *)
Definition exampleUnreadable : World :=
  set_db (<[9%N := exampleRow "/o/v" 1]> exampleDb) initialWorld.

(** The same queue when its rows were read. *)
Definition exampleUnreadableRead : BuildID * list BuildID * World :=
  readRows exampleEnv (queryQueue (db exampleUnreadable) 0) 0 []
    (startPass exampleUnreadable).

(** The example after its pass, when the priority of build 1 was set to a
    negative number. *)
Definition exampleNegative : World :=
  set_db (<[1%N := exampleRow "/d/a.drv" (-1)]> (db exampleAfterPass))
    exampleAfterPass.

(** ** Basic facts *)

Lemma bind_Ok {A B} (m : result A) (f : A → result B) (b : B) :
  m ≫= f = Ok b → ∃ a, m = Ok a ∧ f a = Ok b.
Proof. destruct m as [a|e]; [eauto | discriminate]. Qed.

Lemma from_option_Ok {A} (o : option A) (e : error) (a : A) :
  from_option Ok (Err e) o = Ok a → o = Some a.
Proof. destruct o; simpl; congruence. Qed.

Lemma order_nil (E : Env) : order E [] = [].
Proof. apply Permutation_nil_r, order_perm. Qed.

Lemma elem_of_order (E : Env) (l : list nat) (a : nat) :
  a ∈ order E l ↔ a ∈ l.
Proof. by rewrite (order_perm E l). Qed.

Lemma expand_empty (h : gmap nat Step) : expand h ∅ = ∅.
Proof. unfold expand. rewrite elements_empty. simpl. set_solver. Qed.

Lemma reachable_empty (h : gmap nat Step) : reachable h ∅ = ∅.
Proof.
  unfold reachable. induction (size h) as [|n IH]; simpl; [done|].
  by rewrite IH, expand_empty.
Qed.

Lemma expand_incl (h : gmap nat Step) (s : gset nat) : s ⊆ expand h s.
Proof. unfold expand. set_solver. Qed.

Lemma reachable_incl (h : gmap nat Step) (s : gset nat) : s ⊆ reachable h s.
Proof.
  unfold reachable. induction (size h) as [|n IH]; simpl; [done|].
  etrans; [exact IH | apply expand_incl].
Qed.

Lemma dropRefs_subseteq (d r : gset nat) (h : gmap nat Step) :
  dropRefs d r h ⊆ h.
Proof. apply map_filter_subseteq. Qed.

Lemma dropRefs_lookup_Some (d r : gset nat) (h : gmap nat Step) a s :
  dropRefs d r h !! a = Some s → h !! a = Some s.
Proof. intros H. eapply lookup_weaken; [exact H | apply dropRefs_subseteq]. Qed.

Lemma dropRefs_keeps (d r : gset nat) (h : gmap nat Step) a s :
  a ∈ r → h !! a = Some s → dropRefs d r h !! a = Some s.
Proof.
  intros Ha Hs. unfold dropRefs. apply map_lookup_filter_Some. split; [done|].
  left. simpl. by apply reachable_incl.
Qed.

Lemma dropRefs_empty (r : gset nat) (h : gmap nat Step) : dropRefs ∅ r h = h.
Proof.
  unfold dropRefs. apply map_filter_id. intros a s _. right.
  rewrite reachable_empty. set_solver.
Qed.

(** ** Case analysis of [createStep] *)

Section CreateStepCases.
Context (E : Env).

Lemma linkStep_Ok p rb rs isNew a s w w' :
  linkStep p rb rs isNew a s w = Ok w' →
  created s ≠ isNew ∧ w' = linkFound p rb rs a s w.
Proof.
  unfold linkStep. case_bool_decide; [discriminate|].
  intros [= <-]. done.
Qed.

Lemma allocStep_eq p rb rs d w :
  set_heap (alter (initStep E d) (next w)
              (heap (linkFound p rb rs (next w) (new_Step p)
                       (set_next (S (next w))
                          (set_steps (delete p (steps_ w)) w)))))
    (linkFound p rb rs (next w) (new_Step p)
       (set_next (S (next w)) (set_steps (delete p (steps_ w)) w)))
  = allocStep E p rb rs d w.
Proof.
  unfold allocStep, linkFound. simpl.
  rewrite alter_insert_eq, insert_delete_eq. reflexivity.
Qed.

Lemma createStep_Ok_inv fuel p rb rs x w r x' w' :
  createStep E (S fuel) p rb rs x w = Ok (r, x', w') →
  (p ∈ finishedDrvs x ∧ r = None ∧ x' = x ∧ w' = w)
  ∨ ((p ∉ finishedDrvs x) ∧ ∃ a s, (lockStep w p = Some (a, s))
       ∧ created s = true ∧ r = Some a ∧ x' = x
       ∧ w' = linkFound p rb rs a s w)
  ∨ ((p ∉ finishedDrvs x) ∧ lockStep w p = None
       ∧ ∃ d, (readDerivation E p = Some d)
       ∧ ((allValid E d = true ∧ r = None
            ∧ x' = {| finishedDrvs := {[p]} ∪ finishedDrvs x;
                      newSteps := newSteps x |}
            ∧ w' = set_heap (delete (next w) (heap (allocStep E p rb rs d w)))
                     (allocStep E p rb rs d w))
          ∨ (allValid E d = false ∧ ∃ x2 w3,
               createDeps (createStep E fuel) (next w) (inputDrvs d)
                 {| finishedDrvs := finishedDrvs x;
                    newSteps := {[next w]} ∪ newSteps x |}
                 (allocStep E p rb rs d w) = Ok (x2, w3)
               ∧ finishStep (next w) w3 = Ok w'
               ∧ r = Some (next w) ∧ x' = x2))).
Proof.
  intros H. cbn [createStep] in H. case_decide as Hfin.
  { injection H as <- <- <-. by left. }
  destruct (lockStep w p) as [[a s]|] eqn:Hlock.
  - apply bind_Ok in H as (w1 & Hlink & [= <- <- <-]).
    apply linkStep_Ok in Hlink as [Hc ->].
    right; left. split; [done|]. exists a, s. repeat split; try done.
    by destruct (created s).
  - apply bind_Ok in H as (w1 & Hlink & H).
    apply linkStep_Ok in Hlink as [_ ->].
    apply bind_Ok in H as (d & Hd & H). apply from_option_Ok in Hd.
    rewrite allocStep_eq in H.
    right; right. split; [done|]. split; [done|]. exists d. split; [done|].
    destruct (allValid E d) eqn:Hv.
    + injection H as <- <- <-. by left.
    + apply bind_Ok in H as ([x2 w3] & Hdeps & H).
      apply bind_Ok in H as (w4 & Hfinish & [= <- <- <-]).
      right. split; [done|]. by exists x2, w3.
Qed.

Lemma createDeps_Ok_inv rec a i rest x w x' w' :
  createDeps rec a (i :: rest) x w = Ok (x', w') →
  ∃ dep x1 w1, rec i.1 None (Some a) x w = Ok (dep, x1, w1)
    ∧ createDeps rec a rest x1
        (match dep with Some d => addDep a d w1 | None => w1 end)
      = Ok (x', w').
Proof.
  intros H. cbn [createDeps] in H.
  apply bind_Ok in H as ([[dep x1] w1] & Hrec & H).
  by exists dep, x1, w1.
Qed.

Lemma finishStep_Ok a w w' :
  finishStep a w = Ok w' →
  ∃ s, heap w !! a = Some s ∧ created s = false
    ∧ heap w' = <[a := set_created true s]> (heap w)
    ∧ newRunnable w' = (if decide (deps s = ∅) then {[a]} ∪ newRunnable w
                        else newRunnable w)
    ∧ graphOnly w w' ∧ next w' = next w ∧ steps_ w' = steps_ w.
Proof.
  unfold finishStep. destruct (heap w !! a) as [s|]; [|discriminate].
  destruct (created s) eqn:Hc; [discriminate|].
  intros [= <-]. exists s. split; [done|]. split; [done|].
  case_decide; simpl; repeat split; done.
Qed.

End CreateStepCases.

(** ** [createStep] only extends the Step Graph *)

Lemma graphOnly_refl w : graphOnly w w.
Proof. by destruct w. Qed.

Lemma graphOnly_trans w1 w2 w3 :
  graphOnly w1 w2 → graphOnly w2 w3 → graphOnly w1 w3.
Proof. unfold graphOnly. intros H1 H2. rewrite H2, H1. reflexivity. Qed.

Lemma stepGrows_refl s : stepGrows s s.
Proof. by repeat split. Qed.

Lemma stepGrows_trans s1 s2 s3 :
  stepGrows s1 s2 → stepGrows s2 s3 → stepGrows s1 s3.
Proof.
  intros (Hp1 & Hb1 & Hc1) (Hp2 & Hb2 & Hc2). split; [congruence|].
  split; [by etrans|]. congruence.
Qed.

Lemma stepGrows_addReferrers rb rs s : stepGrows s (addReferrers rb rs s).
Proof.
  unfold addReferrers. destruct rb, rs; simpl; repeat split; simpl;
    try done; by apply prefix_app_r.
Qed.

Lemma extends_refl x w : extends x w x w.
Proof.
  split; [apply graphOnly_refl|]. repeat split; try done; try lia; eauto.
  intros i s _ Hs. exists s. split; [done | apply stepGrows_refl].
Qed.

Lemma extends_stepsFresh x w x' w' :
  extends x w x' w' → stepsFresh w → stepsFresh w'.
Proof.
  intros (_ & N & _ & _ & _ & _ & _ & _ & _ & _ & SF) Hf q a Hq.
  destruct (SF q a Hq) as [Hold|?]; [|lia]. apply Hf in Hold. lia.
Qed.

Lemma extends_trans x1 w1 x2 w2 x3 w3 :
  extends x1 w1 x2 w2 → extends x2 w2 x3 w3 → extends x1 w1 x3 w3.
Proof.
  intros (G1 & N1 & F1 & S1 & R1 & SN1 & RN1 & HN1 & HG1 & M1 & SF1)
         (G2 & N2 & F2 & S2 & R2 & SN2 & RN2 & HN2 & HG2 & M2 & SF2).
  split; [by eapply graphOnly_trans|]. split; [lia|].
  split; [by etrans|]. split; [by etrans|]. split; [by etrans|].
  split. { intros i Hi. destruct (SN2 i Hi) as [Hi'|?]; [|right; lia].
           destruct (SN1 i Hi') as [?|?]; [by left | right; lia]. }
  split. { intros i Hi. destruct (RN2 i Hi) as [Hi'|?]; [|right; lia].
           destruct (RN1 i Hi') as [?|?]; [by left | right; lia]. }
  split. { intros i Hi. destruct (HN2 i Hi) as [Hi'|?]; [|right; lia].
           destruct (HN1 i Hi') as [?|?]; [by left | right; lia]. }
  split. { intros i s Hi Hs. destruct (HG1 i s Hi Hs) as (s2 & Hs2 & G12).
           destruct (HG2 i s2 ltac:(lia) Hs2) as (s3 & Hs3 & G23).
           exists s3. split; [done | by eapply stepGrows_trans]. }
  split; [eauto|].
  intros p a Hp. destruct (SF2 p a Hp) as [Hp'|?]; [|right; lia].
  destruct (SF1 p a Hp') as [?|?]; [by left | right; lia].
Qed.

Lemma lockStep_Some w p a s :
  lockStep w p = Some (a, s) ↔ steps_ w !! p = Some a ∧ heap w !! a = Some s.
Proof.
  unfold lockStep. destruct (steps_ w !! p) as [a'|] eqn:H1; simpl.
  - destruct (heap w !! a') as [s'|] eqn:H2; simpl.
    + split; [intros [= <- <-]; done | intros [[= <-] H]; congruence].
    + split; [discriminate | intros [[= <-] H]; congruence].
  - split; [discriminate | intros [? _]; discriminate].
Qed.

Lemma lockStep_None w p :
  lockStep w p = None ↔
  steps_ w !! p = None ∨ ∃ a, steps_ w !! p = Some a ∧ heap w !! a = None.
Proof.
  unfold lockStep. destruct (steps_ w !! p) as [a'|] eqn:H1; simpl.
  - destruct (heap w !! a') as [s'|] eqn:H2; simpl.
    + split; [discriminate|]. intros [?|(a & [= <-] & ?)]; congruence.
    + split; [|done]. intros _. right. by exists a'.
  - split; [by left | done].
Qed.

Section CreateStepExtends.
Context (E : Env).

Lemma insert_lookup_or (m : gmap string nat) p a q c (n n' : nat) :
  <[p := a]> m !! q = Some c → (a = c → m !! q = Some c ∨ n ≤ c < n') →
  m !! q = Some c ∨ n ≤ c < n'.
Proof.
  intros Hq Ha. destruct (decide (q = p)) as [->|Hne].
  - rewrite lookup_insert_eq in Hq. injection Hq as <-. by apply Ha.
  - rewrite lookup_insert_ne in Hq by done. by left.
Qed.

Lemma insert_lookup_is_Some (m : gmap string nat) p a q :
  is_Some (m !! q) → is_Some (<[p := a]> m !! q).
Proof.
  intros Hq. destruct (decide (q = p)) as [->|Hne].
  - rewrite lookup_insert_eq. eauto.
  - by rewrite lookup_insert_ne.
Qed.

Lemma extends_linkFound p rb rs a s x w :
  lockStep w p = Some (a, s) → extends x w x (linkFound p rb rs a s w).
Proof.
  intros [Hp Hs]%lockStep_Some. split; [done|]. simpl.
  split; [lia|]. split; [done|]. split; [done|]. split; [done|].
  split; [by left|]. split; [by left|].
  split. { intros i [s' Hi]. destruct (decide (i = a)) as [->|Hne].
           - left; eauto.
           - rewrite lookup_insert_ne in Hi by done. left; eauto. }
  split. { intros i s0 _ Hi. destruct (decide (i = a)) as [->|Hne].
           - rewrite lookup_insert_eq. eexists; split; [done|].
             assert (s0 = s) as -> by congruence.
             apply stepGrows_addReferrers.
           - rewrite lookup_insert_ne by done. exists s0.
             split; [done | apply stepGrows_refl]. }
  split; [intros q; apply insert_lookup_is_Some|].
  intros q c Hq. eapply insert_lookup_or; [exact Hq|].
  intros <-. left. destruct (decide (q = p)) as [->|Hne]; [done|].
  by rewrite lookup_insert_ne in Hq.
Qed.

Lemma extends_allocStep p rb rs d x w :
  extends x w {| finishedDrvs := finishedDrvs x;
                 newSteps := {[next w]} ∪ newSteps x |}
    (allocStep E p rb rs d w).
Proof.
  split; [done|]. simpl.
  split; [lia|]. split; [done|]. split; [set_solver|]. split; [done|].
  split. { intros i Hi. apply elem_of_union in Hi as [Hi|Hi]; [|by left].
           apply elem_of_singleton in Hi as ->. right; lia. }
  split; [by left|].
  split. { intros i Hi. destruct (decide (i = next w)) as [->|Hne];
             [right; lia|]. rewrite lookup_insert_ne in Hi by done. by left. }
  split. { intros i s Hi Hs. rewrite lookup_insert_ne by lia. exists s.
           split; [done | apply stepGrows_refl]. }
  split; [intros q; apply insert_lookup_is_Some|].
  intros q c Hq. eapply insert_lookup_or; [exact Hq|]. intros <-. right. lia.
Qed.

Lemma extends_addDep a d x w : extends x w x (addDep a d w).
Proof.
  split; [done|]. simpl.
  split; [lia|]. split; [done|]. split; [done|]. split; [done|].
  split; [by left|]. split; [by left|].
  split. { intros i Hi. apply lookup_alter_is_Some in Hi. by left. }
  split; [|split; [done | by left]].
  intros i s _ Hs. destruct (decide (i = a)) as [->|Hne].
  - rewrite lookup_alter_eq, Hs. simpl. eexists; split; [done|].
    by repeat split.
  - rewrite lookup_alter_ne by done. exists s.
    split; [done | apply stepGrows_refl].
Qed.

Lemma extends_valid p rb rs d x w :
  extends x w
    {| finishedDrvs := {[p]} ∪ finishedDrvs x; newSteps := newSteps x |}
    (set_heap (delete (next w) (heap (allocStep E p rb rs d w)))
       (allocStep E p rb rs d w)).
Proof.
  split; [done|]. simpl. rewrite delete_insert_eq.
  split; [lia|]. split; [set_solver|]. split; [done|]. split; [done|].
  split; [by left|]. split; [by left|].
  split. { intros i [s Hi]. apply lookup_delete_Some in Hi as [_ Hi].
           left; eauto. }
  split. { intros i s Hi Hs. exists s. rewrite lookup_delete_ne by lia.
           split; [done | apply stepGrows_refl]. }
  split; [intros q; apply insert_lookup_is_Some|].
  intros q c Hq. eapply insert_lookup_or; [exact Hq|]. intros <-. right. lia.
Qed.

Lemma extends_finishStep x w x2 w3 w' :
  extends x w x2 w3 → next w < next w3 →
  finishStep (next w) w3 = Ok w' → extends x w x2 w'.
Proof.
  intros (G & N & F & S & R & SN & RN & HN & HG & M & SF) Hlt H.
  apply finishStep_Ok in H as (s & Hs & Hc & Hh & Hr & Hg & Hn & Hst).
  split; [by eapply graphOnly_trans|]. rewrite Hn, Hh, Hst, Hr.
  split; [lia|]. split; [done|]. split; [done|].
  split; [case_decide; set_solver|].
  split; [done|].
  split. { intros i Hi. case_decide; [|by apply RN].
           apply elem_of_union in Hi as [Hi|Hi]; [|by apply RN].
           apply elem_of_singleton in Hi as ->. right; lia. }
  split. { intros i Hi. destruct (decide (i = next w)) as [->|Hne];
             [right; lia|]. rewrite lookup_insert_ne in Hi by done. auto. }
  split; [|done].
  intros i s0 Hi Hs0. rewrite lookup_insert_ne by lia. auto.
Qed.

Lemma createDeps_extends rec a :
  (∀ p rb rs x w r x' w',
     rec p rb rs x w = Ok (r, x', w') → extends x w x' w') →
  ∀ inputs x w x' w',
    createDeps rec a inputs x w = Ok (x', w') → extends x w x' w'.
Proof.
  intros Hrec. induction inputs as [|i rest IH]; intros x w x' w' H.
  - injection H as <- <-. apply extends_refl.
  - apply createDeps_Ok_inv in H as (dep & x1 & w1 & H1 & H2).
    apply Hrec in H1. apply IH in H2.
    eapply extends_trans; [exact H1|].
    eapply extends_trans; [|exact H2].
    destruct dep; [apply extends_addDep | apply extends_refl].
Qed.

Lemma createStep_extends fuel p rb rs x w r x' w' :
  createStep E fuel p rb rs x w = Ok (r, x', w') → extends x w x' w'.
Proof.
  revert p rb rs x w r x' w'.
  induction fuel as [|fuel IH]; intros p rb rs x w r x' w' H; [discriminate|].
  apply createStep_Ok_inv in H
    as [(_ & _ & -> & ->)
       |[(_ & a & s & Hl & _ & _ & -> & ->)
        |(_ & _ & d & _ & [(_ & _ & -> & ->)
                           |(_ & x2 & w3 & Hd & Hf & _ & ->)])]].
  - apply extends_refl.
  - by apply extends_linkFound.
  - apply extends_valid.
  - apply (createDeps_extends _ _ IH) in Hd.
    pose proof (extends_allocStep p rb rs d x w) as Ha.
    pose proof (extends_trans _ _ _ _ _ _ Ha Hd) as H13.
    eapply extends_finishStep; [exact H13| |exact Hf].
    destruct Hd as (_ & N & _). simpl in N. lia.
Qed.

End CreateStepExtends.

(** ** Case analysis of [createBuild] *)

Lemma heapOnly_refl w : heapOnly w w.
Proof. by destruct w. Qed.

Lemma heapOnly_trans w1 w2 w3 :
  heapOnly w1 w2 → heapOnly w2 w3 → heapOnly w1 w3.
Proof. unfold heapOnly. intros H1 H2. rewrite H2, H1. reflexivity. Qed.

Lemma empty_union_option_None :
  (∅ : gset nat) ∪ option_to_set None = ∅.
Proof. set_solver. Qed.

Section CreateBuildCases.
Context (E : Env).

Lemma createStep_None_newSteps fuel p rb rs x w x' w' :
  createStep E fuel p rb rs x w = Ok (None, x', w') →
  newSteps x' = newSteps x.
Proof.
  intros H. destruct fuel as [|fuel]; [discriminate|].
  apply createStep_Ok_inv in H
    as [(_ & _ & -> & _)
       |[(_ & a & s & _ & _ & [=] & _)
        |(_ & _ & d & _ & [(_ & _ & -> & _)|(_ & x2 & w3 & _ & _ & [=] & _)])]];
    done.
Qed.

Lemma leave_nothing held x w :
  newSteps x = ∅ → leave held x None w = w.
Proof.
  intros Hx. unfold leave. rewrite Hx, empty_union_option_None, dropRefs_empty.
  by destruct w.
Qed.

Lemma leave_heapOnly held x step w : heapOnly w (leave held x step w).
Proof. reflexivity. Qed.

Lemma propagatePriorities_Ok b w w' :
  propagatePriorities E b w = Ok w' →
  ∃ t, toplevel b = Some t
    ∧ w' = set_heap (visitDependencies E (raisePriorities b) t (heap w)) w.
Proof.
  unfold propagatePriorities. destruct (toplevel b) as [t|]; [|discriminate].
  intros [= <-]. by exists t.
Qed.

Lemma propagatePriorities_heapOnly b w w' :
  propagatePriorities E b w = Ok w' → heapOnly w w'.
Proof. intros H. apply propagatePriorities_Ok in H as (t & _ & ->). done. Qed.

(** The finalization of a build whose derivation was collected. *)
Lemma createBuild_invalid depth fuel held b w :
  isValidPath E (build_drvPath b) = false →
  createBuild E depth (S fuel) held b w =
    if finishedInDB b then Ok (b, enter b w)
    else Ok (set_finishedInDB true b,
             set_nrBuildsDone (nrBuildsDone w + 1)%N
               (set_db (updateBuilds (build_id b)
                          (abortedRow (time E (clock w))) (db w))
                  (set_clock (S (clock w)) (enter b w)))).
Proof.
  intros Hv. cbn [createBuild]. rewrite Hv. simpl.
  destruct (finishedInDB b); reflexivity.
Qed.

(** The three ways out of [createBuild] for a build whose derivation is in
    the store. *)
Lemma createBuild_valid_inv depth fuel held b w b' w' :
  isValidPath E (build_drvPath b) = true →
  createBuild E depth (S fuel) held b w = Ok (b', w') →
  ∃ step x w1 w2,
    createStep E depth (build_drvPath b) (Some (build_id b)) None
      emptyExpansion (enter b w) = Ok (step, x, w1)
    ∧ loadNested
        (createBuild E depth fuel (held ∪ newSteps x ∪ option_to_set step))
        (order E (elements (newSteps x))) w1 = Ok w2
    ∧ match step with
      | None =>
          is_Some (readDerivation E (build_drvPath b))
          ∧ b' = set_finishedInDB true b
          ∧ w' = leave held x step
                   (set_db (markSucceededBuild b true (time E (clock w2))
                              (time E (clock w2)) (db w2))
                      (set_clock (S (clock w2)) w2))
      | Some a =>
          ∃ bad b2 w3,
            checkSteps E b a (order E (elements (newSteps x))) w2
              = Ok (bad, b2, w3)
            ∧ if (bad : bool) then b' = b2 ∧ w' = leave held x step w3
              else
                b' = set_toplevel (Some a) b2
                ∧ ∃ w4,
                    propagatePriorities E b'
                      (if finishedInDB b2 then w3
                       else set_builds (<[build_id b2 := b']> (builds_ w3)) w3)
                    = Ok w4
                    ∧ w' = leave held x step w4
      end.
Proof.
  intros Hv H. cbn [createBuild] in H. rewrite Hv in H. cbn [negb] in H.
  apply bind_Ok in H as ([[step x] w1] & Hstep & H).
  apply bind_Ok in H as (w2 & Hnest & H).
  exists step, x, w1, w2. split; [exact Hstep|]. split; [exact Hnest|].
  destruct step as [a|].
  - apply bind_Ok in H as ([[bad b2] w3] & Hcheck & H).
    exists bad, b2, w3. split; [exact Hcheck|].
    destruct bad.
    + by injection H as <- <-.
    + apply bind_Ok in H as (w4 & Hprop & [= <- <-]).
      split; [done|]. by exists w4.
  - apply bind_Ok in H as (d & Hd & H). apply from_option_Ok in Hd.
    injection H as <- <-. by rewrite Hd.
Qed.

End CreateBuildCases.

(** ** The loop that looks for a bad step *)

Section CheckSteps.
Context (E : Env).

Lemma classifyStep_good step r s :
  goodStep E s → (classifyStep E step r s).1 = bsSuccess.
Proof. intros [Hc Hm]. unfold classifyStep. rewrite Hc. simpl. by rewrite Hm. Qed.

Lemma classifyStep_bad step r s :
  ¬ goodStep E s →
  classifyStep E step r s = badStatus E step r s
  ∧ (badStatus E step r s).1 ≠ bsSuccess.
Proof.
  intros Hbad. unfold classifyStep, badStatus, goodStep in *.
  destruct (checkCachedFailure E s); simpl.
  - destruct (decide (step = r)); simpl; by split.
  - destruct (existsb _ _); [by destruct Hbad | by split].
Qed.

Lemma classifyStep_success step r s :
  (classifyStep E step r s).1 = bsSuccess → goodStep E s.
Proof.
  intros H. destruct (decide (goodStep E s)) as [|Hbad]; [done|].
  destruct (classifyStep_bad step r s Hbad) as [Heq Hne]. by rewrite Heq in H.
Qed.

Lemma checkSteps_good b step l w :
  (∀ r, r ∈ l → ∃ s, heap w !! r = Some s ∧ goodStep E s) →
  checkSteps E b step l w = Ok (false, b, w).
Proof.
  induction l as [|r l IH]; intros Hl; [done|].
  cbn [checkSteps]. destruct (Hl r) as (s & -> & Hg); [by left|].
  pose proof (classifyStep_good step r s Hg) as Hc.
  destruct (classifyStep E step r s) as [status stepStatus]. simpl in Hc.
  rewrite decide_True by done. apply IH. intros r' Hr'. apply Hl. by right.
Qed.

Lemma checkSteps_bad b step pre r post s w :
  (∀ r', r' ∈ pre → ∃ s', heap w !! r' = Some s' ∧ goodStep E s') →
  heap w !! r = Some s → ¬ goodStep E s →
  checkSteps E b step (pre ++ r :: post) w =
    if finishedInDB b then Ok (true, b, set_clock (S (clock w)) w)
    else Ok (true, set_finishedInDB true b,
             failBuild E b s (badStatus E step r s).1
               (badStatus E step r s).2 w).
Proof.
  induction pre as [|r0 pre IH]; intros Hpre Hs Hbad.
  - cbn [app checkSteps]. rewrite Hs.
    destruct (classifyStep_bad step r s Hbad) as [-> Hne].
    destruct (badStatus E step r s) as [status stepStatus]. simpl in Hne.
    rewrite decide_False by done. cbn [time0].
    destruct (finishedInDB b); reflexivity.
  - cbn [app checkSteps]. destruct (Hpre r0) as (s0 & -> & Hg); [by left|].
    pose proof (classifyStep_good step r0 s0 Hg) as Hc.
    destruct (classifyStep E step r0 s0) as [status stepStatus]. simpl in Hc.
    rewrite decide_True by done. apply IH; [|done..].
    intros r' Hr'. apply Hpre. by right.
Qed.

(** What a run of the loop that returns tells. *)
Lemma checkSteps_Ok b step l w bad b2 w3 :
  checkSteps E b step l w = Ok (bad, b2, w3) →
  if bad then
    ∃ pre r post s,
      l = pre ++ r :: post
      ∧ (∀ r', r' ∈ pre → ∃ s', heap w !! r' = Some s' ∧ goodStep E s')
      ∧ heap w !! r = Some s ∧ ¬ goodStep E s
      ∧ (if finishedInDB b then b2 = b ∧ w3 = set_clock (S (clock w)) w
         else b2 = set_finishedInDB true b
              ∧ w3 = failBuild E b s (badStatus E step r s).1
                       (badStatus E step r s).2 w)
  else
    b2 = b ∧ w3 = w
    ∧ ∀ r, r ∈ l → ∃ s, heap w !! r = Some s ∧ goodStep E s.
Proof.
  induction l as [|r l IH]; intros H.
  - cbn [checkSteps] in H. injection H as <- <- <-. cbn iota.
    split; [done|]. split; [done|].
    intros r Hr. by apply elem_of_nil in Hr.
  - cbn [checkSteps] in H. destruct (heap w !! r) as [s|] eqn:Hs; [|done].
    destruct (decide (goodStep E s)) as [Hg|Hbad].
    + pose proof (classifyStep_good step r s Hg) as Hc.
      destruct (classifyStep E step r s) as [status stepStatus]. simpl in Hc.
      rewrite decide_True in H by done. apply IH in H. destruct bad.
      * destruct H as (pre & r1 & post & s1 & -> & Hpre & H).
        exists (r :: pre), r1, post, s1. split; [done|]. split; [|done].
        intros r' Hr'. apply elem_of_cons in Hr' as [->|Hr']; eauto.
      * destruct H as (-> & -> & Hl). cbn iota. split; [done|]. split; [done|].
        intros r' Hr'. apply elem_of_cons in Hr' as [->|Hr']; eauto.
    + assert (checkSteps E b step ([] ++ r :: l) w = Ok (bad, b2, w3)) as H'.
      { cbn [app checkSteps]. by rewrite Hs. }
      rewrite (checkSteps_bad b step [] r l s w) in H'; [|by intros ? ?%elem_of_nil|done..].
      destruct (finishedInDB b) eqn:Hf; injection H' as <- <- <-; cbn iota;
        exists [], r, l, s; (split; [done|]);
        (split; [by intros ? ?%elem_of_nil|]); rewrite ?Hf; done.
Qed.

End CheckSteps.

(** ** Bookkeeping of the loader: every loaded build is counted once *)

Lemma sameLoader_refl w : sameLoader w w.
Proof. by repeat split. Qed.

Lemma sameLoader_trans w1 w2 w3 :
  sameLoader w1 w2 → sameLoader w2 w3 → sameLoader w1 w3.
Proof.
  intros (A1 & B1 & C1 & D1 & E1) (A2 & B2 & C2 & D2 & E2).
  repeat split; congruence.
Qed.

Lemma graphOnly_sameLoader w w' : graphOnly w w' → sameLoader w w'.
Proof. intros ->. by repeat split. Qed.

Lemma heapOnly_sameLoader w w' : heapOnly w w' → sameLoader w w'.
Proof. intros ->. by repeat split. Qed.

Lemma loads_refl w : keysOk w → loads w w.
Proof. intros Hk. by repeat split. Qed.

Lemma loads_trans w1 w2 w3 : loads w1 w2 → loads w2 w3 → loads w1 w3.
Proof.
  intros (K1 & S1 & C1 & R1 & P1 & N1) (K2 & S2 & C2 & R2 & P2 & N2).
  split; [done|]. split; [by etrans|]. split; [congruence|].
  split; [|split; congruence].
  intros i Hi. rewrite R2, R1; [done..|].
  by eapply lookup_weaken_None.
Qed.

Lemma loads_same w1 w2 w3 : loads w1 w2 → sameLoader w2 w3 → loads w1 w3.
Proof.
  intros (K1 & S1 & C1 & R1 & P1 & N1) (A & B & C & D & F).
  unfold loads, keysOk. rewrite A, B, C, D, F. by repeat split.
Qed.

Lemma wrap32_small n : (n < 2 ^ 32)%N → wrap32 n = n.
Proof. intros H. unfold wrap32. by apply N.mod_small. Qed.

Lemma loads_enter b w :
  keysOk w → is_Some (newBuildsByID w !! build_id b) →
  (nrAdded w + N.of_nat (size (newBuildsByID w)) < 2 ^ 32)%N →
  loads w (enter b w) ∧ newBuildsByID (enter b w) !! build_id b = None.
Proof.
  intros Hk Hb Hlt. unfold enter, loads, keysOk. simpl.
  assert (size (newBuildsByID w) ≠ 0) as Hsz.
  { by apply map_size_ne_0_lookup_2 in Hb. }
  rewrite wrap32_small by lia. rewrite map_size_delete_Some by done.
  split; [|apply lookup_delete_eq].
  split. { intros i b0 Hi. apply lookup_delete_Some in Hi as [_ Hi]. eauto. }
  split; [apply delete_subseteq|]. split; [lia|]. done.
Qed.

Section Loads.
Context (E : Env).

Lemma checkSteps_sameLoader b step l w bad b2 w3 :
  checkSteps E b step l w = Ok (bad, b2, w3) →
  sameLoader w w3 ∧ build_id b2 = build_id b
  ∧ (bad = false → b2 = b).
Proof.
  intros H. apply checkSteps_Ok in H. destruct bad.
  - destruct H as (pre & r & post & s & _ & _ & _ & _ & H).
    destruct (finishedInDB b); destruct H as [-> ->]; by repeat split.
  - destruct H as (-> & -> & _). by repeat split.
Qed.

Lemma loadNested_loads (rec : Build → World → result (Build * World)) :
  (∀ b w b' w',
     keysOk w → is_Some (newBuildsByID w !! build_id b) →
     (nrAdded w + N.of_nat (size (newBuildsByID w)) < 2 ^ 32)%N →
     rec b w = Ok (b', w') → loads w w') →
  ∀ l w w',
    keysOk w →
    (nrAdded w + N.of_nat (size (newBuildsByID w)) < 2 ^ 32)%N →
    loadNested rec l w = Ok w' → loads w w'.
Proof.
  intros Hrec. induction l as [|r l IH]; intros w w' Hk Hlt H.
  - injection H as <-. by apply loads_refl.
  - cbn [loadNested] in H. destruct (heap w !! r) as [s|]; [|done].
    destruct (findByPath (drvPath s) (newBuildsByPath w)) as [i|]; [|eauto].
    destruct (newBuildsByID w !! i) as [b|] eqn:Hb; [|eauto].
    apply bind_Ok in H as ([b' w1] & Hr & H).
    pose proof (Hk i b Hb) as Hid.
    apply Hrec in Hr; [|done|by rewrite Hid, Hb|done].
    eapply loads_trans; [exact Hr|].
    destruct Hr as (K1 & _ & C1 & _). apply IH; [done| |done].
    by rewrite C1.
Qed.

Lemma createBuild_loads depth fuel held b w b' w' :
  keysOk w → is_Some (newBuildsByID w !! build_id b) →
  (nrAdded w + N.of_nat (size (newBuildsByID w)) < 2 ^ 32)%N →
  createBuild E depth fuel held b w = Ok (b', w') →
  loads w w' ∧ newBuildsByID w' !! build_id b = None.
Proof.
  revert held b w b' w'.
  induction fuel as [|fuel IH]; intros held b w b' w' Hk Hb Hlt H;
    [discriminate|].
  destruct (loads_enter b w Hk Hb Hlt) as [Hent Hgone].
  assert (∀ w1, sameLoader (enter b w) w1 →
            loads w w1 ∧ newBuildsByID w1 !! build_id b = None) as Hsame.
  { intros w1 Hs. split; [by eapply loads_same|].
    destruct Hs as (-> & _). done. }
  assert (∀ w1, loads (enter b w) w1 →
            loads w w1 ∧ newBuildsByID w1 !! build_id b = None) as Hloads.
  { intros w1 Hl. split; [by eapply loads_trans|].
    destruct Hl as (_ & Hsub & _). by eapply lookup_weaken_None. }
  destruct (isValidPath E (build_drvPath b)) eqn:Hv.
  - apply createBuild_valid_inv in H
      as (step & x & w1 & w2 & Hs & Hn & H); [|done].
    apply createStep_extends in Hs as (Hg%graphOnly_sameLoader & _).
    assert (loads (enter b w) w1) as H01.
    { eapply loads_same; [|exact Hg]. apply loads_refl. by destruct Hent. }
    assert (loads w1 w2) as H12.
    { apply (loadNested_loads _ (λ b0 w0 b0' w0' K B L R,
                proj1 (IH _ b0 w0 b0' w0' K B L R))) in Hn;
        [done|by destruct H01|].
      destruct H01 as (_ & _ & -> & _). destruct Hent as (_ & _ & -> & _).
      done. }
    pose proof (loads_trans _ _ _ H01 H12) as H02.
    destruct step as [a|].
    + destruct H as (bad & b2 & w3 & Hc & H).
      apply checkSteps_sameLoader in Hc as (H23 & Hid & Hb2).
      destruct bad.
      * destruct H as [-> ->]. apply Hloads.
        eapply loads_same; [exact H02|].
        eapply sameLoader_trans; [exact H23|].
        apply heapOnly_sameLoader, leave_heapOnly.
      * destruct H as (-> & w4 & Hp & ->). rewrite (Hb2 eq_refl) in *.
        apply propagatePriorities_heapOnly in Hp.
        assert (sameLoader
                  (if finishedInDB b then w3
                   else set_builds (<[build_id b := set_toplevel (Some a) b]>
                                      (builds_ w3)) w3)
                  (leave held x (Some a) w4)) as H45.
        { eapply sameLoader_trans; [by apply heapOnly_sameLoader|].
          apply heapOnly_sameLoader, leave_heapOnly. }
        destruct (finishedInDB b).
        -- apply Hloads. eapply loads_same; [exact H02|].
           by eapply sameLoader_trans.
        -- pose proof (loads_same _ _ _ H02 H23) as H03.
           destruct (Hloads _ H03) as [Hw3 Hg3].
           destruct H45 as (A & B & C & D & F). simpl in *.
           split; [|congruence].
           destruct Hw3 as (K3 & S3 & C3 & R3 & P3 & N3).
           unfold loads, keysOk, leave.
           cbn [newBuildsByID nrAdded builds_ newBuildsByPath nrBuildsRead
                set_heap].
           rewrite A, B, C, D, F.
           split; [done|]. split; [done|]. split; [done|].
           split; [|done]. intros i Hi.
           rewrite lookup_insert_ne; [by apply R3|].
           intros <-. destruct Hb as [? Hb]. congruence.
    + destruct H as (_ & -> & ->). apply Hloads.
      eapply loads_same; [exact H02|].
      eapply sameLoader_trans; [|apply heapOnly_sameLoader, leave_heapOnly].
      by repeat split.
  - rewrite (createBuild_invalid E depth fuel held b w Hv) in H.
    destruct (finishedInDB b); injection H as <- <-; apply Hsame;
      by repeat split.
Qed.

End Loads.

(** * Properties of the queue monitor *)

(** ** New steps: created, and runnable when without dependencies *)

Section NewSteps.
Context (E : Env).

(** C5. Whenever [createStep] returns a step, the step is created. When
    the step is new (no live Step was registered for the path), it gets
    the next identity, and it was put into [newRunnable] if and only if
    its [deps] is empty when [createStep] returns, that is, if and only
    if it is runnable. *)
Theorem createStep_created_and_runnable fuel p rb rs x w a x' w' :
  (∀ i, i ∈ newRunnable w → i < next w) →
  createStep E fuel p rb rs x w = Ok (Some a, x', w') →
  ∃ s, heap w' !! a = Some s ∧ created s = true
    ∧ (lockStep w p = None →
         a = next w
         ∧ (a ∈ newRunnable w' ↔ deps s = ∅)
         ∧ (a ∈ newRunnable w' ↔ runnableStep s)).
Proof.
  intros Hrun H. destruct fuel as [|fuel]; [discriminate|].
  apply createStep_Ok_inv in H
    as [(_ & [=] & _)
       |[(_ & a' & s & Hl & Hc & [= <-] & -> & ->)
        |(_ & Hl & d & _ & [(_ & [=] & _)
                           |(_ & x2 & w3 & Hd & Hf & [= ->] & ->)])]].
  - exists (addReferrers rb rs s). simpl. rewrite lookup_insert_eq.
    split; [done|]. split.
    + destruct (stepGrows_addReferrers rb rs s) as (_ & _ & Hcr). congruence.
    + intros Hn. congruence.
  - apply (createDeps_extends _ _ (createStep_extends E fuel)) in Hd
      as (_ & _ & _ & _ & _ & _ & RN & _). simpl in RN.
    apply finishStep_Ok in Hf as (s & Hs & Hc & Hh & Hr & _).
    exists (set_created true s). rewrite Hh, lookup_insert_eq.
    split; [done|]. split; [done|]. intros _. split; [done|].
    assert (next w ∉ newRunnable w3) as Hnot.
    { intros Hin. destruct (RN _ Hin) as [Hold|?]; [|lia].
      apply Hrun in Hold. lia. }
    assert (next w ∈ newRunnable w' ↔ deps s = ∅) as Hiff.
    { rewrite Hr. case_decide; set_solver. }
    split; [exact Hiff|]. rewrite Hiff. unfold runnableStep. simpl. tauto.
Qed.

End NewSteps.

(** On the example store, the expansion of [a] from the empty graph. *)
Lemma createStep_created_and_runnable_witness :
  (∀ i, i ∈ newRunnable initialWorld → i < next initialWorld)
  ∧ ∃ x' w',
      createStep exampleEnv 5 "/d/a.drv" (Some 1%N) None emptyExpansion
        initialWorld = Ok (Some 0, x', w')
      ∧ ∃ s, heap w' !! 0 = Some s ∧ created s = true
          ∧ (lockStep initialWorld "/d/a.drv" = None →
               0 = next initialWorld
               ∧ (0 ∈ newRunnable w' ↔ deps s = ∅)
               ∧ (0 ∈ newRunnable w' ↔ runnableStep s)).
Proof.
  assert (∀ i, i ∈ newRunnable initialWorld → i < next initialWorld) as H0.
  { intros i Hi. simpl in Hi. set_solver. }
  split; [exact H0|].
  destruct (createStep exampleEnv 5 "/d/a.drv" (Some 1%N) None emptyExpansion
              initialWorld) as [[[r x'] w']|e] eqn:Hrun;
    vm_compute in Hrun; [|discriminate].
  injection Hrun as <- <- <-.
  eexists _, _. split; [reflexivity|].
  eapply (createStep_created_and_runnable exampleEnv 5 "/d/a.drv" (Some 1%N)
            None emptyExpansion initialWorld); [exact H0|].
  vm_compute. reflexivity.
Defined.

(** ** Builds whose derivation was garbage-collected *)

Section GarbageCollected.
Context (E : Env).

(** C6. A build whose derivation path is not valid and whose
    [finishedInDB] is false is finalized in the database as [Aborted],
    with the error message of the source and [startTime = stopTime];
    [finishedInDB] is set, [nrBuildsDone] grows by one, and neither the
    Step Graph nor the registry changes. *)
Theorem createBuild_garbage_collected depth fuel held b w :
  isValidPath E (build_drvPath b) = false →
  finishedInDB b = false →
  ∃ b' w',
    createBuild E depth (S fuel) held b w = Ok (b', w')
    ∧ finishedInDB b' = true
    ∧ db w' = updateBuilds (build_id b)
                (abortedRow (time E (clock w))) (db w)
    ∧ (∀ r, db w !! build_id b = Some r → finished r = 0%Z →
         ∃ r', db w' !! build_id b = Some r'
           ∧ finished r' = 1%Z ∧ busy r' = 0%Z
           ∧ buildStatus r' = Some bsAborted
           ∧ errorMsg r'
             = Some "derivation was garbage-collected prior to build"%string
           ∧ startTime r' = Some (time E (clock w))
           ∧ stopTime r' = startTime r')
    ∧ nrBuildsDone w' = (nrBuildsDone w + 1)%N
    ∧ heap w' = heap w ∧ next w' = next w ∧ steps_ w' = steps_ w
    ∧ builds_ w' = builds_ w ∧ buildSteps w' = buildSteps w.
Proof.
  intros Hv Hf. rewrite (createBuild_invalid E depth fuel held b w Hv), Hf.
  eexists _, _. split; [reflexivity|]. simpl.
  repeat split; try reflexivity.
  intros r Hr Hfin. unfold updateBuilds. rewrite Hr.
  destruct (decide (finished r = 0%Z)) as [_|Hne]; [|done].
  rewrite lookup_insert_eq. eexists. split; [reflexivity|]. by simpl.
Qed.

End GarbageCollected.

(** Build 3 of the example: its derivation is not in the store. *)
Lemma createBuild_garbage_collected_witness :
  isValidPath exampleEnv (build_drvPath (exampleBuild 3 "/d/gone.drv" 7))
    = false
  ∧ finishedInDB (exampleBuild 3 "/d/gone.drv" 7) = false
  ∧ ∃ b' w',
      createBuild exampleEnv 5 1 ∅ (exampleBuild 3 "/d/gone.drv" 7)
        exampleWorld = Ok (b', w')
      ∧ finishedInDB b' = true
      ∧ nrBuildsDone w' = 1%N
      ∧ (buildStatus <$> db w' !! 3%N) = Some (Some bsAborted).
Proof.
  split; [reflexivity|]. split; [reflexivity|].
  destruct (createBuild_garbage_collected exampleEnv 5 0 ∅
              (exampleBuild 3 "/d/gone.drv" 7) exampleWorld
              eq_refl eq_refl)
    as (b' & w' & Hrun & Hfin & _ & Hrow & Hdone & _).
  exists b', w'. split; [exact Hrun|]. split; [exact Hfin|].
  split; [exact Hdone|].
  destruct (Hrow (exampleRow "/d/gone.drv" 7) eq_refl eq_refl)
    as (r' & Hr' & _ & _ & Hst & _).
  change (build_id (exampleBuild 3 "/d/gone.drv" 7)) with 3%N in Hr'.
  rewrite Hr'. simpl. by rewrite Hst.
Defined.

(** ** Builds whose outputs are all valid *)

Section CachedSuccess.
Context (E : Env).

Lemma createStep_fresh_valid depth p rb rs w d :
  lockStep w p = None →
  readDerivation E p = Some d →
  allValid E d = true →
  createStep E (S depth) p rb rs emptyExpansion w =
    Ok (None, {| finishedDrvs := {[p]} ∪ ∅; newSteps := ∅ |},
        set_heap (delete (next w) (heap (allocStep E p rb rs d w)))
          (allocStep E p rb rs d w)).
Proof.
  intros Hl Hd Hv. cbn [createStep]. rewrite decide_False by set_solver.
  rewrite Hl. unfold linkStep. cbn [created new_Step bool_decide].
  rewrite bool_decide_eq_false_2 by done. cbn [mbind result_bind].
  rewrite Hd. cbn [from_option mbind result_bind]. rewrite Hv.
  fold (linkFound p rb rs (next w) (new_Step p)
          (set_next (S (next w)) (set_steps (delete p (steps_ w)) w))).
  rewrite allocStep_eq. reflexivity.
Qed.

(** C4. A build whose derivation path is valid, for whose path
    no live Step is registered when the build is loaded, and all of whose
    outputs are valid: [createStep] returns nil with the path in
    [finishedDrvs]; the loader finalizes the build through
    [markSucceededBuild] with [cached = true], sets [finishedInDB] and
    returns without touching the registry. *)
Theorem createBuild_cached_success depth fuel held b w d :
  isValidPath E (build_drvPath b) = true →
  lockStep w (build_drvPath b) = None →
  readDerivation E (build_drvPath b) = Some d →
  allValid E d = true →
  ∃ x w1 b' w',
    createStep E (S depth) (build_drvPath b) (Some (build_id b)) None
      emptyExpansion (enter b w) = Ok (None, x, w1)
    ∧ build_drvPath b ∈ finishedDrvs x
    ∧ createBuild E (S depth) (S fuel) held b w = Ok (b', w')
    ∧ finishedInDB b' = true
    ∧ db w' = markSucceededBuild b true (time E (clock w))
                (time E (clock w)) (db w)
    ∧ (∀ r, db w !! build_id b = Some r → finished r = 0%Z →
         ∃ r', db w' !! build_id b = Some r'
           ∧ finished r' = 1%Z ∧ buildStatus r' = Some bsSuccess
           ∧ isCachedBuild r' = Some 1%Z)
    ∧ builds_ w' = builds_ w
    ∧ nrBuildsDone w' = nrBuildsDone w.
Proof.
  intros Hv Hl Hd Hall.
  pose proof (createStep_fresh_valid depth (build_drvPath b)
                (Some (build_id b)) None (enter b w) d Hl Hd Hall) as Hstep.
  eexists _, _, _, _. split; [exact Hstep|]. split; [set_solver|].
  cbn [createBuild]. rewrite Hv. cbn [negb].
  lazymatch goal with
  | |- context [createStep E _ _ _ _ _ ?w0] => change w0 with (enter b w)
  end.
  rewrite Hstep. cbn [mbind result_bind newSteps].
  rewrite elements_empty, order_nil. cbn [loadNested mbind result_bind].
  rewrite Hd. cbn [from_option mbind result_bind time0].
  split; [reflexivity|]. split; [reflexivity|].
  rewrite leave_nothing by done. simpl.
  split; [reflexivity|]. split; [|done].
  intros r Hr Hfin. unfold markSucceededBuild, updateBuilds. rewrite Hr.
  rewrite decide_True by done. rewrite lookup_insert_eq.
  eexists. split; [reflexivity|]. by simpl.
Qed.

End CachedSuccess.

(** Build 4 of the example: the output of [v] is in the store. *)
Lemma createBuild_cached_success_witness :
  isValidPath exampleEnv (build_drvPath (exampleBuild 4 "/d/v.drv" 7)) = true
  ∧ lockStep exampleWorld (build_drvPath (exampleBuild 4 "/d/v.drv" 7)) = None
  ∧ readDerivation exampleEnv (build_drvPath (exampleBuild 4 "/d/v.drv" 7))
    = Some (exampleDrv "/o/v" [])
  ∧ allValid exampleEnv (exampleDrv "/o/v" []) = true
  ∧ ∃ b' w',
      createBuild exampleEnv 5 1 ∅ (exampleBuild 4 "/d/v.drv" 7) exampleWorld
        = Ok (b', w')
      ∧ finishedInDB b' = true ∧ builds_ w' = ∅.
Proof.
  split; [reflexivity|]. split; [reflexivity|]. split; [reflexivity|].
  split; [reflexivity|].
  destruct (createBuild_cached_success exampleEnv 4 0 ∅
              (exampleBuild 4 "/d/v.drv" 7) exampleWorld
              (exampleDrv "/o/v" []) eq_refl eq_refl eq_refl eq_refl)
    as (x & w1 & b' & w' & _ & _ & Hrun & Hfin & _ & _ & Hreg & _).
  exists b', w'. split; [exact Hrun|]. split; [exact Hfin|]. exact Hreg.
Defined.

(** A build of [v] is admitted while the output of [v] is missing; the
    output then appears in the store, and a second build of [v] is
    queued. The second build finds the live Step of the first: it is
    admitted to the registry and its row stays unfinished, although its
    derivation path and all its outputs are valid. *)
Lemma createBuild_cached_success_counterexample :
  ∃ last1 w1 last2 w2,
    getQueuedBuilds exampleEnvBefore 5 0
      (set_db {[4%N := exampleRow "/d/v.drv" 7]} initialWorld)
      = Ok (last1, w1)
    ∧ isValidPath exampleEnv "/d/v.drv" = true
    ∧ readDerivation exampleEnv "/d/v.drv" = Some (exampleDrv "/o/v" [])
    ∧ allValid exampleEnv (exampleDrv "/o/v" []) = true
    ∧ getQueuedBuilds exampleEnv 5 last1
        (set_db (<[7%N := exampleRow "/d/v.drv" 0]> (db w1)) w1)
      = Ok (last2, w2)
    ∧ (toplevel <$> builds_ w2 !! 7%N) = Some (Some 0)
    ∧ (finished <$> db w2 !! 7%N) = Some 0%Z.
Proof.
  destruct (getQueuedBuilds exampleEnvBefore 5 0
              (set_db {[4%N := exampleRow "/d/v.drv" 7]} initialWorld))
    as [[last1 w1]|e] eqn:H1; vm_compute in H1; [|discriminate].
  injection H1 as <- <-.
  eexists _, _, _, _. split; [reflexivity|].
  split; [reflexivity|]. split; [reflexivity|]. split; [reflexivity|].
  split; [vm_compute; reflexivity|]. split; reflexivity.
Defined.

(** ** The counter [nrBuildsRead] *)

Lemma NoDup_fst_filter {A B} (P : A * B → Prop) `{∀ x, Decision (P x)}
    (l : list (A * B)) :
  NoDup l.*1 → NoDup (filter P l).*1.
Proof.
  induction l as [|[a b] l IH]; [done|]. rewrite fmap_cons, NoDup_cons.
  intros [Ha Hl]. destruct (decide (P (a, b))) as [HP|HP].
  - rewrite filter_cons_True by done. rewrite fmap_cons, NoDup_cons.
    split; [|by apply IH]. intros Hin. apply Ha.
    apply list_elem_of_fmap in Hin as ([a' b'] & -> & Hin).
    apply list_elem_of_filter in Hin as [_ Hin].
    apply list_elem_of_fmap. by exists (a', b').
  - rewrite filter_cons_False by done. by apply IH.
Qed.

Lemma queryQueue_NoDup d last : NoDup (queryQueue d last).*1.
Proof.
  unfold queryQueue. rewrite merge_sort_Permutation.
  apply NoDup_fst_filter, NoDup_fst_map_to_list.
Qed.

Lemma foldl_makeRunnable l w :
  foldl (λ w r, makeRunnable r w) w l = set_runnable (runnable w ++ l) w.
Proof.
  revert w. induction l as [|r l IH]; intros w; simpl.
  - rewrite app_nil_r. by destruct w.
  - rewrite IH. unfold makeRunnable. simpl. by rewrite <- app_assoc.
Qed.

Section Counting.
Context (E : Env).

Lemma readRows_spec rows : ∀ last ids w last' ids' w',
  NoDup rows.*1 →
  (∀ i, i ∈ rows.*1 → newBuildsByID w !! i = None) →
  keysOk w →
  (∀ i, is_Some (newBuildsByID w !! i) → i ∈ ids) →
  readRows E rows last ids w = (last', ids', w') →
  keysOk w'
  ∧ size (newBuildsByID w')
    = size (newBuildsByID w) + length (filter (accepted E (builds_ w)) rows)
  ∧ (∀ i, is_Some (newBuildsByID w' !! i) → i ∈ ids')
  ∧ w' = set_newBuildsByPath (newBuildsByPath w')
           (set_newBuildsByID (newBuildsByID w') w).
Proof.
  induction rows as [|[i r] rows IH]; intros last ids w last' ids' w'
    Hnd Hnew Hk Hids H.
  - injection H as <- <- <-. simpl. split; [done|]. split; [lia|].
    split; [done|]. by destruct w.
  - rewrite fmap_cons, NoDup_cons in Hnd. destruct Hnd as [Hi Hnd].
    cbn [readRows] in H.
    assert (∀ j, j ∈ rows.*1 → newBuildsByID w !! j = None) as Hnew'.
    { intros j Hj. apply Hnew. rewrite fmap_cons. by right. }
    destruct (bool_decide (buildOne E ≠ 0%N) && bool_decide (i ≠ buildOne E))
      eqn:Hone.
    { rewrite filter_cons_False.
      - by eapply IH.
      - intros [[H0|H1] _]; simpl in *;
          apply andb_true_iff in Hone as [?%bool_decide_eq_true
                                           ?%bool_decide_eq_true]; done. }
    destruct (decide (is_Some (builds_ w !! i))) as [Hreg|Hreg].
    { rewrite filter_cons_False.
      - by eapply IH.
      - intros [_ Hn]; simpl in *. rewrite Hn in Hreg. by destruct Hreg. }
    rewrite filter_cons_True.
    2:{ split; simpl.
        - apply andb_false_iff in Hone
            as [Hone%bool_decide_eq_false|Hone%bool_decide_eq_false].
          + left. by destruct (decide (buildOne E = 0%N)).
          + right. by destruct (decide (i = buildOne E)).
        - by apply eq_None_not_Some. }
    eapply IH in H; [| done | | |].
    + destruct H as (K & Sz & Hd & Hw). split; [done|].
      cbn [newBuildsByID set_newBuildsByPath set_newBuildsByID builds_] in Sz.
      rewrite map_size_insert_None in Sz
        by (apply Hnew; rewrite fmap_cons; by left).
      split; [simpl; lia|]. split; [done|].
      rewrite Hw at 1. reflexivity.
    + intros j Hj. simpl. rewrite lookup_insert_ne; [by apply Hnew'|].
      intros <-. done.
    + intros j b. simpl. intros Hj.
      apply lookup_insert_Some in Hj as [[<- <-]|[_ Hj]]; [done|by eapply Hk].
    + intros j. simpl. intros Hj. apply elem_of_app.
      destruct (decide (j = i)) as [->|Hne]; [right; by left|].
      rewrite lookup_insert_ne in Hj by done. left. by apply Hids.
Qed.

Lemma loadBuilds_counts depth ids : ∀ w w',
  keysOk w →
  (N.of_nat (size (newBuildsByID w)) < 2 ^ 32)%N →
  loadBuilds E depth ids w = Ok w' →
  keysOk w'
  ∧ newBuildsByID w' ⊆ newBuildsByID w
  ∧ (nrBuildsRead w' + N.of_nat (size (newBuildsByID w'))
     = nrBuildsRead w + N.of_nat (size (newBuildsByID w)))%N
  ∧ (∀ i, i ∈ ids → newBuildsByID w' !! i = None).
Proof.
  induction ids as [|i ids IH]; intros w w' Hk Hlt H.
  - injection H as <-. split; [done|]. split; [done|]. split; [done|].
    intros i Hi. by apply elem_of_nil in Hi.
  - cbn [loadBuilds] in H.
    destruct (newBuildsByID w !! i) as [b|] eqn:Hb.
    + apply bind_Ok in H as ([b' w1] & Hc & H).
      pose proof (Hk i b Hb) as Hid.
      apply createBuild_loads in Hc
        as ((K1 & S1 & C1 & R1 & P1 & N1) & Hgone).
      2:{ done. }
      2:{ simpl. by rewrite Hid, Hb. }
      2:{ simpl. lia. }
      cbn [newBuildsByID nrAdded nrBuildsRead set_nrAdded clearNewRunnable
           set_newRunnable set_heap] in *.
      rewrite foldl_makeRunnable in H.
      apply IH in H as (K2 & S2 & C2 & G2).
      * cbn [newBuildsByID nrAdded nrBuildsRead set_nrBuildsRead
             set_runnable] in *.
        split; [done|]. split; [by etrans|]. split; [lia|].
        intros j Hj. apply elem_of_cons in Hj as [->|Hj]; [|by apply G2].
        rewrite Hid in Hgone. by eapply lookup_weaken_None.
      * done.
      * cbn [newBuildsByID set_nrBuildsRead set_runnable]. lia.
    + apply IH in H as (K2 & S2 & C2 & G2); [|done..].
      split; [done|]. split; [done|]. split; [done|].
      intros j Hj. apply elem_of_cons in Hj as [->|Hj]; [|by apply G2].
      by eapply lookup_weaken_None.
Qed.

(** C9. A pass of [getQueuedBuilds] adds to [nrBuildsRead] the
    number of builds that it read from the queue and loaded: the
    unfinished builds above the watermark that pass the [buildOne] filter
    and are not in the registry, whether the loader admits them or
    finalizes them. The bound on their number is the range of [nrAdded],
    an [unsigned int]; the distinct build ids of the source, [unsigned
    int] too, stay below it. *)
Theorem getQueuedBuilds_nrBuildsRead depth last w last' w' :
  (N.of_nat (length (newBuilds E w last)) < 2 ^ 32)%N →
  getQueuedBuilds E depth last w = Ok (last', w') →
  nrBuildsRead w' = (nrBuildsRead w + N.of_nat (length (newBuilds E w last)))%N.
Proof.
  intros Hlt H. unfold getQueuedBuilds in H. fold (startPass w) in H.
  destruct (readRows E (queryQueue (db (startPass w)) last) last []
              (startPass w)) as [[last1 ids] w1] eqn:Hrows.
  apply bind_Ok in H as (w2 & Hload & [= <- <-]).
  apply readRows_spec in Hrows as (K1 & Sz & Hids & Hw1).
  2:{ apply queryQueue_NoDup. }
  2:{ intros i _. apply lookup_empty. }
  2:{ intros i b Hi. simpl in Hi. by rewrite lookup_empty in Hi. }
  2:{ intros i [b Hi]. simpl in Hi. by rewrite lookup_empty in Hi. }
  change (filter _ _) with (newBuilds E w last) in Sz.
  cbn [newBuildsByID startPass set_nrAdded set_newRunnable
       set_newBuildsByPath set_newBuildsByID] in Sz.
  rewrite map_size_empty in Sz.
  apply loadBuilds_counts in Hload as (K2 & S2 & C2 & G2); [|done|lia].
  assert (newBuildsByID w2 = ∅) as Hempty.
  { apply map_empty. intros i. destruct (newBuildsByID w2 !! i) eqn:Hi; [|done].
    assert (is_Some (newBuildsByID w1 !! i)) as Hi1.
    { eapply lookup_weaken_is_Some; [|exact S2]. by rewrite Hi. }
    apply Hids, G2 in Hi1. congruence. }
  rewrite Hempty, map_size_empty in C2.
  cbn [nrBuildsRead set_heap]. rewrite Hw1 in C2.
  cbn [nrBuildsRead newBuildsByID startPass set_nrAdded set_newRunnable
       set_newBuildsByPath set_newBuildsByID] in C2.
  lia.
Qed.

End Counting.

(** A pass over the example queue reads six builds and admits two. *)
Lemma getQueuedBuilds_nrBuildsRead_witness :
  (N.of_nat (length (newBuilds exampleEnv exampleWorld 0)) < 2 ^ 32)%N
  ∧ ∃ last' w',
      getQueuedBuilds exampleEnv 5 0 exampleWorld = Ok (last', w')
      ∧ nrBuildsRead w' = 6%N ∧ size (builds_ w') = 2.
Proof.
  assert (N.of_nat (length (newBuilds exampleEnv exampleWorld 0)) < 2 ^ 32)%N
    as Hlt by (vm_compute; reflexivity).
  split; [exact Hlt|].
  destruct (getQueuedBuilds exampleEnv 5 0 exampleWorld)
    as [[last' w']|e] eqn:Hrun; [|vm_compute in Hrun; discriminate].
  exists last', w'. split; [reflexivity|]. split.
  - rewrite (getQueuedBuilds_nrBuildsRead exampleEnv 5 0 exampleWorld
               last' w' Hlt Hrun).
    vm_compute. reflexivity.
  - vm_compute in Hrun. injection Hrun as <- <-. vm_compute. reflexivity.
Defined.

(** A pass over a queue with one build, whose derivation was
    garbage-collected: no build is admitted to the registry, and
    [nrBuildsRead] grows by one. *)
Lemma getQueuedBuilds_nrBuildsRead_counterexample :
  ∃ last' w',
    getQueuedBuilds exampleEnv 5 0
      (set_db {[3%N := exampleRow "/d/gone.drv" 7]} initialWorld)
      = Ok (last', w')
    ∧ builds_ w' = builds_ initialWorld
    ∧ nrBuildsRead w' = (nrBuildsRead initialWorld + 1)%N
    ∧ nrBuildsRead w'
      ≠ (nrBuildsRead initialWorld
         + N.of_nat (size (builds_ w') - size (builds_ initialWorld)))%N.
Proof.
  eexists _, _. split; [vm_compute; reflexivity|].
  split; [reflexivity|]. split; [reflexivity|]. vm_compute. discriminate.
Defined.

(** ** Builds with a bad step *)

Section BadStep.
Context (E : Env).

(** C2. The expansion of a build (with [finishedInDB] false) produced the
    top-level step [a] and the new steps [newSteps x]; in their iteration
    order, [r] is the first step that has a cached failure or that no
    machine supports. Then the loader finalizes the build: the status is
    [Failed] when [r] has a cached failure and is the top-level step,
    [DepFailed] when it has a cached failure and is another step, and
    [Unsupported] when it has no cached failure and no machine supports
    it; a [BuildSteps] row with the step status is written; the [Builds]
    row is finalized with [isCachedBuild = 1] exactly when the status is
    not [Unsupported]; [finishedInDB] is set, [nrBuildsDone] grows by one
    and the build does not enter the registry. *)
Theorem createBuild_bad_step depth fuel held b w a x w1 w2 pre r post s :
  isValidPath E (build_drvPath b) = true →
  finishedInDB b = false →
  createStep E depth (build_drvPath b) (Some (build_id b)) None
    emptyExpansion (enter b w) = Ok (Some a, x, w1) →
  loadNested
    (createBuild E depth fuel (held ∪ newSteps x ∪ option_to_set (Some a)))
    (order E (elements (newSteps x))) w1 = Ok w2 →
  order E (elements (newSteps x)) = pre ++ r :: post →
  (∀ r', r' ∈ pre → ∃ s', heap w2 !! r' = Some s' ∧ goodStep E s') →
  heap w2 !! r = Some s →
  ¬ goodStep E s →
  ∃ b' w' status stepStatus,
    createBuild E depth (S fuel) held b w = Ok (b', w')
    ∧ finishedInDB b' = true
    ∧ (checkCachedFailure E s = true →
         status = (if decide (a = r) then bsFailed else bsDepFailed)
         ∧ stepStatus = bssFailed)
    ∧ (checkCachedFailure E s = false →
         status = bsUnsupported ∧ stepStatus = bssUnsupported)
    ∧ buildSteps w'
      = buildSteps w2
        ++ [ {| bs_build := build_id b; bs_drvPath := drvPath s;
                bs_machine := ""; bs_status := stepStatus;
                bs_startTime := 0 |} ]
    ∧ db w' = updateBuilds (build_id b)
                (failedRow status (time E (clock w2))) (db w2)
    ∧ (∀ row, db w2 !! build_id b = Some row → finished row = 0%Z →
         ∃ row', db w' !! build_id b = Some row'
           ∧ finished row' = 1%Z ∧ busy row' = 0%Z
           ∧ buildStatus row' = Some status
           ∧ isCachedBuild row'
             = Some (if decide (status = bsUnsupported) then 0%Z else 1%Z)
           ∧ startTime row' = Some (time E (clock w2))
           ∧ stopTime row' = startTime row')
    ∧ nrBuildsDone w' = (nrBuildsDone w2 + 1)%N
    ∧ builds_ w' = builds_ w2
    ∧ (keysOk w →
       (nrAdded w + N.of_nat (size (newBuildsByID w)) < 2 ^ 32)%N →
       is_Some (newBuildsByID w !! build_id b) →
       builds_ w' !! build_id b = builds_ w !! build_id b).
Proof.
  intros Hv Hf Hstep Hnest Horder Hpre Hs Hbad.
  exists (set_finishedInDB true b),
         (leave held x (Some a)
            (failBuild E b s (badStatus E a r s).1 (badStatus E a r s).2 w2)),
         (badStatus E a r s).1, (badStatus E a r s).2.
  split.
  { cbn [createBuild]. rewrite Hv. cbn [negb].
    lazymatch goal with
    | |- context [createStep E _ _ _ _ _ ?w0] => change w0 with (enter b w)
    end.
    rewrite Hstep. cbn [mbind result_bind]. rewrite Hnest.
    cbn [mbind result_bind]. rewrite Horder.
    rewrite (checkSteps_bad E b a pre r post s w2 Hpre Hs Hbad), Hf.
    reflexivity. }
  split; [done|].
  split. { intros Hc. unfold badStatus. by rewrite Hc. }
  split. { intros Hc. unfold badStatus. by rewrite Hc. }
  split; [reflexivity|]. split; [reflexivity|].
  split.
  { intros row Hrow Hfin. simpl. unfold updateBuilds. rewrite Hrow.
    rewrite decide_True by done. rewrite lookup_insert_eq.
    eexists. split; [reflexivity|]. by simpl. }
  split; [reflexivity|]. split; [reflexivity|].
  intros Hk Hlt Hb. simpl.
  destruct (loads_enter b w Hk Hb Hlt) as [Hent Hgone].
  apply createStep_extends in Hstep as (Hg%graphOnly_sameLoader & _).
  assert (loads (enter b w) w1) as H01.
  { eapply loads_same; [|exact Hg]. apply loads_refl. by destruct Hent. }
  apply (loadNested_loads _ (λ b0 w0 b0' w0' K B L R,
           proj1 (createBuild_loads E depth fuel _ b0 w0 b0' w0' K B L R)))
    in Hnest.
  - destruct Hnest as (_ & _ & _ & R12 & _). rewrite R12.
    + destruct Hg as (_ & _ & -> & _). done.
    + destruct Hg as (-> & _). exact Hgone.
  - by destruct H01.
  - destruct H01 as (_ & _ & -> & _). destruct Hent as (_ & _ & -> & _). done.
Qed.

End BadStep.

(** Build 2 of the example: its top-level step has a cached failure. *)
Lemma createBuild_bad_step_witness :
  ∃ x w1,
    isValidPath exampleEnv (build_drvPath (exampleBuild 2 "/d/c.drv" 7)) = true
    ∧ finishedInDB (exampleBuild 2 "/d/c.drv" 7) = false
    ∧ createStep exampleEnv 5 "/d/c.drv" (Some 2%N) None emptyExpansion
        (enter (exampleBuild 2 "/d/c.drv" 7) exampleWorld)
      = Ok (Some 0, x, w1)
    ∧ order exampleEnv (elements (newSteps x)) = [1] ++ 0 :: []
    ∧ ∃ b' w',
        createBuild exampleEnv 5 1 ∅ (exampleBuild 2 "/d/c.drv" 7)
          exampleWorld = Ok (b', w')
        ∧ finishedInDB b' = true
        ∧ (buildStatus <$> db w' !! 2%N) = Some (Some bsFailed)
        ∧ (isCachedBuild <$> db w' !! 2%N) = Some (Some 1%Z)
        ∧ builds_ w' = ∅.
Proof.
  destruct (createStep exampleEnv 5 "/d/c.drv" (Some 2%N) None emptyExpansion
              (enter (exampleBuild 2 "/d/c.drv" 7) exampleWorld))
    as [[[step x] w1]|e] eqn:Hstep; [|vm_compute in Hstep; discriminate].
  assert (step = Some 0) as ->.
  { vm_compute in Hstep. by injection Hstep as <- _ _. }
  exists x, w1.
  assert (order exampleEnv (elements (newSteps x)) = [1] ++ 0 :: [])
    as Horder.
  { vm_compute in Hstep. injection Hstep as <- _. vm_compute. reflexivity. }
  assert (∃ s1 s0, heap w1 !! 1 = Some s1 ∧ goodStep exampleEnv s1
                   ∧ heap w1 !! 0 = Some s0 ∧ ¬ goodStep exampleEnv s0
                   ∧ checkCachedFailure exampleEnv s0 = true)
    as (s1 & s0 & H1 & G1 & H0 & G0 & C0).
  { vm_compute in Hstep. injection Hstep as _ <-.
    eexists _, _. split; [vm_compute; reflexivity|].
    split; [split; vm_compute; reflexivity|].
    split; [vm_compute; reflexivity|].
    split; [|vm_compute; reflexivity].
    intros [Hc _]. vm_compute in Hc. discriminate. }
  assert (loadNested
            (createBuild exampleEnv 5 0 (∅ ∪ newSteps x ∪ option_to_set (Some 0)))
            (order exampleEnv (elements (newSteps x))) w1 = Ok w1) as Hnest.
  { rewrite Horder. cbn [app loadNested]. rewrite H1, H0.
    vm_compute in Hstep. injection Hstep as _ <-. reflexivity. }
  split; [reflexivity|]. split; [reflexivity|].
  split; [reflexivity|]. split; [exact Horder|].
  destruct (createBuild_bad_step exampleEnv 5 0 ∅
              (exampleBuild 2 "/d/c.drv" 7) exampleWorld 0 x w1 w1 [1] 0 []
              s0 eq_refl eq_refl Hstep Hnest Horder)
    as (b' & w' & status & stepStatus & Hrun & Hfin & Hst & _ & _ & _
        & Hrow & _ & Hreg & _).
  { intros r' Hr'. apply list_elem_of_singleton in Hr' as ->. eauto. }
  { exact H0. }
  { exact G0. }
  exists b', w'. split; [exact Hrun|]. split; [exact Hfin|].
  destruct (Hst C0) as [-> _].
  assert (db w1 !! 2%N = Some (exampleRow "/d/c.drv" 7)) as Hdb.
  { vm_compute in Hstep. injection Hstep as _ <-. reflexivity. }
  destruct (Hrow _ Hdb eq_refl) as (row' & Hrow' & _ & _ & Hs' & Hc' & _).
  change (build_id (exampleBuild 2 "/d/c.drv" 7)) with 2%N in Hrow'.
  rewrite Hrow'. simpl. rewrite Hs', Hc'.
  split; [reflexivity|]. split; [reflexivity|].
  rewrite Hreg. vm_compute in Hstep. injection Hstep as _ <-. reflexivity.
Defined.

(** ** The traversal of [visitDependencies] *)

Section VisitLoop.
Context (E : Env) (visitor : Step → Step).
Context (R : Step → Step → Prop).
Hypothesis R_refl : ∀ s, R s s.
Hypothesis R_trans : ∀ s1 s2 s3, R s1 s2 → R s2 s3 → R s1 s3.
Hypothesis R_visitor : ∀ s, R s (visitor s).

(** Every object stays in place and moves along [R]. *)
Lemma visitLoop_pointwise fuel : ∀ todo queued h a,
  match h !! a with
  | Some s => ∃ s', visitLoop E fuel visitor todo queued h !! a = Some s'
                    ∧ R s s'
  | None => visitLoop E fuel visitor todo queued h !! a = None
  end.
Proof.
  induction fuel as [|fuel IH]; intros todo queued h a.
  - simpl. destruct (h !! a); eauto.
  - destruct todo as [|a0 rest]; [simpl; destruct (h !! a); eauto|].
    cbn [visitLoop].
    specialize (IH (rest ++ filter (λ d, d ∉ queued)
                      (order E (elements (depsOf (alter visitor a0 h) a0))))
                  (queued ∪ list_to_set
                     (filter (λ d, d ∉ queued)
                        (order E (elements (depsOf (alter visitor a0 h) a0)))))
                  (alter visitor a0 h) a).
    destruct (decide (a = a0)) as [->|Hne].
    + rewrite lookup_alter_eq in IH. destruct (h !! a0) as [s|]; simpl in IH.
      * destruct IH as (s' & Hs' & HR). exists s'. split; [done|].
        eapply R_trans; [apply R_visitor | exact HR].
      * exact IH.
    + rewrite lookup_alter_ne in IH by done. exact IH.
Qed.

End VisitLoop.

Section VisitAll.
Context (E : Env) (visitor : Step → Step) (P : Step → Prop).
Hypothesis visitor_deps : ∀ s, deps (visitor s) = deps s.
Hypothesis visitor_P : ∀ s, P (visitor s).

Lemma visitLoop_all (U : gset nat) fuel : ∀ todo queued h,
  (∀ a s, h !! a = Some s → deps s ⊆ U) →
  queued ⊆ U →
  length todo + size (U ∖ queued) < fuel →
  (∀ a, a ∈ queued → a ∈ todo ∨ visited P h queued a) →
  ∃ q', queued ⊆ q'
    ∧ ∀ a, a ∈ q' → visited P (visitLoop E fuel visitor todo queued h) q' a.
Proof.
  induction fuel as [|fuel IH]; intros todo queued h HU Hq Hfuel Hinv; [lia|].
  destruct todo as [|a rest].
  { exists queued. split; [done|]. intros a Ha. simpl.
    destruct (Hinv a Ha) as [Hin|Hd]; [by apply elem_of_nil in Hin | done]. }
  cbn [visitLoop].
  set (h1 := alter visitor a h).
  set (new := filter (λ d, d ∉ queued) (order E (elements (depsOf h1 a)))).
  assert (∀ c s, h1 !! c = Some s → deps s ⊆ U) as HU1.
  { intros c s Hc. unfold h1 in Hc. apply lookup_alter_Some in Hc
      as [(_ & s0 & Hs0 & ->)|[_ Hc]]; [|by eapply HU].
    rewrite visitor_deps. by eapply HU. }
  assert (∀ d, d ∈ new ↔ d ∈ depsOf h1 a ∧ d ∉ queued) as Hnew.
  { intros d. unfold new. rewrite list_elem_of_filter, elem_of_order,
      elem_of_elements. tauto. }
  assert (NoDup new) as Hnd.
  { unfold new. apply NoDup_filter. rewrite (order_perm E).
    apply NoDup_elements. }
  assert (depsOf h1 a ⊆ U) as Hdeps.
  { unfold depsOf. destruct (h1 !! a) as [s|] eqn:Hs; simpl; [|set_solver].
    by eapply HU1. }
  destruct (IH (rest ++ new) (queued ∪ list_to_set new) h1) as (q' & Hq' & Hd).
  - exact HU1.
  - intros d Hd. apply elem_of_union in Hd as [Hd|Hd]; [by apply Hq|].
    apply elem_of_list_to_set, Hnew in Hd as [Hd _]. by apply Hdeps.
  - assert (U ∖ (queued ∪ list_to_set new)
            = (U ∖ queued) ∖ list_to_set new) as -> by set_solver.
    assert (list_to_set new ⊆ U ∖ queued) as Hsub.
    { intros d Hd. apply elem_of_list_to_set, Hnew in Hd as [Hd Hn].
      apply elem_of_difference. split; [by apply Hdeps | done]. }
    pose proof (size_union_alt (list_to_set new)
                  (U ∖ queued)) as Hsz.
    assert (list_to_set new ∪ (U ∖ queued) = U ∖ queued) as Heq
      by set_solver.
    rewrite Heq in Hsz. rewrite size_list_to_set in Hsz by done.
    rewrite length_app. simpl in Hfuel. lia.
  - intros c Hc. apply elem_of_union in Hc as [Hc|Hc].
    2:{ left. apply elem_of_app. right. by apply elem_of_list_to_set in Hc. }
    assert (visited P h1 (queued ∪ list_to_set new) a) as Hda.
    { intros s Hs. unfold h1 in Hs. rewrite lookup_alter_eq in Hs.
      destruct (h !! a) as [s0|] eqn:Hs0; [|done]. injection Hs as <-.
      split; [apply visitor_P|]. intros d Hd.
      destruct (decide (d ∈ queued)) as [|Hn]; [set_solver|].
      apply elem_of_union. right. apply elem_of_list_to_set, Hnew.
      split; [|done]. unfold depsOf, h1. rewrite lookup_alter_eq, Hs0.
      exact Hd. }
    destruct (Hinv c Hc) as [Hin|Hdc].
    + apply elem_of_cons in Hin as [->|Hin]; [by right|].
      left. apply elem_of_app. by left.
    + right. destruct (decide (c = a)) as [->|Hne]; [done|].
      intros s Hs. unfold h1 in Hs. rewrite lookup_alter_ne in Hs by done.
      destruct (Hdc s Hs) as [HP Hsub]. split; [done|set_solver].
  - exists q'. split; [set_solver|]. exact Hd.
Qed.

End VisitAll.

Lemma priorityMono_refl s : priorityMono s s.
Proof. unfold priorityMono. repeat split; done || lia. Qed.

Lemma priorityMono_trans s1 s2 s3 :
  priorityMono s1 s2 → priorityMono s2 s3 → priorityMono s1 s3.
Proof.
  unfold priorityMono.
  intros (A1 & B1 & C1 & D1 & E1 & F1 & G1 & H1 & I1 & J1 & K1 & L1)
         (A2 & B2 & C2 & D2 & E2 & F2 & G2 & H2 & I2 & J2 & K2 & L2).
  repeat split; try congruence; try lia. by etrans.
Qed.

Lemma priorityMono_raise b s : priorityMono s (raisePriorities b s).
Proof. unfold priorityMono. simpl. repeat split; try done; try lia. set_solver. Qed.

Lemma covers_raise b s : covers b (raisePriorities b s).
Proof. unfold covers. simpl. repeat split; try lia. set_solver. Qed.

Lemma deps_subseteq_universe start (h : gmap nat Step) a s :
  h !! a = Some s → deps s ⊆ universe start h.
Proof.
  intros Hs. unfold universe. intros d Hd. apply elem_of_union. right.
  apply elem_of_union_list. exists (deps s). split; [|done].
  apply list_elem_of_fmap. exists s. split; [done|].
  apply list_elem_of_fmap. exists (a, s). split; [done|].
  by apply elem_of_map_to_list.
Qed.

Section Propagate.
Context (E : Env).

(** The fuel that [visitDependencies] gives the work list is enough: the
    traversal ends with every step that was ever queued visited. *)
Lemma visitLoop_enough_fuel visitor (P : Step → Prop) start h :
  (∀ s, deps (visitor s) = deps s) →
  (∀ s, P (visitor s)) →
  ∃ q', start ∈ q'
    ∧ ∀ a, a ∈ q' → visited P (visitDependencies E visitor start h) q' a.
Proof.
  intros Hdeps HP. unfold visitDependencies.
  destruct (visitLoop_all E visitor P Hdeps HP (universe start h)
              (S (size (universe start h))) [start] {[start]} h)
    as (q' & Hq' & Hd).
  - intros a s. apply deps_subseteq_universe.
  - unfold universe. set_solver.
  - assert (universe start h = {[start]} ∪ (universe start h ∖ {[start]}))
      as Heq.
    { apply set_eq. intros d. unfold universe.
      destruct (decide (d = start)); set_solver. }
    assert (({[start]} : gset nat) ## universe start h ∖ {[start]})
      as Hdisj by set_solver.
    pose proof (size_union _ _ Hdisj) as Hsz.
    rewrite <- Heq, size_singleton in Hsz. simpl. lia.
  - intros a Ha. left. apply elem_of_singleton in Ha as ->. by left.
  - exists q'. split; [set_solver | done].
Qed.

(** Propagation keeps every Step in place and moves its fields
    monotonically. *)
Lemma propagatePriorities_pointwise b w w' :
  propagatePriorities E b w = Ok w' →
  (∀ a, match heap w !! a with
        | Some s => ∃ s', heap w' !! a = Some s' ∧ priorityMono s s'
        | None => heap w' !! a = None
        end)
  ∧ heapOnly w w'.
Proof.
  intros H. apply propagatePriorities_Ok in H as (t & Ht & ->).
  split; [|done]. cbn [heap set_heap].
  apply (visitLoop_pointwise E (raisePriorities b) priorityMono
           priorityMono_refl priorityMono_trans (priorityMono_raise b)).
Qed.

(** C7. After [propagatePriorities(build)] returns, every step reachable
    through [deps] from [build.toplevel] covers the build:
    [highestGlobalPriority >= globalPriority], [highestLocalPriority >=
    localPriority], [lowestBuildID <= id], and the jobset of the build is
    in [jobsets]. Every step, reachable or not, stays in place and its
    fields only move monotonically: priorities by [max], the build id by
    [min], the jobsets by insertion; all other fields and the rest of the
    world are unchanged. *)
Theorem propagatePriorities_covers b w w' :
  propagatePriorities E b w = Ok w' →
  ∃ t, toplevel b = Some t
    ∧ (∀ a s, reaches (heap w) t a → heap w !! a = Some s →
         ∃ s', heap w' !! a = Some s' ∧ covers b s' ∧ priorityMono s s')
    ∧ (∀ a, match heap w !! a with
            | Some s => ∃ s', heap w' !! a = Some s' ∧ priorityMono s s'
            | None => heap w' !! a = None
            end)
    ∧ heapOnly w w'.
Proof.
  intros H. apply propagatePriorities_Ok in H as (t & Ht & ->).
  exists t. split; [done|]. cbn [heap set_heap].
  pose proof (visitLoop_pointwise E (raisePriorities b) priorityMono
                priorityMono_refl priorityMono_trans (priorityMono_raise b)
                (S (size (universe t (heap w)))) [t] {[t]} (heap w)) as Hpt.
  fold (visitDependencies E (raisePriorities b) t (heap w)) in Hpt.
  split; [|split; [exact Hpt | done]].
  destruct (visitLoop_enough_fuel (raisePriorities b) (covers b) t (heap w))
    as (q' & Ht' & Hd); [done | apply covers_raise |].
  assert (∀ a, reaches (heap w) t a → a ∈ q') as Hreach.
  { unfold reaches. apply (rtc_ind_r (λ a, a ∈ q') t); [done|].
    intros a c _ (s & Hs & Hc) IH.
    specialize (Hpt a). rewrite Hs in Hpt. destruct Hpt as (s' & Hs' & Hm).
    destruct (Hd a IH s' Hs') as [_ Hsub]. apply Hsub.
    destruct Hm as (_ & _ & _ & _ & _ & _ & _ & _ & _ & -> & _). done. }
  intros a s Ha Hs. specialize (Hpt a). rewrite Hs in Hpt.
  destruct Hpt as (s' & Hs' & Hm). exists s'. split; [done|].
  split; [|done]. by destruct (Hd a (Hreach a Ha) s' Hs').
Qed.

End Propagate.

(** In the example graph, the dependency of [a] is covered. *)
Lemma propagatePriorities_covers_witness :
  ∃ w',
    propagatePriorities exampleEnv
      (set_toplevel (Some 0) (exampleBuild 1 "/d/a.drv" 5)) exampleGraph
    = Ok w'
    ∧ ∃ s', heap w' !! 1 = Some s'
        ∧ covers (set_toplevel (Some 0) (exampleBuild 1 "/d/a.drv" 5)) s'.
Proof.
  destruct (propagatePriorities_covers exampleEnv
              (set_toplevel (Some 0) (exampleBuild 1 "/d/a.drv" 5))
              exampleGraph _ eq_refl) as (t & Ht & Hreach & _).
  injection Ht as <-.
  eexists. split; [reflexivity|].
  edestruct (Hreach 1) as (s' & Hs' & Hc & _).
  - apply rtc_once. eexists. split; [vm_compute; reflexivity|].
    vm_compute. reflexivity.
  - vm_compute. reflexivity.
  - exists s'. split; [exact Hs' | exact Hc].
Defined.

(** ** Queue reconciliation is idempotent *)

Section Idempotent.
Context (E : Env).

Lemma reconcile_settles cur ids : ∀ w w',
  reconcile E cur ids w = Ok w' →
  (∀ i b, builds_ w' !! i = Some b → i ∈ ids → settled cur i b)
  ∧ (∀ i, i ∉ ids → builds_ w' !! i = builds_ w !! i)
  ∧ db w' = db w.
Proof.
  induction ids as [|i ids IH]; intros w w' H.
  - injection H as <-. split; [|done]. intros i b _ Hi.
    by apply elem_of_nil in Hi.
  - cbn [reconcile] in H.
    assert (∀ w2 (Hrest : reconcile E cur ids w2 = Ok w'),
              db w2 = db w →
              (∀ j, j ≠ i → builds_ w2 !! j = builds_ w !! j) →
              (∀ b, builds_ w2 !! i = Some b → settled cur i b) →
              (∀ j b, builds_ w' !! j = Some b → j ∈ i :: ids →
                      settled cur j b)
              ∧ (∀ j, j ∉ i :: ids → builds_ w' !! j = builds_ w !! j)
              ∧ db w' = db w) as Hstep.
    { intros w2 Hrest Hdb Hother Hi.
      apply IH in Hrest as (Hs & Hn & Hd). split; [|split].
      - intros j b Hj Hin. destruct (decide (j ∈ ids)) as [|Hnot]; [eauto|].
        apply elem_of_cons in Hin as [->|?]; [|done].
        rewrite Hn in Hj by done. eauto.
      - intros j Hj. apply not_elem_of_cons in Hj as [Hne Hj].
        rewrite Hn by done. by apply Hother.
      - congruence. }
    destruct (builds_ w !! i) as [b|] eqn:Hb.
    + destruct (cur !! i) as [p|] eqn:Hp.
      * destruct (decide (globalPriority b < p)%Z) as [Hlt|Hge].
        -- apply bind_Ok in H as (w2 & Hprop & H).
           apply propagatePriorities_heapOnly in Hprop.
           apply (Hstep w2 H); rewrite Hprop; simpl.
           ++ done.
           ++ intros j Hne. by rewrite lookup_insert_ne.
           ++ intros b'. rewrite lookup_insert_eq. intros [= <-].
              exists p. split; [done|]. simpl. lia.
        -- apply (Hstep w H); [done|done|].
           intros b'. rewrite Hb. intros [= <-]. exists p. split; [done|lia].
      * apply (Hstep _ H); simpl.
        -- done.
        -- intros j Hne. by rewrite lookup_delete_ne.
        -- intros b'. by rewrite lookup_delete_eq.
    + apply (Hstep w H); [done|done|]. intros b'. by rewrite Hb.
Qed.

Lemma reconcile_settled cur ids : ∀ w,
  (∀ i b, builds_ w !! i = Some b → settled cur i b) →
  reconcile E cur ids w = Ok w.
Proof.
  induction ids as [|i ids IH]; intros w Hs; [done|].
  cbn [reconcile]. destruct (builds_ w !! i) as [b|] eqn:Hb; [|by apply IH].
  destruct (Hs i b Hb) as (p & -> & Hle).
  rewrite decide_False by lia. by apply IH.
Qed.

(** C8. When [processQueueChange] has run and the database snapshot of
    the unfinished builds is unchanged, a second run changes nothing: it
    returns the very same world, hence removes no build, updates no
    [globalPriority] and leaves every step as it is. The reason is that
    after the first run every registered build is in the snapshot with a
    priority that is not above its own. The first run does not write to
    the database. *)
Theorem processQueueChange_idempotent w w1 :
  processQueueChange E w = Ok w1 →
  db w1 = db w
  ∧ processQueueChange E w1 = Ok w1
  ∧ ∃ currentIds,
      readCurrentIds (queryUnfinished (db w)) ∅ = Ok currentIds
      ∧ ∀ i b, builds_ w1 !! i = Some b → settled currentIds i b.
Proof.
  intros H. unfold processQueueChange in H.
  apply bind_Ok in H as (cur & Hcur & H).
  apply reconcile_settles in H as (Hs & Hn & Hdb).
  assert (∀ i b, builds_ w1 !! i = Some b → settled cur i b) as Hall.
  { intros i b Hb.
    destruct (decide (i ∈ merge_sort N.le (elements (dom (builds_ w)))))
      as [Hin|Hnot]; [eauto|].
    exfalso. apply Hnot. rewrite merge_sort_Permutation, elem_of_elements.
    apply elem_of_dom. rewrite <- Hn by done. eauto. }
  split; [done|]. split; [|eauto].
  unfold processQueueChange. rewrite Hdb, Hcur. cbn [mbind result_bind].
  by apply reconcile_settled.
Qed.

End Idempotent.

(** In the example, build 5 was deleted and build 1 bumped to 9. *)
Lemma processQueueChange_idempotent_witness :
  ∃ w1,
    processQueueChange exampleEnv exampleBumped = Ok w1
    ∧ processQueueChange exampleEnv w1 = Ok w1
    ∧ builds_ w1 !! 5%N = None
    ∧ (globalPriority <$> builds_ w1 !! 1%N) = Some 9%Z.
Proof.
  destruct (processQueueChange exampleEnv exampleBumped) as [w1|e] eqn:Hrun;
    [|vm_compute in Hrun; discriminate].
  exists w1. split; [reflexivity|].
  destruct (processQueueChange_idempotent exampleEnv _ _ Hrun)
    as (_ & Hagain & _).
  split; [exact Hagain|].
  vm_compute in Hrun. injection Hrun as <-. split; reflexivity.
Defined.

(** ** The assertion [created != isNew] never fails *)

Lemma uncreatedFrom_refl w : uncreatedFrom w w.
Proof. intros q a s Hl Hc. eauto. Qed.

Lemma uncreatedFrom_trans w1 w2 w3 :
  uncreatedFrom w1 w2 → uncreatedFrom w2 w3 → uncreatedFrom w1 w3.
Proof.
  intros H1 H2 q a s3 Hl Hc. destruct (H2 q a s3 Hl Hc) as (s2 & Hl2 & Hc2).
  eauto.
Qed.

Lemma uncreatedAbove_from rank w w' p :
  uncreatedAbove rank w p → stepsFresh w' → uncreatedFrom w w' →
  uncreatedAbove rank w' p.
Proof.
  intros [_ Hpre] Hfresh Hfrom. split; [done|]. intros q a s' Hl Hc.
  destruct (Hfrom q a s' Hl Hc) as (s & Hl0 & Hc0). eauto.
Qed.

Lemma allCreated_above rank w p : allCreated w → uncreatedAbove rank w p.
Proof.
  intros [Hfresh Hall]. split; [done|]. intros q a s Hl Hc.
  rewrite (Hall q a s Hl) in Hc. done.
Qed.

Lemma allCreated_from w w' :
  allCreated w → stepsFresh w' → uncreatedFrom w w' → allCreated w'.
Proof.
  intros [_ Hall] Hfresh Hfrom. split; [done|]. intros p a s' Hl.
  destruct (created s') eqn:Hc; [done|].
  destruct (Hfrom p a s' Hl Hc) as (s & Hl0 & Hc0).
  rewrite (Hall p a s Hl0) in Hc0. done.
Qed.

Lemma created_addReferrers rb rs s :
  created (addReferrers rb rs s) = created s.
Proof. unfold addReferrers. by destruct rb, rs. Qed.

Lemma uncreatedFrom_linkFound p rb rs a s w :
  lockStep w p = Some (a, s) → uncreatedFrom w (linkFound p rb rs a s w).
Proof.
  intros Hl q a' s' Hl' Hc. apply lockStep_Some in Hl as [Hp Ha].
  apply lockStep_Some in Hl' as [Hq Ha']. simpl in Hq, Ha'.
  assert (steps_ w !! q = Some a') as Hq0.
  { destruct (decide (q = p)) as [->|Hne].
    - rewrite lookup_insert_eq in Hq. congruence.
    - by rewrite lookup_insert_ne in Hq. }
  destruct (decide (a' = a)) as [->|Hne].
  - rewrite lookup_insert_eq in Ha'. injection Ha' as <-.
    rewrite created_addReferrers in Hc. exists s. split; [|done].
    by apply lockStep_Some.
  - rewrite lookup_insert_ne in Ha' by done. exists s'. split; [|done].
    by apply lockStep_Some.
Qed.

Lemma uncreatedFrom_addDep a d w : uncreatedFrom w (addDep a d w).
Proof.
  intros q a' s' Hl Hc. apply lockStep_Some in Hl as [Hq Ha'].
  simpl in Hq, Ha'.
  apply lookup_alter_Some in Ha' as [(-> & s0 & Hs0 & ->)|[Hne Ha']].
  - exists s0. split; [by apply lockStep_Some | done].
  - exists s'. split; [by apply lockStep_Some | done].
Qed.

Lemma uncreatedFrom_subheap w w' :
  steps_ w' = steps_ w → heap w' ⊆ heap w → uncreatedFrom w w'.
Proof.
  intros Hst Hsub q a s' Hl Hc. apply lockStep_Some in Hl as [Hq Ha].
  exists s'. split; [|done]. apply lockStep_Some. rewrite <- Hst.
  split; [done|]. by eapply lookup_weaken.
Qed.

Section Safety.
Context (E : Env) (rank : string → nat).
Hypothesis Hacyclic : acyclic E rank.

Lemma lockStep_allocStep p rb rs d w q a s' :
  stepsFresh w →
  lockStep w p = None →
  lockStep (allocStep E p rb rs d w) q = Some (a, s') →
  (q = p ∧ a = next w
   ∧ s' = initStep E d (addReferrers rb rs (new_Step p)))
  ∨ (q ≠ p ∧ a ≠ next w ∧ lockStep w q = Some (a, s')).
Proof.
  intros Hfresh Hl Hl'. apply lockStep_Some in Hl' as [Hq Ha].
  simpl in Hq, Ha. destruct (decide (q = p)) as [->|Hqp].
  - rewrite lookup_insert_eq in Hq. injection Hq as <-.
    rewrite lookup_insert_eq in Ha. injection Ha as <-. by left.
  - rewrite lookup_insert_ne in Hq by done. pose proof (Hfresh q a Hq).
    rewrite lookup_insert_ne in Ha by lia. right.
    split; [done|]. split; [lia|]. by apply lockStep_Some.
Qed.

Lemma uncreatedFrom_valid p rb rs d w :
  lockStep w p = None →
  uncreatedFrom w
    (set_heap (delete (next w) (heap (allocStep E p rb rs d w)))
       (allocStep E p rb rs d w)).
Proof.
  intros Hl q a s' Hl' Hc. apply lockStep_Some in Hl' as [Hq Ha].
  simpl in Hq, Ha. rewrite delete_insert_eq in Ha.
  apply lookup_delete_Some in Ha as [Hne Ha].
  destruct (decide (q = p)) as [->|Hqp].
  - rewrite lookup_insert_eq in Hq. congruence.
  - rewrite lookup_insert_ne in Hq by done. exists s'. split; [|done].
    by apply lockStep_Some.
Qed.

(** What the expansion of the inputs of a new step [a] does, when the
    recursive calls are safe. *)
Lemma createDeps_safe
    (rec : string → option N → option nat → Expansion → World →
           result (option nat * Expansion * World)) (fuel : nat) a :
  (∀ p rb rs x w r x' w',
     rec p rb rs x w = Ok (r, x', w') → extends x w x' w') →
  (∀ p rb rs x w,
     uncreatedAbove rank w p →
     match rec p rb rs x w with
     | Ok (_, _, w') => uncreatedFrom w w'
     | Err e => e ≠ AssertionFailed ∧ (rank p < fuel → e ≠ OutOfFuel)
     end) →
  ∀ inputs x w,
    (∀ i, i ∈ inputs.*1 → uncreatedAbove rank w i) →
    match createDeps rec a inputs x w with
    | Ok (_, w') => uncreatedFrom w w'
    | Err e => e ≠ AssertionFailed
               ∧ ((∀ i, i ∈ inputs.*1 → rank i < fuel) → e ≠ OutOfFuel)
    end.
Proof.
  intros Hext Hrec. induction inputs as [|i rest IH]; intros x w Hpre.
  - simpl. apply uncreatedFrom_refl.
  - assert (i.1 ∈ (i :: rest).*1) as Hhere.
    { apply list_elem_of_fmap. exists i. split; [done | by left]. }
    assert (∀ j, j ∈ rest.*1 → j ∈ (i :: rest).*1) as Hthere.
    { intros j (e & -> & Hj)%list_elem_of_fmap. apply list_elem_of_fmap.
      exists e. split; [done | by right]. }
    cbn [createDeps]. specialize (Hrec i.1 None (Some a) x w).
    specialize (Hext i.1 None (Some a) x w).
    destruct (rec i.1 None (Some a) x w) as [[[dep x1] w1]|e].
    2:{ simpl. destruct Hrec as [Hne Hfuel]; [by apply Hpre|].
        split; [done|]. intros Hall. by apply Hfuel, Hall. }
    assert (uncreatedFrom w w1) as Hfrom by (by apply Hrec, Hpre).
    specialize (Hext _ _ _ eq_refl).
    cbn [mbind result_bind].
    set (w2 := match dep with Some d => addDep a d w1 | None => w1 end).
    assert (uncreatedFrom w1 w2 ∧ extends x1 w1 x1 w2) as [Hfrom2 Hext2].
    { unfold w2. destruct dep as [d|].
      - split; [apply uncreatedFrom_addDep | apply extends_addDep].
      - split; [apply uncreatedFrom_refl | apply extends_refl]. }
    specialize (IH x1 w2).
    assert (∀ j, j ∈ rest.*1 → uncreatedAbove rank w2 j) as Hpre2.
    { intros j Hj. pose proof (Hpre j (Hthere j Hj)) as Hj0.
      eapply uncreatedAbove_from; [exact Hj0| |].
      - eapply extends_stepsFresh; [exact Hext2|].
        eapply extends_stepsFresh; [exact Hext | by destruct Hj0].
      - by eapply uncreatedFrom_trans. }
    destruct (createDeps rec a rest x1 w2) as [[x3 w3]|e].
    + eapply uncreatedFrom_trans; [exact Hfrom|].
      eapply uncreatedFrom_trans; [exact Hfrom2 | by apply IH].
    + destruct (IH Hpre2) as [Hne Hfuel]. split; [done|].
      intros Hall. apply Hfuel. intros j Hj. by apply Hall, Hthere.
Qed.

(** The inputs of a new step find the registered Steps that are not
    created above them. *)
Lemma uncreatedAbove_inputs p rb rs d w i :
  uncreatedAbove rank w p → lockStep w p = None →
  readDerivation E p = Some d → i ∈ (inputDrvs d).*1 →
  uncreatedAbove rank (allocStep E p rb rs d w) i.
Proof.
  intros [Hfresh Hpre] Hl Hd Hi. split.
  - eapply extends_stepsFresh; [|exact Hfresh].
    apply (extends_allocStep E p rb rs d emptyExpansion w).
  - intros q a s' Hl' Hc.
    destruct (lockStep_allocStep _ _ _ _ _ _ _ _ Hfresh Hl Hl')
      as [(-> & _ & _)|(_ & _ & Hl0)].
    + by eapply Hacyclic.
    + etrans; [by eapply Hacyclic | by eapply Hpre].
Qed.

(** [createStep] never fails its assertions when the registered Steps
    that are not created rank above the requested derivation; it does not
    run out of fuel when the fuel exceeds the rank. *)
Lemma createStep_safe fuel : ∀ p rb rs x w,
  uncreatedAbove rank w p →
  match createStep E fuel p rb rs x w with
  | Ok (_, _, w') => uncreatedFrom w w'
  | Err e => e ≠ AssertionFailed ∧ (rank p < fuel → e ≠ OutOfFuel)
  end.
Proof.
  induction fuel as [|fuel IH]; intros p rb rs x w Hpre.
  { simpl. split; [done | lia]. }
  destruct (createStep E (S fuel) p rb rs x w) as [[[r x'] w']|e] eqn:Hrun.
  - (* the call returns: look at how *)
    apply createStep_Ok_inv in Hrun
      as [(_ & _ & _ & ->)
         |[(_ & a & s & Hl & _ & _ & _ & ->)
          |(_ & Hl & d & Hd & [(_ & _ & _ & ->)
                             |(_ & x2 & w3 & Hdeps & Hf & _ & _)])]].
    + apply uncreatedFrom_refl.
    + by apply uncreatedFrom_linkFound.
    + by apply uncreatedFrom_valid.
    + pose proof (createDeps_safe (createStep E fuel) fuel (next w)
                    (createStep_extends E fuel) IH
                    (inputDrvs d)
                    {| finishedDrvs := finishedDrvs x;
                       newSteps := {[next w]} ∪ newSteps x |}
                    (allocStep E p rb rs d w)
                    (λ i Hi, uncreatedAbove_inputs p rb rs d w i
                               Hpre Hl Hd Hi)) as Hsafe.
      rewrite Hdeps in Hsafe.
      apply finishStep_Ok in Hf as (s3 & Hs3 & Hc3 & Hh & _ & _ & _ & Hst).
      intros q a s' Hl' Hc. apply lockStep_Some in Hl' as [Hq Ha].
      rewrite Hst in Hq. rewrite Hh in Ha.
      destruct (decide (a = next w)) as [->|Hne].
      { rewrite lookup_insert_eq in Ha. injection Ha as <-. done. }
      rewrite lookup_insert_ne in Ha by done.
      destruct (Hsafe q a s') as (s2 & Hl2 & Hc2);
        [by apply lockStep_Some | done |].
      destruct Hpre as [Hfresh _].
      destruct (lockStep_allocStep _ _ _ _ _ _ _ _ Hfresh Hl Hl2)
        as [(_ & ? & _)|(_ & _ & Hl0)]; [done|].
      by exists s2.
  - (* the call fails: with which error *)
    cbn [createStep] in Hrun. case_decide; [discriminate|].
    destruct (lockStep w p) as [[a s]|] eqn:Hl.
    + unfold linkStep in Hrun. destruct (created s) eqn:Hc.
      * rewrite bool_decide_eq_false_2 in Hrun by done. discriminate.
      * destruct Hpre as [_ Hpre]. specialize (Hpre p a s Hl Hc). lia.
    + unfold linkStep in Hrun. cbn [created new_Step] in Hrun.
      rewrite bool_decide_eq_false_2 in Hrun by done.
      cbn [mbind result_bind] in Hrun.
      destruct (readDerivation E p) as [d|] eqn:Hd.
      2:{ injection Hrun as <-. by split. }
      cbn [from_option mbind result_bind] in Hrun.
      fold (linkFound p rb rs (next w) (new_Step p)
              (set_next (S (next w)) (set_steps (delete p (steps_ w)) w)))
        in Hrun.
      rewrite allocStep_eq in Hrun.
      destruct (allValid E d); [discriminate|].
      pose proof (createDeps_safe (createStep E fuel) fuel (next w)
                    (createStep_extends E fuel) IH
                    (inputDrvs d)
                    {| finishedDrvs := finishedDrvs x;
                       newSteps := {[next w]} ∪ newSteps x |}
                    (allocStep E p rb rs d w)
                    (λ i Hi, uncreatedAbove_inputs p rb rs d w i
                               Hpre Hl Hd Hi)) as Hsafe.
      destruct (createDeps (createStep E fuel) (next w) (inputDrvs d) _
                  (allocStep E p rb rs d w)) as [[x2 w3]|e'] eqn:Hdeps.
      * cbn [mbind result_bind] in Hrun.
        apply (createDeps_extends _ _ (createStep_extends E fuel))
          in Hdeps as (_ & _ & _ & _ & _ & _ & _ & _ & HG & _).
        destruct (HG (next w)
                    (initStep E d (addReferrers rb rs (new_Step p))))
          as (s3 & Hs3 & _ & _ & Hc3).
        { simpl. lia. }
        { simpl. apply lookup_insert_eq. }
        unfold finishStep in Hrun. rewrite Hs3 in Hrun.
        change (created (initStep E d (addReferrers rb rs (new_Step p))))
          with (created (addReferrers rb rs (new_Step p))) in Hc3.
        rewrite created_addReferrers in Hc3. simpl in Hc3.
        rewrite Hc3 in Hrun. discriminate.
      * injection Hrun as <-. destruct Hsafe as [Hne Hfuel].
        split; [done|]. intros Hlt. apply Hfuel. intros i Hi.
        pose proof (Hacyclic p d i Hd Hi). lia.
Qed.

End Safety.

(** ** A pass never fails the assertion *)

Lemma graphSafe_refl w : graphSafe w w.
Proof. split; [apply uncreatedFrom_refl | done]. Qed.

Lemma graphSafe_trans w1 w2 w3 :
  graphSafe w1 w2 → graphSafe w2 w3 → graphSafe w1 w3.
Proof.
  intros [U1 F1] [U2 F2]. split; [by eapply uncreatedFrom_trans | auto].
Qed.

Lemma allCreated_graphSafe w w' : allCreated w → graphSafe w w' → allCreated w'.
Proof.
  intros Hall [Hfrom Hfresh]. eapply allCreated_from; [done| |done].
  apply Hfresh. by destruct Hall.
Qed.

(** Changes outside the Step Graph, and the death of Steps. *)
Lemma graphSafe_subheap w w' :
  steps_ w' = steps_ w → next w' = next w → heap w' ⊆ heap w →
  graphSafe w w'.
Proof.
  intros Hst Hn Hsub. split; [by apply uncreatedFrom_subheap|].
  intros Hf q a Hq. rewrite Hst in Hq. rewrite Hn. by eapply Hf.
Qed.

Lemma graphSafe_same w w' :
  steps_ w' = steps_ w → next w' = next w → heap w' = heap w →
  graphSafe w w'.
Proof. intros Hst Hn Hh. apply graphSafe_subheap; [done..|]. by rewrite Hh. Qed.

Lemma graphSafe_heapOnly_sub w w' :
  heapOnly w w' → heap w' ⊆ heap w → graphSafe w w'.
Proof. intros -> Hsub. by apply graphSafe_subheap. Qed.

Lemma safe_bind {A B} (P : A → Prop) (Q : B → Prop) (m : result A)
    (f : A → result B) :
  safe P m → (∀ a, P a → safe Q (f a)) → safe Q (m ≫= f).
Proof. destruct m as [a|e]; simpl; auto. Qed.

Lemma safe_mono {A} (P Q : A → Prop) (m : result A) :
  safe P m → (∀ a, P a → Q a) → safe Q m.
Proof. destruct m as [a|e]; simpl; auto. Qed.

Section PassSafety.
Context (E : Env) (rank : string → nat).
Hypothesis Hacyclic : acyclic E rank.

Lemma createStep_graphSafe fuel p rb rs x w :
  uncreatedAbove rank w p →
  safe (λ r, graphSafe w r.2) (createStep E fuel p rb rs x w).
Proof.
  intros Hpre. pose proof (createStep_safe E rank Hacyclic fuel p rb rs x w Hpre)
    as Hsafe.
  destruct (createStep E fuel p rb rs x w) as [[[r x'] w']|e] eqn:Hrun; simpl.
  - split; [done|]. by eapply extends_stepsFresh, createStep_extends.
  - by destruct Hsafe.
Qed.

Lemma checkSteps_safe b step l w :
  safe (λ r, graphSafe w r.2) (checkSteps E b step l w).
Proof.
  induction l as [|r l IH]; [apply graphSafe_refl|].
  cbn [checkSteps]. destruct (heap w !! r) as [s|]; [|done].
  destruct (classifyStep E step r s) as [status stepStatus].
  case_decide; [done|]. cbn [time0].
  destruct (finishedInDB b); simpl; by apply graphSafe_same.
Qed.

Lemma propagatePriorities_graphSafe b w :
  safe (graphSafe w) (propagatePriorities E b w).
Proof.
  destruct (propagatePriorities E b w) as [w'|e] eqn:Hrun; simpl.
  - apply propagatePriorities_pointwise in Hrun as (Hpt & ->).
    simpl in Hpt. split; [|done].
    intros q a s' Hl Hc. apply lockStep_Some in Hl as [Hq Ha].
    simpl in Hq, Ha. specialize (Hpt a).
    destruct (heap w !! a) as [s|] eqn:Hs; [|congruence].
    destruct Hpt as (s'' & Hs'' & Hm). assert (s'' = s') as -> by congruence.
    exists s. split; [by apply lockStep_Some|].
    destruct Hm as (_ & _ & _ & _ & _ & _ & _ & _ & Hcr & _). congruence.
  - unfold propagatePriorities in Hrun. destruct (toplevel b); [done|].
    by injection Hrun as <-.
Qed.

Lemma leave_graphSafe held x step w : graphSafe w (leave held x step w).
Proof. apply graphSafe_subheap; [done..|]. apply dropRefs_subseteq. Qed.

Lemma loadNested_safe (rec : Build → World → result (Build * World)) :
  (∀ b w, allCreated w → safe (λ r, allCreated r.2) (rec b w)) →
  ∀ l w, allCreated w → safe allCreated (loadNested rec l w).
Proof.
  intros Hrec. induction l as [|r l IH]; intros w Hall; [done|].
  cbn [loadNested]. destruct (heap w !! r) as [s|]; [|done].
  destruct (findByPath (drvPath s) (newBuildsByPath w)) as [i|]; [|by apply IH].
  destruct (newBuildsByID w !! i) as [b|]; [|by apply IH].
  eapply safe_bind; [by apply Hrec|]. intros [b' w1] H1. by apply IH.
Qed.

Lemma createBuild_safe depth fuel : ∀ held b w,
  allCreated w →
  safe (λ r, allCreated r.2) (createBuild E depth fuel held b w).
Proof.
  induction fuel as [|fuel IH]; intros held b w Hall; [done|].
  assert (allCreated (enter b w)) as Hent.
  { eapply allCreated_graphSafe; [exact Hall | by apply graphSafe_same]. }
  cbn [createBuild].
  lazymatch goal with
  | |- context [createStep E _ _ _ _ _ ?w0] => change w0 with (enter b w)
  end.
  destruct (isValidPath E (build_drvPath b)); cbn [negb].
  - eapply safe_bind.
    { apply createStep_graphSafe. by apply allCreated_above. }
    intros [[step x] w1] H1. cbn [snd] in H1.
    pose proof (allCreated_graphSafe _ _ Hent H1) as Hall1.
    eapply safe_bind; [by apply (loadNested_safe _ (IH _))|].
    intros w2 Hall2. destruct step as [a|].
    + eapply safe_bind; [apply checkSteps_safe|].
      intros [[bad b2] w3] H3. cbn [snd] in H3.
      pose proof (allCreated_graphSafe _ _ Hall2 H3) as Hall3.
      destruct bad.
      * simpl. eapply allCreated_graphSafe; [exact Hall3|].
        apply leave_graphSafe.
      * eapply safe_bind; [apply propagatePriorities_graphSafe|].
        intros w4 H4. simpl.
        eapply allCreated_graphSafe; [|apply leave_graphSafe].
        eapply allCreated_graphSafe; [|exact H4].
        eapply allCreated_graphSafe; [exact Hall3|].
        destruct (finishedInDB _); [apply graphSafe_refl|].
        by apply graphSafe_same.
    + destruct (readDerivation E (build_drvPath b)); [|done].
      cbn [from_option mbind result_bind time0]. simpl.
      eapply allCreated_graphSafe; [|apply leave_graphSafe].
      eapply allCreated_graphSafe; [exact Hall2 | by apply graphSafe_same].
  - change (set_newBuildsByID _ (set_nrAdded _ w)) with (enter b w).
    destruct (finishedInDB b); simpl; [|done].
    eapply allCreated_graphSafe; [exact Hent | by apply graphSafe_same].
Qed.

Lemma loadBuilds_safe depth ids : ∀ w,
  allCreated w → safe allCreated (loadBuilds E depth ids w).
Proof.
  induction ids as [|i ids IH]; intros w Hall; [done|].
  cbn [loadBuilds]. destruct (newBuildsByID w !! i) as [b|]; [|by apply IH].
  eapply safe_bind.
  { apply createBuild_safe. eapply allCreated_graphSafe; [exact Hall|].
    apply graphSafe_subheap; [done..|]. apply dropRefs_subseteq. }
  intros [b' w1] H1. apply IH. rewrite foldl_makeRunnable.
  eapply allCreated_graphSafe; [exact H1 | by apply graphSafe_same].
Qed.

Lemma readRows_graph rows : ∀ last ids w,
  graphSafe w (readRows E rows last ids w).2.
Proof.
  induction rows as [|[i r] rows IH]; intros last ids w;
    [apply graphSafe_refl|].
  cbn [readRows]. destruct (_ && _); [apply IH|].
  case_decide; [apply IH|].
  eapply graphSafe_trans; [|apply IH]. by apply graphSafe_same.
Qed.

Lemma getQueuedBuilds_safe depth last w :
  allCreated w →
  safe (λ r, allCreated r.2) (getQueuedBuilds E depth last w).
Proof.
  intros Hall. unfold getQueuedBuilds. fold (startPass w).
  pose proof (readRows_graph (queryQueue (db (startPass w)) last) last []
                (startPass w)) as Hrows.
  destruct (readRows E _ last [] (startPass w)) as [[last1 ids] w1].
  cbn [snd] in Hrows.
  eapply safe_bind.
  { apply loadBuilds_safe. eapply allCreated_graphSafe; [|exact Hrows].
    eapply allCreated_graphSafe; [exact Hall | by apply graphSafe_same]. }
  intros w2 Hall2. simpl. eapply allCreated_graphSafe; [exact Hall2|].
  apply graphSafe_subheap; [done..|]. apply dropRefs_subseteq.
Qed.

Lemma reconcile_safe cur ids : ∀ w,
  allCreated w → safe allCreated (reconcile E cur ids w).
Proof.
  induction ids as [|i ids IH]; intros w Hall; [done|].
  cbn [reconcile]. destruct (builds_ w !! i) as [b|]; [|by apply IH].
  destruct (cur !! i) as [p|].
  - case_decide; [|by apply IH].
    eapply safe_bind; [apply propagatePriorities_graphSafe|].
    intros w2 H2. apply IH. eapply allCreated_graphSafe; [|exact H2].
    eapply allCreated_graphSafe; [exact Hall | by apply graphSafe_same].
  - apply IH. eapply allCreated_graphSafe; [exact Hall|].
    apply graphSafe_subheap; [done..|]. apply dropRefs_subseteq.
Qed.

Lemma readCurrentIds_safe rows : ∀ m,
  safe (λ _, True) (readCurrentIds rows m).
Proof.
  induction rows as [|[i p] rows IH]; intros m; [done|].
  cbn [readCurrentIds]. unfold as_BuildID. case_decide; [|done].
  cbn [mbind result_bind]. apply IH.
Qed.

Lemma processQueueChange_safe w :
  allCreated w → safe allCreated (processQueueChange E w).
Proof.
  intros Hall. unfold processQueueChange.
  eapply safe_bind; [apply readCurrentIds_safe|].
  intros cur _. by apply reconcile_safe.
Qed.

(** C3. The queue monitor runs alone and the derivations are acyclic.
    Then no assertion of [createStep] fails: not in a call of
    [createStep] during an expansion, where the registered live Steps that
    are not created are those of the calls still running (they rank above
    the requested derivation); and not in a pass of [getQueuedBuilds] or
    a reconciliation that starts, like the first one, with every
    registered live Step created, a state that each of them restores
    when it returns. A Step that [createStep] finds alive is then
    created, and a new Step is not. The recursion of [createStep] stays
    within the rank of the derivation. *)
Theorem created_assertion_never_fails depth :
  allCreated initialWorld
  ∧ (∀ p rb rs x w,
       uncreatedAbove rank w p →
       match createStep E depth p rb rs x w with
       | Ok (_, _, w') => uncreatedFrom w w'
       | Err e => e ≠ AssertionFailed ∧ (rank p < depth → e ≠ OutOfFuel)
       end)
  ∧ (∀ last w,
       allCreated w →
       match getQueuedBuilds E depth last w with
       | Ok (_, w') => allCreated w'
       | Err e => e ≠ AssertionFailed
       end)
  ∧ (∀ w,
       allCreated w →
       match processQueueChange E w with
       | Ok w' => allCreated w'
       | Err e => e ≠ AssertionFailed
       end).
Proof.
  split.
  { split.
    - intros q a Hq. cbn [steps_ initialWorld] in Hq.
      by rewrite lookup_empty in Hq.
    - intros p a s Hl. apply lockStep_Some in Hl as [Hp _].
      cbn [steps_ initialWorld] in Hp. by rewrite lookup_empty in Hp. }
  split; [apply (createStep_safe E rank Hacyclic)|].
  split.
  - intros last w Hall. pose proof (getQueuedBuilds_safe depth last w Hall) as H.
    by destruct (getQueuedBuilds E depth last w) as [[last' w']|e].
  - intros w Hall. apply (processQueueChange_safe w Hall).
Qed.

End PassSafety.

Lemma exampleRank_acyclic : acyclic exampleEnv exampleRank.
Proof.
  intros p d i Hd Hi. cbn [readDerivation exampleEnv exampleStore] in Hd.
  destruct (decide (p = "/d/a.drv"%string)) as [->|_].
  { injection Hd as <-. cbn in Hi.
    apply elem_of_cons in Hi as [->|Hi]; [vm_compute; lia|].
    apply elem_of_cons in Hi as [->|Hi]; [vm_compute; lia|].
    by apply elem_of_nil in Hi. }
  destruct (decide (p = "/d/b.drv"%string)) as [->|_].
  { injection Hd as <-. cbn in Hi. by apply elem_of_nil in Hi. }
  destruct (decide (p = "/d/c.drv"%string)) as [->|_].
  { injection Hd as <-. cbn in Hi.
    apply elem_of_cons in Hi as [->|Hi]; [vm_compute; lia|].
    by apply elem_of_nil in Hi. }
  destruct (decide (p = "/d/v.drv"%string)) as [->|_].
  { injection Hd as <-. cbn in Hi. by apply elem_of_nil in Hi. }
  destruct (decide (p = "/d/u.drv"%string)) as [->|_]; [|done].
  injection Hd as <-. cbn in Hi. by apply elem_of_nil in Hi.
Qed.

(** A pass over the example queue leaves every Step created. *)
Lemma created_assertion_never_fails_witness :
  acyclic exampleEnv exampleRank
  ∧ getQueuedBuilds exampleEnv 5 0 exampleWorld = Ok (6%N, exampleAfterPass)
  ∧ allCreated exampleAfterPass.
Proof.
  split; [exact exampleRank_acyclic|].
  assert (getQueuedBuilds exampleEnv 5 0 exampleWorld
          = Ok (6%N, exampleAfterPass)) as Hrun by (vm_compute; reflexivity).
  split; [exact Hrun|].
  destruct (created_assertion_never_fails exampleEnv exampleRank
              exampleRank_acyclic 5) as (Hall & _ & Hpass & _).
  specialize (Hpass 0%N exampleWorld Hall). rewrite Hrun in Hpass.
  exact Hpass.
Defined.

(** ** Sharing: at most one Step for a derivation path *)

Lemma drvPath_addReferrers rb rs s : drvPath (addReferrers rb rs s) = drvPath s.
Proof. unfold addReferrers. by destruct rb, rs. Qed.

Lemma builds_addReferrers rb rs s :
  builds (addReferrers rb rs s) = builds s ++ referrers rb.
Proof.
  unfold addReferrers. destruct rb, rs; simpl; by rewrite ?app_nil_r.
Qed.

Lemma rdeps_addReferrers rb rs s :
  rdeps (addReferrers rb rs s) = rdeps s ++ referrers rs.
Proof.
  unfold addReferrers. destruct rb, rs; simpl; by rewrite ?app_nil_r.
Qed.

Lemma extends_heapFresh x w x' w' :
  extends x w x' w' → heapFresh w → heapFresh w'.
Proof.
  intros (_ & N & _ & _ & _ & _ & _ & HN & _) Hf a Ha.
  destruct (HN a Ha) as [Hold|?]; [|lia]. apply Hf in Hold. lia.
Qed.

Lemma lockStep_same w w' p :
  heap w' = heap w → steps_ w' = steps_ w → lockStep w' p = lockStep w p.
Proof. intros Hh Hs. unfold lockStep. by rewrite Hh, Hs. Qed.

(** The sharing invariant reads the Step Graph only. *)
Lemma sharing_same x w w' :
  heap w' = heap w → steps_ w' = steps_ w → next w' = next w →
  sharing w ∧ finishedOk x w → sharing w' ∧ finishedOk x w'.
Proof.
  intros Hh Hs Hn [(HF & SF & MC & US) FO].
  unfold sharing, heapFresh, stepsFresh, mapConsistent, uniqueSteps,
    finishedOk.
  setoid_rewrite (lockStep_same w w' _ Hh Hs). rewrite Hh, Hs, Hn. done.
Qed.

Section Sharing.
Context (E : Env).

Lemma sharing_linkFound p rb rs a s x w :
  lockStep w p = Some (a, s) → (p ∉ finishedDrvs x) →
  sharing w ∧ finishedOk x w →
  sharing (linkFound p rb rs a s w) ∧ finishedOk x (linkFound p rb rs a s w).
Proof.
  intros Hl Hp [(HF & SF & MC & US) FO].
  pose proof (extends_linkFound p rb rs a s x w Hl) as Hext.
  pose proof Hl as [Hst Hs]%lockStep_Some.
  assert (steps_ (linkFound p rb rs a s w) = steps_ w) as Hsteps.
  { simpl. by apply insert_id. }
  split; [split; [|split; [|split]]|].
  - by eapply extends_heapFresh.
  - by eapply extends_stepsFresh.
  - intros q a' s' [Hq Ha']%lockStep_Some. rewrite Hsteps in Hq.
    simpl in Ha'. destruct (decide (a' = a)) as [->|Hne].
    + rewrite lookup_insert_eq in Ha'. injection Ha' as <-.
      rewrite drvPath_addReferrers. apply (MC q a s). by apply lockStep_Some.
    + rewrite lookup_insert_ne in Ha' by done. apply (MC q a' s').
      by apply lockStep_Some.
  - intros a' s' Ha'. rewrite Hsteps. simpl in Ha'.
    destruct (decide (a' = a)) as [->|Hne].
    + rewrite lookup_insert_eq in Ha'. injection Ha' as <-.
      rewrite drvPath_addReferrers. by apply US.
    + rewrite lookup_insert_ne in Ha' by done. by apply US.
  - intros q Hq. specialize (FO q Hq). apply lockStep_None.
    rewrite Hsteps. simpl. apply lockStep_None in FO as [?|(a' & Hq' & Ha')];
      [by left|].
    right. exists a'. split; [done|]. rewrite lookup_insert_ne; [done|].
    intros <-. congruence.
Qed.

Lemma sharing_allocStep p rb rs d x w :
  lockStep w p = None → (p ∉ finishedDrvs x) →
  sharing w ∧ finishedOk x w →
  sharing (allocStep E p rb rs d w)
  ∧ finishedOk {| finishedDrvs := finishedDrvs x;
                  newSteps := {[next w]} ∪ newSteps x |}
      (allocStep E p rb rs d w).
Proof.
  intros Hl Hp [(HF & SF & MC & US) FO].
  pose proof (extends_allocStep E p rb rs d x w) as Hext.
  split; [split; [|split; [|split]]|].
  - by eapply extends_heapFresh.
  - by eapply extends_stepsFresh.
  - intros q a' s' Hl'.
    destruct (lockStep_allocStep E p rb rs d w q a' s' SF Hl Hl')
      as [(-> & _ & ->)|(_ & _ & Hl0)]; [|by eapply MC].
    change (drvPath (initStep E d (addReferrers rb rs (new_Step p))))
      with (drvPath (addReferrers rb rs (new_Step p))).
    by rewrite drvPath_addReferrers.
  - intros a' s' Ha'. simpl in Ha'. simpl.
    destruct (decide (a' = next w)) as [->|Hne].
    + rewrite lookup_insert_eq in Ha'. injection Ha' as <-.
      change (drvPath (initStep E d (addReferrers rb rs (new_Step p))))
        with (drvPath (addReferrers rb rs (new_Step p))).
      rewrite drvPath_addReferrers. simpl. apply lookup_insert_eq.
    + rewrite lookup_insert_ne in Ha' by done.
      pose proof (US a' s' Ha') as Hst.
      rewrite lookup_insert_ne; [done|]. intros Heq.
      assert (lockStep w (drvPath s') = Some (a', s'))
        by (by apply lockStep_Some).
      congruence.
  - intros q Hq. simpl in Hq. specialize (FO q Hq). apply lockStep_None.
    simpl. assert (q ≠ p) as Hne by (intros ->; done).
    rewrite lookup_insert_ne by done.
    apply lockStep_None in FO as [?|(a' & Hq' & Ha')]; [by left|].
    right. exists a'. split; [done|]. pose proof (SF q a' Hq').
    rewrite lookup_insert_ne by lia. done.
Qed.

(** Changes of a live Step that keep its path keep the sharing. *)
Lemma sharing_alter (f : Step → Step) a x w :
  (∀ s, drvPath (f s) = drvPath s) →
  sharing w ∧ finishedOk x w →
  sharing (set_heap (alter f a (heap w)) w)
  ∧ finishedOk x (set_heap (alter f a (heap w)) w).
Proof.
  intros Hf [(HF & SF & MC & US) FO].
  split; [split; [|split; [|split]]|].
  - intros a' Ha'. simpl in Ha'. apply lookup_alter_is_Some in Ha'. by apply HF.
  - done.
  - intros q a' s' [Hq Ha']%lockStep_Some. simpl in Hq, Ha'.
    apply lookup_alter_Some in Ha' as [(-> & s0 & Hs0 & ->)|[Hne Ha']].
    + rewrite Hf. apply (MC q a' s0). by apply lockStep_Some.
    + apply (MC q a' s'). by apply lockStep_Some.
  - intros a' s' Ha'. simpl in Ha'. simpl.
    apply lookup_alter_Some in Ha' as [(-> & s0 & Hs0 & ->)|[Hne Ha']].
    + rewrite Hf. by apply US.
    + by apply US.
  - intros q Hq. specialize (FO q Hq). apply lockStep_None. simpl.
    apply lockStep_None in FO as [?|(a' & Hq' & Ha')]; [by left|].
    right. exists a'. split; [done|]. by apply lookup_alter_None.
Qed.

Lemma sharing_finishStep a x w w' :
  finishStep a w = Ok w' →
  sharing w ∧ finishedOk x w → sharing w' ∧ finishedOk x w'.
Proof.
  intros H Hsh. apply finishStep_Ok in H
    as (s & Hs & Hc & Hh & Hr & Hg & Hn & Hst).
  pose proof (sharing_alter (set_created true) a x w (λ _, eq_refl) Hsh)
    as [(HF & SF & MC & US) FO].
  assert (heap w' = alter (set_created true) a (heap w)) as Hh'.
  { rewrite Hh. apply map_eq. intros i. destruct (decide (i = a)) as [->|Hne].
    - by rewrite lookup_insert_eq, lookup_alter_eq, Hs.
    - by rewrite lookup_insert_ne, lookup_alter_ne. }
  eapply sharing_same; [| | |exact (conj (conj HF (conj SF (conj MC US))) FO)];
    done.
Qed.

Lemma sharing_valid p rb rs d x w :
  lockStep w p = None →
  sharing w ∧ finishedOk x w →
  sharing (set_heap (delete (next w) (heap (allocStep E p rb rs d w)))
             (allocStep E p rb rs d w))
  ∧ finishedOk
      {| finishedDrvs := {[p]} ∪ finishedDrvs x; newSteps := newSteps x |}
      (set_heap (delete (next w) (heap (allocStep E p rb rs d w)))
         (allocStep E p rb rs d w)).
Proof.
  intros Hl [(HF & SF & MC & US) FO].
  pose proof (extends_valid E p rb rs d x w) as Hext.
  assert (∀ a', a' ≠ next w →
            delete (next w) (heap (allocStep E p rb rs d w)) !! a'
            = heap w !! a') as Hheap.
  { intros a' Hne. simpl. rewrite delete_insert_eq.
    by rewrite lookup_delete_ne. }
  assert (delete (next w) (heap (allocStep E p rb rs d w)) !! next w = None)
    as Hdead by apply lookup_delete_eq.
  split; [split; [|split; [|split]]|].
  - by eapply extends_heapFresh.
  - by eapply extends_stepsFresh.
  - intros q a' s' [Hq Ha']%lockStep_Some. cbn [steps_ heap set_heap] in Hq, Ha'.
    destruct (decide (a' = next w)) as [->|Hne]; [congruence|].
    rewrite Hheap in Ha' by done. simpl in Hq.
    destruct (decide (q = p)) as [->|Hqp].
    + rewrite lookup_insert_eq in Hq. congruence.
    + rewrite lookup_insert_ne in Hq by done. apply (MC q a' s').
      by apply lockStep_Some.
  - intros a' s' Ha'. cbn [steps_ heap set_heap] in *.
    destruct (decide (a' = next w)) as [->|Hne]; [congruence|].
    rewrite Hheap in Ha' by done. pose proof (US a' s' Ha') as Hst.
    simpl. rewrite lookup_insert_ne; [done|]. intros Heq.
    assert (lockStep w (drvPath s') = Some (a', s'))
      by (by apply lockStep_Some).
    congruence.
  - intros q Hq. apply lockStep_None. cbn [steps_ heap set_heap]. simpl.
    destruct (decide (q = p)) as [->|Hqp].
    + right. exists (next w). rewrite lookup_insert_eq. split; [done|].
      rewrite delete_insert_eq. apply lookup_delete_eq.
    + rewrite lookup_insert_ne by done.
      assert (q ∈ finishedDrvs x) as Hq' by set_solver.
      specialize (FO q Hq'). apply lockStep_None in FO
        as [?|(a' & Hq'' & Ha')]; [by left|].
      right. exists a'. split; [done|]. rewrite delete_insert_eq.
      apply lookup_delete_None. by right.
Qed.

Lemma createDeps_sharing rec a :
  (∀ p rb rs x w r x' w',
     sharing w ∧ finishedOk x w →
     rec p rb rs x w = Ok (r, x', w') → sharing w' ∧ finishedOk x' w') →
  ∀ inputs x w x' w',
    sharing w ∧ finishedOk x w →
    createDeps rec a inputs x w = Ok (x', w') →
    sharing w' ∧ finishedOk x' w'.
Proof.
  intros Hrec. induction inputs as [|i rest IH]; intros x w x' w' Hsh H.
  - by injection H as <- <-.
  - apply createDeps_Ok_inv in H as (dep & x1 & w1 & H1 & H2).
    apply Hrec in H1; [|done]. eapply IH; [|exact H2].
    destruct dep as [d|]; [|done].
    by apply (sharing_alter (λ s, set_deps ({[d]} ∪ deps s) s)).
Qed.

Lemma createStep_sharing fuel : ∀ p rb rs x w r x' w',
  sharing w ∧ finishedOk x w →
  createStep E fuel p rb rs x w = Ok (r, x', w') →
  sharing w' ∧ finishedOk x' w'.
Proof.
  induction fuel as [|fuel IH]; intros p rb rs x w r x' w' Hsh H;
    [discriminate|].
  apply createStep_Ok_inv in H
    as [(_ & _ & -> & ->)
       |[(Hp & a & s & Hl & _ & _ & -> & ->)
        |(Hp & Hl & d & _ & [(_ & _ & -> & ->)
                            |(_ & x2 & w3 & Hd & Hf & _ & ->)])]].
  - done.
  - by apply sharing_linkFound.
  - by apply sharing_valid.
  - eapply sharing_finishStep; [exact Hf|].
    eapply (createDeps_sharing _ _ IH); [|exact Hd].
    by apply sharing_allocStep.
Qed.

(** The Step that [createStep] returns for a path is alive, is a Step of
    that path and lists the referring build. *)
Lemma createStep_returned fuel p rb rs x w a x' w' :
  sharing w →
  createStep E fuel p rb rs x w = Ok (Some a, x', w') →
  ∃ s, heap w' !! a = Some s ∧ drvPath s = p
    ∧ ∀ i, rb = Some i → i ∈ builds s.
Proof.
  intros (HF & SF & MC & US) H. destruct fuel as [|fuel]; [discriminate|].
  apply createStep_Ok_inv in H
    as [(_ & [=] & _)
       |[(_ & a' & s & Hl & Hc & [= <-] & -> & ->)
        |(_ & Hl & d & _ & [(_ & [=] & _)
                           |(_ & x2 & w3 & Hd & Hf & [= ->] & ->)])]].
  - exists (addReferrers rb rs s). simpl. rewrite lookup_insert_eq.
    split; [done|]. rewrite drvPath_addReferrers, builds_addReferrers.
    split; [by eapply MC|]. intros i ->. apply elem_of_app. right. by left.
  - apply (createDeps_extends _ _ (createStep_extends E fuel)) in Hd
      as (_ & _ & _ & _ & _ & _ & _ & _ & HG & _).
    destruct (HG (next w) (initStep E d (addReferrers rb rs (new_Step p))))
      as (s3 & Hs3 & Hp3 & Hb3 & _).
    { simpl. lia. }
    { simpl. apply lookup_insert_eq. }
    apply finishStep_Ok in Hf as (s & Hs & _ & Hh & _).
    assert (s = s3) as -> by congruence.
    exists (set_created true s3). rewrite Hh, lookup_insert_eq.
    split; [done|]. simpl. split.
    + rewrite Hp3.
      change (drvPath (initStep E d (addReferrers rb rs (new_Step p))))
        with (drvPath (addReferrers rb rs (new_Step p))).
      by rewrite drvPath_addReferrers.
    + intros i ->. eapply elem_of_prefix; [|exact Hb3].
      change (builds (initStep E d (addReferrers (Some i) rs (new_Step p))))
        with (builds (addReferrers (Some i) rs (new_Step p))).
      rewrite builds_addReferrers. simpl. by left.
Qed.

End Sharing.

(** ** The registry owns live top-level Steps *)

Lemma keptStep_refl s : keptStep s s.
Proof. by split. Qed.

Lemma keptStep_trans s1 s2 s3 : keptStep s1 s2 → keptStep s2 s3 → keptStep s1 s3.
Proof. intros [P1 B1] [P2 B2]. split; [congruence | auto]. Qed.

Lemma stepGrows_kept s s' : stepGrows s s' → keptStep s s'.
Proof.
  intros (Hp & Hb & _). split; [done|]. intros i Hi.
  by eapply elem_of_prefix.
Qed.

Lemma priorityMono_kept s s' : priorityMono s s' → keptStep s s'.
Proof.
  intros (_ & _ & _ & _ & Hp & _ & _ & _ & _ & _ & _ & Hb).
  split; [done|]. by rewrite Hb.
Qed.

Lemma keeps_refl k w : keeps k w w.
Proof. intros a s _ Hs. exists s. split; [done | apply keptStep_refl]. Qed.

Lemma keeps_trans k w1 w2 w3 : keeps k w1 w2 → keeps k w2 w3 → keeps k w1 w3.
Proof.
  intros H1 H2 a s Ha Hs. destruct (H1 a s Ha Hs) as (s2 & Hs2 & K12).
  destruct (H2 a s2 Ha Hs2) as (s3 & Hs3 & K23).
  exists s3. split; [done | by eapply keptStep_trans].
Qed.

Lemma keeps_mono k k' w w' : k' ⊆ k → keeps k w w' → keeps k' w w'.
Proof. intros Hsub H a s Ha Hs. apply H; [by apply Hsub | done]. Qed.

Lemma keeps_same k w w' : heap w' = heap w → keeps k w w'.
Proof.
  intros Hh a s _ Hs. exists s. rewrite Hh. split; [done | apply keptStep_refl].
Qed.

Lemma keeps_extends k x w x' w' :
  heapFresh w → extends x w x' w' → keeps k w w'.
Proof.
  intros HF (_ & _ & _ & _ & _ & _ & _ & _ & HG & _) a s _ Hs.
  destruct (HG a s) as (s' & Hs' & Hg); [apply HF; eauto | done |].
  exists s'. split; [done | by apply stepGrows_kept].
Qed.

Lemma keeps_dropRefs k dropped remaining w :
  k ⊆ remaining →
  keeps k w (set_heap (dropRefs dropped remaining (heap w)) w).
Proof.
  intros Hsub a s Ha Hs. exists s. split; [|apply keptStep_refl].
  simpl. apply dropRefs_keeps; [by apply Hsub | done].
Qed.

Lemma elem_of_registryRoots w i b a :
  builds_ w !! i = Some b → toplevel b = Some a → a ∈ registryRoots w.
Proof.
  intros Hb Ht. unfold registryRoots. apply elem_of_list_to_set.
  apply list_elem_of_omap. exists (i, b). split; [|done].
  by apply elem_of_map_to_list.
Qed.

Lemma registryRoots_same w w' :
  builds_ w' = builds_ w → registryRoots w' = registryRoots w.
Proof. intros H. unfold registryRoots. by rewrite H. Qed.

Lemma admitted_keeps w w' :
  builds_ w' = builds_ w → admitted w → keeps (registryRoots w) w w' →
  admitted w'.
Proof.
  intros Hb Hadm Hk i b Hi. rewrite Hb in Hi.
  destruct (Hadm i b Hi) as (Hid & a & s & Ht & Hs & Hp & Hin).
  split; [done|].
  destruct (Hk a s) as (s' & Hs' & Hp' & Hin'); [|done|].
  { by eapply elem_of_registryRoots. }
  exists a, s'. split; [done|]. split; [done|]. split; [congruence | auto].
Qed.

Lemma admitted_insert w b a s :
  admitted w → heap w !! a = Some s → drvPath s = build_drvPath b →
  build_id b ∈ builds s →
  admitted (set_builds
              (<[build_id b := set_toplevel (Some a) b]> (builds_ w)) w).
Proof.
  intros Hadm Hs Hp Hin i b' Hi. simpl in Hi. simpl.
  apply lookup_insert_Some in Hi as [[<- <-]|[Hne Hi]]; [|by apply Hadm].
  split; [done|]. exists a, s. by repeat split.
Qed.

Lemma sharing_pointwise w w' :
  steps_ w' = steps_ w → next w' = next w →
  (∀ a, match heap w !! a with
        | Some s => ∃ s', heap w' !! a = Some s' ∧ drvPath s' = drvPath s
        | None => heap w' !! a = None
        end) →
  sharing w → sharing w'.
Proof.
  intros Hst Hn Hpt (HF & SF & MC & US).
  assert (∀ a s', heap w' !! a = Some s' →
            ∃ s, heap w !! a = Some s ∧ drvPath s' = drvPath s) as Hback.
  { intros a s' Hs'. specialize (Hpt a). destruct (heap w !! a) as [s|];
      [|congruence].
    destruct Hpt as (s'' & Hs'' & Hp). exists s. split; [done|]. congruence. }
  split; [|split; [|split]].
  - intros a [s' Hs']. rewrite Hn. apply HF.
    destruct (Hback a s' Hs') as (s & Hs & _). eauto.
  - intros q a Hq. rewrite Hn. apply (SF q a). by rewrite <- Hst.
  - intros q a s' [Hq Ha]%lockStep_Some.
    destruct (Hback a s' Ha) as (s & Hs & ->). apply (MC q a s).
    apply lockStep_Some. by rewrite <- Hst.
  - intros a s' Ha. destruct (Hback a s' Ha) as (s & Hs & ->).
    rewrite Hst. by apply US.
Qed.

Lemma sharing_subheap w w' :
  steps_ w' = steps_ w → next w' = next w → heap w' ⊆ heap w →
  sharing w → sharing w'.
Proof.
  intros Hst Hn Hsub (HF & SF & MC & US).
  split; [|split; [|split]].
  - intros a Ha. rewrite Hn. apply HF. by eapply lookup_weaken_is_Some.
  - intros q a Hq. rewrite Hn. apply (SF q a). by rewrite <- Hst.
  - intros q a s' [Hq Ha]%lockStep_Some. apply (MC q a s').
    apply lockStep_Some. rewrite <- Hst. split; [done|].
    by eapply lookup_weaken.
  - intros a s' Ha. rewrite Hst. apply US. by eapply lookup_weaken.
Qed.

(** The invariant reads the Step Graph and the registry only. *)
Lemma graphInv_same w w' :
  heap w' = heap w → steps_ w' = steps_ w → next w' = next w →
  builds_ w' = builds_ w → graphInv w → graphInv w'.
Proof.
  intros Hh Hs Hn Hb [Hsh Hadm]. split.
  - apply (sharing_same emptyExpansion w w' Hh Hs Hn). split; [done|].
    intros p Hp. simpl in Hp. set_solver.
  - apply (admitted_keeps w w' Hb Hadm). by apply keeps_same.
Qed.

(** Steps die, but none that the registry owns. *)
Lemma graphInv_dropRefs dropped remaining w :
  registryRoots w ⊆ remaining →
  graphInv w →
  graphInv (set_heap (dropRefs dropped remaining (heap w)) w).
Proof.
  intros Hsub [Hsh Hadm]. split.
  - eapply sharing_subheap; [| | |exact Hsh]; [done..|].
    apply dropRefs_subseteq.
  - apply (admitted_keeps w
             (set_heap (dropRefs dropped remaining (heap w)) w) eq_refl Hadm).
    by apply keeps_dropRefs.
Qed.

Section Registry.
Context (E : Env).

Lemma propagatePriorities_inv k b w w' :
  propagatePriorities E b w = Ok w' →
  graphInv w → graphInv w' ∧ keeps k w w'.
Proof.
  intros H [Hsh Hadm].
  apply propagatePriorities_pointwise in H as (Hpt & Hw).
  assert (∀ k', keeps k' w w') as Hk.
  { intros k' a s _ Hs. specialize (Hpt a). rewrite Hs in Hpt.
    destruct Hpt as (s' & Hs' & Hm). exists s'. split; [done|].
    by apply priorityMono_kept. }
  split; [|done]. split.
  - eapply sharing_pointwise; [| | |exact Hsh]; [by rewrite Hw..|].
    intros a. specialize (Hpt a). destruct (heap w !! a) as [s|]; [|done].
    destruct Hpt as (s' & Hs' & Hm). exists s'. split; [done|].
    by destruct (priorityMono_kept _ _ Hm).
  - apply (admitted_keeps w w'); [by rewrite Hw | done..].
Qed.

Lemma leave_inv held x step w :
  graphInv w → graphInv (leave held x step w) ∧ keeps held w (leave held x step w).
Proof.
  intros Hinv. unfold leave. split.
  - apply graphInv_dropRefs; [|done]. unfold owners. set_solver.
  - apply keeps_dropRefs. unfold owners. set_solver.
Qed.

Lemma loadNested_inv (rec : Build → World → result (Build * World)) k :
  (∀ b w b' w',
     graphInv w → rec b w = Ok (b', w') → graphInv w' ∧ keeps k w w') →
  ∀ l w w',
    graphInv w → loadNested rec l w = Ok w' → graphInv w' ∧ keeps k w w'.
Proof.
  intros Hrec. induction l as [|r l IH]; intros w w' Hinv H.
  - injection H as <-. split; [done | apply keeps_refl].
  - cbn [loadNested] in H. destruct (heap w !! r) as [s|]; [|done].
    destruct (findByPath (drvPath s) (newBuildsByPath w)) as [i|]; [|eauto].
    destruct (newBuildsByID w !! i) as [b|]; [|eauto].
    apply bind_Ok in H as ([b' w1] & Hr & H).
    destruct (Hrec _ _ _ _ Hinv Hr) as [Hinv1 Hk1].
    destruct (IH _ _ Hinv1 H) as [Hinv2 Hk2].
    split; [done | by eapply keeps_trans].
Qed.

Lemma createBuild_inv depth fuel : ∀ held b w b' w',
  graphInv w →
  createBuild E depth fuel held b w = Ok (b', w') →
  graphInv w' ∧ keeps held w w'.
Proof.
  induction fuel as [|fuel IH]; intros held b w b' w' Hinv H; [discriminate|].
  destruct (isValidPath E (build_drvPath b)) eqn:Hv.
  2:{ rewrite (createBuild_invalid E depth fuel held b w Hv) in H.
      destruct (finishedInDB b); injection H as <- <-;
        (split; [by eapply graphInv_same | by apply keeps_same]). }
  apply createBuild_valid_inv in H as (step & x & w1 & w2 & Hs & Hn & H);
    [|done].
  assert (graphInv (enter b w)) as Hinv0 by (by eapply graphInv_same).
  pose proof (createStep_extends E _ _ _ _ _ _ _ _ _ Hs) as Hext.
  assert (∀ k, keeps k w w1) as Hk01.
  { intros k. apply (keeps_trans k w (enter b w) w1); [by apply keeps_same|].
    eapply keeps_extends; [|exact Hext]. by destruct Hinv0 as [(? & _) _]. }
  assert (graphInv w1) as Hinv1.
  { destruct Hinv0 as [Hsh0 Hadm0]. split.
    - eapply (createStep_sharing E); [|exact Hs]. split; [done|].
      intros p Hp. simpl in Hp. set_solver.
    - apply (admitted_keeps (enter b w) w1); [|exact Hadm0|].
      + by destruct Hext as (-> & _).
      + eapply keeps_extends; [|exact Hext]. by destruct Hsh0. }
  destruct (loadNested_inv _ _ (IH _) _ _ _ Hinv1 Hn) as [Hinv2 Hk12].
  assert (keeps held w w2) as Hk02.
  { eapply keeps_trans; [apply Hk01|]. eapply keeps_mono; [|exact Hk12].
    set_solver. }
  destruct step as [a|].
  - destruct H as (bad & b2 & w3 & Hc & H).
    assert (heap w3 = heap w2 ∧ steps_ w3 = steps_ w2 ∧ next w3 = next w2
            ∧ builds_ w3 = builds_ w2 ∧ (bad = false → b2 = b))
      as (Hh3 & Hs3 & Hn3 & Hb3 & Hb2).
    { apply checkSteps_Ok in Hc. destruct bad.
      - destruct Hc as (pre & r & post & s & _ & _ & _ & _ & Hc).
        destruct (finishedInDB b); destruct Hc as [-> ->]; by repeat split.
      - destruct Hc as (-> & -> & _). by repeat split. }
    assert (graphInv w3) as Hinv3 by (by eapply graphInv_same).
    assert (keeps held w w3) as Hk03.
    { eapply keeps_trans; [exact Hk02 | by apply keeps_same]. }
    destruct bad.
    + destruct H as [-> ->].
      destruct (leave_inv held x (Some a) w3 Hinv3) as [Hinv' Hk'].
      split; [done | by eapply keeps_trans].
    + destruct H as (-> & w4 & Hp & ->). rewrite (Hb2 eq_refl) in *.
      set (wA := if finishedInDB b then w3
                 else set_builds
                        (<[build_id b := set_toplevel (Some a) b]>
                           (builds_ w3)) w3) in *.
      assert (graphInv wA ∧ heap wA = heap w3) as [HinvA HhA].
      { unfold wA. destruct (finishedInDB b); [done|]. split; [|done].
        destruct Hinv3 as [Hsh3 Hadm3]. split.
        - apply (sharing_same emptyExpansion w3); [done..|]. split; [done|].
          intros p Hin. simpl in Hin. set_solver.
        - destruct Hinv0 as [Hsh0 _].
          destruct (createStep_returned E _ _ _ _ _ _ _ _ _ Hsh0 Hs)
            as (s1 & Hs1 & Hp1 & Hin1).
          destruct (Hk12 a s1) as (s2 & Hs2 & Hp2 & Hin2);
            [set_solver | done |].
          rewrite <- Hh3 in Hs2.
          eapply admitted_insert; [done | exact Hs2 | congruence |].
          apply Hin2, Hin1. done. }
      destruct (propagatePriorities_inv held _ _ _ Hp HinvA) as [Hinv4 Hk4].
      destruct (leave_inv held x (Some a) w4 Hinv4) as [Hinv' Hk'].
      split; [done|].
      eapply keeps_trans; [exact Hk03|].
      eapply keeps_trans; [by apply keeps_same|].
      by eapply keeps_trans.
  - destruct H as (_ & -> & ->).
    set (w3 := set_db _ (set_clock _ w2)).
    assert (graphInv w3) as Hinv3 by (by eapply graphInv_same).
    destruct (leave_inv held x None w3 Hinv3) as [Hinv' Hk'].
    split; [done|].
    eapply keeps_trans; [exact Hk02|].
    eapply keeps_trans; [|exact Hk']. by apply keeps_same.
Qed.

End Registry.

(** ** The sharing invariant over passes and reconciliations *)

Section SharingInvariant.
Context (E : Env).

Lemma loadBuilds_inv depth ids : ∀ w w',
  graphInv w → loadBuilds E depth ids w = Ok w' → graphInv w'.
Proof.
  induction ids as [|i ids IH]; intros w w' Hinv H.
  - by injection H as <-.
  - cbn [loadBuilds] in H. destruct (newBuildsByID w !! i) as [b|]; [|eauto].
    apply bind_Ok in H as ([b' w1] & Hc & H).
    apply createBuild_inv in Hc as [Hinv1 _].
    + eapply IH; [|exact H]. rewrite foldl_makeRunnable.
      by eapply graphInv_same.
    + unfold clearNewRunnable.
      eapply (graphInv_same
                (set_heap (dropRefs (newRunnable w) (registryRoots w)
                             (heap w)) w)); [done..|].
      by apply graphInv_dropRefs.
Qed.

Lemma readRows_inv rows : ∀ last ids w,
  graphInv w → graphInv (readRows E rows last ids w).2.
Proof.
  induction rows as [|[i r] rows IH]; intros last ids w Hinv; [done|].
  cbn [readRows]. destruct (_ && _); [by apply IH|].
  case_decide; [by apply IH|]. apply IH. by eapply graphInv_same.
Qed.

Lemma getQueuedBuilds_inv depth last w last' w' :
  graphInv w → getQueuedBuilds E depth last w = Ok (last', w') → graphInv w'.
Proof.
  intros Hinv H. unfold getQueuedBuilds in H. fold (startPass w) in H.
  pose proof (readRows_inv (queryQueue (db (startPass w)) last) last []
                (startPass w)) as Hrows.
  destruct (readRows E _ last [] (startPass w)) as [[last1 ids] w1].
  cbn [snd] in Hrows.
  apply bind_Ok in H as (w2 & Hload & [= <- <-]).
  apply graphInv_dropRefs; [done|].
  eapply loadBuilds_inv; [|exact Hload]. apply Hrows.
  by eapply graphInv_same.
Qed.

Lemma reconcile_inv cur ids : ∀ w w',
  graphInv w → reconcile E cur ids w = Ok w' → graphInv w'.
Proof.
  induction ids as [|i ids IH]; intros w w' Hinv H.
  - by injection H as <-.
  - cbn [reconcile] in H. destruct (builds_ w !! i) as [b|] eqn:Hb; [|eauto].
    destruct Hinv as [Hsh Hadm].
    destruct (cur !! i) as [p|].
    + case_decide; [|by eapply IH].
      apply bind_Ok in H as (w2 & Hprop & H).
      apply (propagatePriorities_inv E ∅) in Hprop as [Hinv2 _];
        [by eapply IH|].
      split.
      * exact Hsh.
      * intros j b' Hj. simpl in Hj. simpl.
        apply lookup_insert_Some in Hj as [[<- <-]|[Hne Hj]];
          [|by apply Hadm].
        destruct (Hadm i b Hb) as (Hid & a & s & Ht & Hs & Hps & Hin).
        split; [done|]. by exists a, s.
    + eapply IH; [|exact H]. apply graphInv_dropRefs; [done|]. split.
      * exact Hsh.
      * intros j b' Hj. simpl in Hj. simpl.
        apply lookup_delete_Some in Hj as [Hne Hj]. by apply Hadm.
Qed.

Lemma processQueueChange_inv w w' :
  graphInv w → processQueueChange E w = Ok w' → graphInv w'.
Proof.
  intros Hinv H. unfold processQueueChange in H.
  apply bind_Ok in H as (cur & _ & H). by eapply reconcile_inv.
Qed.

(** C1. A live Step that the Step Graph registers for a path is the one
    that [createStep] returns for the path: the call allocates nothing
    and, under the lock of the Step, appends the referring build to
    [builds] and the referring step to [rdeps] (the assertion requires the
    Step to be created). Hence [createStep] keeps [sharing]: every live
    Step is the one registered for its path, so that no two live Steps
    have the same derivation path. With it the invariant [graphInv]
    holds at start-up and after every pass and every reconciliation:
    two builds of the registry with the same derivation path have the
    same top-level Step, whose [builds] list names both. *)
Theorem step_sharing depth :
  (∀ fuel p rb rs x w a s,
     finishedOk x w → lockStep w p = Some (a, s) →
     createStep E (S fuel) p rb rs x w =
       (if created s then Ok (Some a, x, linkFound p rb rs a s w)
        else Err AssertionFailed)
     ∧ next (linkFound p rb rs a s w) = next w
     ∧ ∃ s', heap (linkFound p rb rs a s w) !! a = Some s'
         ∧ builds s' = builds s ++ referrers rb
         ∧ rdeps s' = rdeps s ++ referrers rs)
  ∧ (∀ fuel p rb rs x w r x' w',
       sharing w → finishedOk x w →
       createStep E fuel p rb rs x w = Ok (r, x', w') →
       sharing w' ∧ finishedOk x' w')
  ∧ graphInv initialWorld
  ∧ (∀ last w last' w',
       graphInv w → getQueuedBuilds E depth last w = Ok (last', w') →
       graphInv w')
  ∧ (∀ w w', graphInv w → processQueueChange E w = Ok w' → graphInv w')
  ∧ (∀ w a1 a2 s1 s2,
       sharing w →
       heap w !! a1 = Some s1 → heap w !! a2 = Some s2 →
       drvPath s1 = drvPath s2 → a1 = a2)
  ∧ (∀ w i j bi bj,
       graphInv w →
       builds_ w !! i = Some bi → builds_ w !! j = Some bj →
       build_drvPath bi = build_drvPath bj →
       ∃ a s, toplevel bi = Some a ∧ toplevel bj = Some a
         ∧ heap w !! a = Some s ∧ drvPath s = build_drvPath bi
         ∧ i ∈ builds s ∧ j ∈ builds s).
Proof.
  split.
  { intros fuel p rb rs x w a s FO Hl. split.
    - cbn [createStep]. rewrite decide_False.
      2:{ intros Hp. specialize (FO p Hp). congruence. }
      rewrite Hl. unfold linkStep. destruct (created s).
      + by rewrite bool_decide_eq_false_2.
      + by rewrite bool_decide_eq_true_2.
    - split; [done|]. exists (addReferrers rb rs s). simpl.
      rewrite lookup_insert_eq, builds_addReferrers, rdeps_addReferrers.
      done. }
  split.
  { intros fuel p rb rs x w r x' w' Hsh FO H.
    by apply (createStep_sharing E fuel p rb rs x w r x' w'). }
  split.
  { split; [split; [|split; [|split]]|].
    - intros a [s Hs]. cbn [heap initialWorld] in Hs.
      by rewrite lookup_empty in Hs.
    - intros q a Hq. cbn [steps_ initialWorld] in Hq.
      by rewrite lookup_empty in Hq.
    - intros q a s [Hq _]%lockStep_Some. cbn [steps_ initialWorld] in Hq.
      by rewrite lookup_empty in Hq.
    - intros a s Hs. cbn [heap initialWorld] in Hs.
      by rewrite lookup_empty in Hs.
    - intros i b Hb. cbn [builds_ initialWorld] in Hb.
      by rewrite lookup_empty in Hb. }
  split; [apply getQueuedBuilds_inv|].
  split; [apply processQueueChange_inv|].
  split.
  - intros w a1 a2 s1 s2 (HF & SF & MC & US) H1 H2 Hp.
    pose proof (US a1 s1 H1) as Hu1. pose proof (US a2 s2 H2) as Hu2.
    congruence.
  - intros w i j bi bj [(HF & SF & MC & US) Hadm] Hi Hj Hp.
    destruct (Hadm i bi Hi) as (_ & a & s & Ht & Hs & Hps & Hin).
    destruct (Hadm j bj Hj) as (_ & a' & s' & Ht' & Hs' & Hps' & Hin').
    pose proof (US a s Hs) as Hu. pose proof (US a' s' Hs') as Hu'.
    assert (a' = a) as -> by congruence.
    assert (s' = s) as -> by congruence.
    exists a, s. by repeat split.
Qed.

End SharingInvariant.

(** Builds 1 and 7 of the example have the same derivation: the pass
    that loads build 7 finds the Step of build 1 and shares it. *)
Lemma step_sharing_witness :
  getQueuedBuilds exampleEnv 5 6 exampleSecondQueue = Ok (7%N, exampleShared)
  ∧ graphInv exampleShared
  ∧ (toplevel <$> builds_ exampleShared !! 1%N) = Some (Some 3)
  ∧ (toplevel <$> builds_ exampleShared !! 7%N) = Some (Some 3)
  ∧ (builds <$> heap exampleShared !! 3) = Some [1%N; 7%N].
Proof.
  destruct (step_sharing exampleEnv 5) as (_ & _ & H0 & Hpass & _).
  assert (getQueuedBuilds exampleEnv 5 0 exampleWorld
          = Ok (6%N, exampleAfterPass)) as Hrun1 by (vm_compute; reflexivity).
  assert (getQueuedBuilds exampleEnv 5 6 exampleSecondQueue
          = Ok (7%N, exampleShared)) as Hrun2 by (vm_compute; reflexivity).
  split; [exact Hrun2|]. split.
  - assert (graphInv exampleWorld) as Hw.
    { apply (graphInv_same initialWorld); [reflexivity..|exact H0]. }
    assert (graphInv exampleAfterPass) as H1
      by exact (Hpass 0%N exampleWorld 6%N exampleAfterPass Hw Hrun1).
    assert (graphInv exampleSecondQueue) as H2.
    { apply (graphInv_same exampleAfterPass);
        [vm_compute; reflexivity..|exact H1]. }
    exact (Hpass 6%N exampleSecondQueue 7%N exampleShared H2 Hrun2).
  - split; [vm_compute; reflexivity|].
    split; vm_compute; reflexivity.
Defined.
(** * Further properties *)

(** ** What [createStep] does to the Steps that exist *)

Lemma referred_refl s : referred s s.
Proof. exists [], []. rewrite !app_nil_r. by destruct s. Qed.

Lemma referred_trans s1 s2 s3 :
  referred s1 s2 → referred s2 s3 → referred s1 s3.
Proof.
  intros (b1 & r1 & ->) (b2 & r2 & ->). exists (b1 ++ b2), (r1 ++ r2).
  unfold set_rdeps, set_step_builds. simpl. by rewrite !app_assoc.
Qed.

Lemma referred_addReferrers rb rs s : referred s (addReferrers rb rs s).
Proof.
  exists (referrers rb), (referrers rs). unfold addReferrers.
  destruct rb, rs, s; simpl; by rewrite ?app_nil_r.
Qed.

Lemma referred_stepGrows s s' : referred s s' → stepGrows s s'.
Proof.
  intros (bs & rs & ->). split; [done|]. split; [|done].
  simpl. by apply prefix_app_r.
Qed.

Section Stepwise.
Context (E : Env) (R : Step → Step → Prop).
Hypothesis R_refl : ∀ s, R s s.
Hypothesis R_trans : ∀ s1 s2 s3, R s1 s2 → R s2 s3 → R s1 s3.
Hypothesis R_link : ∀ rb rs s, R s (addReferrers rb rs s).

Lemma stepwise_refl w : stepwise R w w.
Proof. intros i s _ Hs. eauto. Qed.

Lemma stepwise_trans w1 w2 w3 :
  next w1 ≤ next w2 → stepwise R w1 w2 → stepwise R w2 w3 →
  stepwise R w1 w3.
Proof.
  intros Hn H12 H23 i s Hi Hs. destruct (H12 i s Hi Hs) as (s2 & Hs2 & R12).
  destruct (H23 i s2 ltac:(lia) Hs2) as (s3 & Hs3 & R23). eauto.
Qed.

Lemma stepwise_linkFound p rb rs a s w :
  heap w !! a = Some s → stepwise R w (linkFound p rb rs a s w).
Proof.
  intros Ha i s0 _ Hi. simpl. destruct (decide (i = a)) as [->|Hne].
  - rewrite lookup_insert_eq. eexists; split; [done|].
    assert (s0 = s) as -> by congruence. apply R_link.
  - rewrite lookup_insert_ne by done. eauto.
Qed.

(** The loop over the inputs of the new Step [a] leaves the other Steps
    to the recursive calls. *)
Lemma createDeps_stepwise rec a :
  (∀ p rb rs x w r x' w',
     rec p rb rs x w = Ok (r, x', w') →
     next w ≤ next w' ∧ stepwise R w w') →
  ∀ inputs x w x' w',
    createDeps rec a inputs x w = Ok (x', w') →
    next w ≤ next w'
    ∧ ∀ i s, i < next w → i ≠ a → heap w !! i = Some s →
             ∃ s', heap w' !! i = Some s' ∧ R s s'.
Proof.
  intros Hrec. induction inputs as [|i rest IH]; intros x w x' w' H.
  - injection H as <- <-. split; [done | eauto].
  - apply createDeps_Ok_inv in H as (dep & x1 & w1 & H1 & H2).
    apply Hrec in H1 as [N1 S1]. apply IH in H2 as [N2 S2].
    assert (next (match dep with Some d => addDep a d w1 | None => w1 end)
            = next w1) as Hn by (by destruct dep).
    split; [lia|]. intros j s Hj Hne Hs.
    destruct (S1 j s Hj Hs) as (s1 & Hs1 & R1).
    destruct (S2 j s1) as (s2 & Hs2 & R2); [lia | done | | eauto].
    destruct dep; [|done]. simpl. by rewrite lookup_alter_ne.
Qed.

Lemma createStep_stepwise fuel : ∀ p rb rs x w r x' w',
  createStep E fuel p rb rs x w = Ok (r, x', w') →
  next w ≤ next w' ∧ stepwise R w w'.
Proof.
  induction fuel as [|fuel IH]; intros p rb rs x w r x' w' H; [discriminate|].
  apply createStep_Ok_inv in H
    as [(_ & _ & -> & ->)
       |[(_ & a & s & Hl & _ & _ & -> & ->)
        |(_ & _ & d & _ & [(_ & _ & -> & ->)
                           |(_ & x2 & w3 & Hd & Hf & _ & ->)])]].
  - split; [done | apply stepwise_refl].
  - apply lockStep_Some in Hl as [_ Hs]. split; [done|].
    by apply stepwise_linkFound.
  - split; [simpl; lia|]. intros i s Hi Hs. simpl.
    rewrite lookup_delete_ne by lia. rewrite lookup_insert_ne by lia. eauto.
  - apply (createDeps_stepwise _ _ IH) in Hd as [N S].
    apply finishStep_Ok in Hf as (sa & _ & _ & Hh & _ & _ & Hn & _).
    simpl in N. split; [lia|]. intros i s Hi Hs.
    destruct (S i s) as (s' & Hs' & HR); [simpl; lia | lia | |].
    { simpl. by rewrite lookup_insert_ne by lia. }
    exists s'. split; [|done]. rewrite Hh. by rewrite lookup_insert_ne by lia.
Qed.

End Stepwise.

Lemma sharing_initialWorld : sharing initialWorld.
Proof.
  split; [|split; [|split]].
  - intros a [s Hs]. cbn [heap initialWorld] in Hs.
    by rewrite lookup_empty in Hs.
  - intros q a Hq. cbn [steps_ initialWorld] in Hq.
    by rewrite lookup_empty in Hq.
  - intros q a s [Hq _]%lockStep_Some. cbn [steps_ initialWorld] in Hq.
    by rewrite lookup_empty in Hq.
  - intros a s Hs. cbn [heap initialWorld] in Hs.
    by rewrite lookup_empty in Hs.
Qed.

Lemma finishedOk_empty w : finishedOk emptyExpansion w.
Proof. intros p Hp. by apply elem_of_empty in Hp. Qed.

Section StepGraph.
Context (E : Env).

Lemma createStep_referred fuel p rb rs x w r x' w' :
  createStep E fuel p rb rs x w = Ok (r, x', w') →
  stepwise referred w w'.
Proof.
  intros H.
  by apply (createStep_stepwise E referred referred_refl referred_trans
              referred_addReferrers) in H as [_ ?].
Qed.

Lemma createDeps_referred fuel a inputs x w x' w' :
  createDeps (createStep E fuel) a inputs x w = Ok (x', w') →
  ∀ i s, i < next w → i ≠ a → heap w !! i = Some s →
         ∃ s', heap w' !! i = Some s' ∧ referred s s'.
Proof.
  intros H.
  apply (createDeps_stepwise referred referred_refl referred_trans) in H
    as [_ ?]; [done|].
  apply (createStep_stepwise E referred referred_refl referred_trans
           referred_addReferrers).
Qed.

(** The new Step [a] itself changes, in the loop over its inputs, by
    what enters its [deps] and by referrers. *)
Lemma createDeps_self fuel a : ∀ inputs x w x' w' s,
  heap w !! a = Some s → a < next w →
  createDeps (createStep E fuel) a inputs x w = Ok (x', w') →
  ∃ s', heap w' !! a = Some s' ∧ deps s ⊆ deps s'
    ∧ referred (set_deps (deps s') s) s'.
Proof.
  induction inputs as [|i rest IH]; intros x w x' w' s Hs Ha H.
  - injection H as <- <-. exists s. split; [done|]. split; [done|].
    replace (set_deps (deps s) s) with s by (by destruct s).
    apply referred_refl.
  - apply createDeps_Ok_inv in H as (dep & x1 & w1 & H1 & H2).
    pose proof (createStep_extends E _ _ _ _ _ _ _ _ _ H1) as (_ & N1 & _).
    destruct (createStep_referred _ _ _ _ _ _ _ _ _ H1 a s Ha Hs)
      as (s1 & Hs1 & bs & rs & ->).
    destruct dep as [d|].
    + eapply IH in H2 as (s' & Hs' & Hsub & bs' & rs' & Heq);
        [| by simpl; rewrite lookup_alter_eq, Hs1 | simpl; lia].
      exists s'. split; [done|]. simpl in Hsub. split; [set_solver|].
      exists (bs ++ bs'), (rs ++ rs'). rewrite Heq at 1.
      unfold set_rdeps, set_step_builds, set_deps. simpl.
      by rewrite !app_assoc.
    + eapply IH in H2 as (s' & Hs' & Hsub & bs' & rs' & Heq);
        [| exact Hs1 | lia].
      exists s'. split; [done|]. simpl in Hsub. split; [done|].
      exists (bs ++ bs'), (rs ++ rs'). rewrite Heq at 1.
      unfold set_rdeps, set_step_builds, set_deps. simpl.
      by rewrite !app_assoc.
Qed.

Lemma deps_addReferrers rb rs s : deps (addReferrers rb rs s) = deps s.
Proof. unfold addReferrers. by destruct rb, rs. Qed.

(** The Step that [createStep] returns is registered for the path,
    created, and lists the referring step. *)
Lemma createStep_link fuel p rb rs x w a x' w' :
  sharing w → finishedOk x w →
  createStep E fuel p rb rs x w = Ok (Some a, x', w') →
  ∃ s, lockStep w' p = Some (a, s) ∧ created s = true
    ∧ (∀ r, rs = Some r → r ∈ rdeps s).
Proof.
  intros Hsh FO H.
  destruct (createStep_sharing E fuel p rb rs x w _ x' w' (conj Hsh FO) H)
    as [(_ & _ & _ & US) _].
  destruct (createStep_returned E fuel p rb rs x w a x' w' Hsh H)
    as (s & Hs & Hp & _).
  exists s. split.
  { apply lockStep_Some. split; [|done]. rewrite <- Hp. by apply US. }
  destruct fuel as [|fuel]; [discriminate|].
  apply createStep_Ok_inv in H
    as [(_ & [=] & _)
       |[(_ & a' & s0 & Hl & Hc & [= <-] & -> & ->)
        |(_ & Hl & d & _ & [(_ & [=] & _)
                           |(_ & x2 & w3 & Hd & Hf & [= ->] & ->)])]].
  - simpl in Hs. rewrite lookup_insert_eq in Hs. injection Hs as <-.
    split; [by rewrite created_addReferrers|].
    intros r ->. rewrite rdeps_addReferrers. simpl. set_solver.
  - apply finishStep_Ok in Hf as (s3 & Hs3 & Hc3 & Hh & _).
    rewrite Hh, lookup_insert_eq in Hs. injection Hs as <-.
    split; [done|]. intros r ->. simpl.
    eapply createDeps_self in Hd as (s' & Hs' & _ & bs & rs & Heq);
      [| by simpl; rewrite lookup_insert_eq | simpl; lia].
    assert (s3 = s') as -> by congruence. rewrite Heq. simpl. set_solver.
Qed.

Lemma createStep_None_finished fuel p rb rs x w x' w' :
  createStep E fuel p rb rs x w = Ok (None, x', w') →
  p ∈ finishedDrvs x'.
Proof.
  intros H. destruct fuel as [|fuel]; [discriminate|].
  apply createStep_Ok_inv in H
    as [(Hp & _ & -> & _)
       |[(_ & a' & s0 & _ & _ & [=] & _)
        |(_ & _ & d & _ & [(_ & _ & -> & _)
                           |(_ & x2 & w3 & _ & _ & [=] & _)])]];
    [done | set_solver].
Qed.

(** X1. The Step that [createStep] returns for a path is the one that
    the Step Graph registers for the path afterwards; it is created, and
    the referring build and the referring step are in its [builds] and
    [rdeps]. *)
Theorem createStep_registers fuel p rb rs x w a x' w' :
  sharing w → finishedOk x w →
  createStep E fuel p rb rs x w = Ok (Some a, x', w') →
  ∃ s, lockStep w' p = Some (a, s)
    ∧ drvPath s = p ∧ created s = true
    ∧ (∀ i, rb = Some i → i ∈ builds s)
    ∧ (∀ r, rs = Some r → r ∈ rdeps s).
Proof.
  intros Hsh FO H.
  destruct (createStep_link fuel p rb rs x w a x' w' Hsh FO H)
    as (s & Hl & Hc & Hr).
  destruct (createStep_returned E fuel p rb rs x w a x' w' Hsh H)
    as (s' & Hs' & Hp & Hb).
  apply lockStep_Some in Hl as [Hst Hs].
  assert (s' = s) as -> by congruence.
  exists s. split; [by apply lockStep_Some|]. done.
Qed.

(** X2. [createStep] works on the Step Graph only: the registry, the
    database, the counters and the queue of the pass are as before. It
    destroys no Step that existed and removes no path from the graph;
    a Step that existed changes only by referrers appended to its
    [builds] and [rdeps]; the sets of the expansion and [newRunnable]
    only grow. *)
Theorem createStep_frame fuel p rb rs x w r x' w' :
  createStep E fuel p rb rs x w = Ok (r, x', w') →
  builds_ w' = builds_ w ∧ db w' = db w ∧ buildSteps w' = buildSteps w
  ∧ nrBuildsRead w' = nrBuildsRead w ∧ nrBuildsDone w' = nrBuildsDone w
  ∧ runnable w' = runnable w ∧ clock w' = clock w
  ∧ newBuildsByID w' = newBuildsByID w
  ∧ newBuildsByPath w' = newBuildsByPath w ∧ nrAdded w' = nrAdded w
  ∧ next w ≤ next w'
  ∧ finishedDrvs x ⊆ finishedDrvs x' ∧ newSteps x ⊆ newSteps x'
  ∧ newRunnable w ⊆ newRunnable w'
  ∧ stepwise referred w w'
  ∧ (∀ q, is_Some (steps_ w !! q) → is_Some (steps_ w' !! q)).
Proof.
  intros H. pose proof (createStep_referred _ _ _ _ _ _ _ _ _ H) as Hst.
  apply createStep_extends in H
    as (G & N & F & S & R & _ & _ & _ & _ & M & _).
  rewrite G. simpl. repeat split; done.
Qed.

(** The [deps] of the new Step [a] after the loop over its inputs. *)
Lemma createDeps_links fuel a : ∀ inputs x w x' w' s,
  sharing w → finishedOk x w →
  heap w !! a = Some s → created s = false →
  createDeps (createStep E fuel) a inputs x w = Ok (x', w') →
  sharing w' ∧ finishedOk x' w'
  ∧ ∃ s', heap w' !! a = Some s' ∧ deps s ⊆ deps s'
      ∧ (∀ c, c ∈ deps s' →
           c ∈ deps s
           ∨ ∃ i sc, i ∈ inputs ∧ lockStep w' i.1 = Some (c, sc)
               ∧ created sc = true ∧ a ∈ rdeps sc)
      ∧ (∀ i, i ∈ inputs →
           i.1 ∈ finishedDrvs x'
           ∨ ∃ c sc, c ∈ deps s' ∧ lockStep w' i.1 = Some (c, sc)).
Proof.
  induction inputs as [|i rest IH]; intros x w x' w' s Hsh FO Hs Hc H.
  - injection H as <- <-. split; [done|]. split; [done|].
    exists s. split; [done|]. split; [done|].
    split; [by left | intros i Hi; by apply elem_of_nil in Hi].
  - pose proof H as Hall.
    apply createDeps_Ok_inv in H as (dep & x1 & w1 & H1 & H2).
    assert (a < next w) as Ha.
    { destruct Hsh as (HF & _). apply HF. eauto. }
    pose proof (createStep_sharing E _ _ _ _ _ _ _ _ _ (conj Hsh FO) H1)
      as [Hsh1 FO1].
    pose proof (createStep_extends E _ _ _ _ _ _ _ _ _ H1) as (_ & N1 & _).
    destruct (createStep_referred _ _ _ _ _ _ _ _ _ H1 a s Ha Hs)
      as (s1 & Hs1 & Hr1).
    assert (created s1 = false ∧ deps s1 = deps s) as [Hc1 Hd1].
    { destruct Hr1 as (bs & rs & ->). done. }
    pose proof (createDeps_extends _ _ (createStep_extends E fuel)
                  _ _ _ _ _ H2) as (_ & _ & F2 & _).
    destruct dep as [c|].
    + destruct (createStep_link _ _ _ _ _ _ _ _ _ Hsh FO H1)
        as (sc & Hlc & Hcc & Hrc).
      specialize (Hrc a eq_refl).
      pose proof Hlc as [Hstc Hhc]%lockStep_Some.
      assert (c ≠ a) as Hne by (intros ->; congruence).
      pose proof (sharing_alter (λ s, set_deps ({[c]} ∪ deps s) s) a x1 w1
                    (λ _, eq_refl) (conj Hsh1 FO1)) as [Hsh2 FO2].
      fold (addDep a c w1) in Hsh2, FO2.
      eapply IH in H2 as (Hsh' & FO' & s' & Hs' & Hsub & Hdeps & Hin);
        [| done | done | by simpl; rewrite lookup_alter_eq, Hs1 | done].
      split; [done|]. split; [done|]. exists s'. split; [done|].
      simpl in Hsub.
      (* the Step [c] and its registration survive the rest of the loop *)
      assert (∃ sc', lockStep w' i.1 = Some (c, sc')
                ∧ created sc' = true ∧ a ∈ rdeps sc') as Hkeep.
      { apply createDeps_Ok_inv in Hall as (dep' & x1' & w1' & H1' & H2').
        assert (dep' = Some c ∧ x1' = x1 ∧ w1' = w1) as (-> & -> & ->)
          by (split; [|split]; congruence).
        destruct (createDeps_referred _ _ _ _ _ _ _ H2' c sc)
          as (sc' & Hsc' & bs & rs & ->).
        { simpl. destruct Hsh1 as (HF1 & _). apply HF1. eauto. }
        { done. }
        { simpl. by rewrite lookup_alter_ne. }
        exists (set_rdeps (rdeps sc ++ rs)
                  (set_step_builds (builds sc ++ bs) sc)).
        split; [|split; [done | simpl; set_solver]].
        apply lockStep_Some. split; [|done].
        destruct Hsh' as (_ & _ & _ & US'). specialize (US' _ _ Hsc').
        simpl in US'. destruct Hsh1 as (_ & _ & MC1 & _).
        by rewrite (MC1 _ _ _ Hlc) in US'. }
      split; [set_solver|]. split.
      * intros c' Hc'. destruct (Hdeps c' Hc') as [Hold|(j & sj & Hj & Hlj)].
        -- simpl in Hold. apply elem_of_union in Hold as [Hold|Hold].
           ++ apply elem_of_singleton in Hold as ->. right.
              destruct Hkeep as (sc' & ? & ? & ?).
              exists i, sc'. split; [by left | done].
           ++ left. by rewrite <- Hd1.
        -- right. exists j, sj. split; [by right | done].
      * intros j Hj. apply elem_of_cons in Hj as [->|Hj]; [|by apply Hin].
        right. destruct Hkeep as (sc' & ? & _). exists c, sc'.
        split; [|done]. apply Hsub. set_solver.
    + eapply IH in H2 as (Hsh' & FO' & s' & Hs' & Hsub & Hdeps & Hin);
        [| done | done | done | done].
      split; [done|]. split; [done|]. exists s'. split; [done|].
      split; [by rewrite <- Hd1|]. split.
      * intros c' Hc'. destruct (Hdeps c' Hc') as [Hold|(j & sj & Hj & Hlj)].
        -- left. by rewrite <- Hd1.
        -- right. exists j, sj. split; [by right | done].
      * intros j Hj. apply elem_of_cons in Hj as [->|Hj]; [|by apply Hin].
        left. apply F2. by eapply createStep_None_finished.
Qed.

(** X3. When [createStep] has built a new Step, the [deps] of the Step
    are the live, created Steps of its input derivations, each with the
    new Step in its [rdeps]; an input derivation without a Step in
    [deps] is in [finishedDrvs]. *)
Theorem createStep_deps fuel p rb rs x w a x' w' :
  sharing w → finishedOk x w → lockStep w p = None →
  createStep E fuel p rb rs x w = Ok (Some a, x', w') →
  ∃ s d, heap w' !! a = Some s ∧ readDerivation E p = Some d ∧ drv s = d
    ∧ (∀ c, c ∈ deps s →
         ∃ i sc, i ∈ inputDrvs d ∧ lockStep w' i.1 = Some (c, sc)
           ∧ created sc = true ∧ a ∈ rdeps sc)
    ∧ (∀ i, i ∈ inputDrvs d →
         i.1 ∈ finishedDrvs x'
         ∨ ∃ c sc, c ∈ deps s ∧ lockStep w' i.1 = Some (c, sc)).
Proof.
  intros Hsh FO Hnone H. destruct fuel as [|fuel]; [discriminate|].
  apply createStep_Ok_inv in H
    as [(_ & [=] & _)
       |[(_ & a' & s0 & Hl & _)
        |(Hp & Hl & d & Hd & [(_ & [=] & _)
                             |(_ & x2 & w3 & Hdeps & Hf & [= ->] & ->)])]];
    [congruence|].
  pose proof (sharing_allocStep E p rb rs d x w Hl Hp (conj Hsh FO))
    as [Hsh2 FO2].
  pose proof Hdeps as Hself.
  eapply createDeps_self in Hself as (s3' & Hs3' & _ & bs & rs' & Heq);
    [| by simpl; rewrite lookup_insert_eq | simpl; lia].
  eapply createDeps_links in Hdeps
    as (Hsh3 & FO3 & s3 & Hs3 & _ & Hc3 & Hin3);
    [| done | done | by simpl; rewrite lookup_insert_eq
     | by simpl; rewrite created_addReferrers].
  assert (s3' = s3) as -> by congruence.
  pose proof Hf as Hfin.
  apply finishStep_Ok in Hf as (s & Hs & Hc & Hh & _ & _ & _ & Hst).
  assert (s = s3) as -> by congruence.
  assert (∀ q c sc, created sc = true → lockStep w3 q = Some (c, sc) →
                    lockStep w' q = Some (c, sc)) as Hkeep.
  { intros q c sc Hcc [Hq Hsc]%lockStep_Some. apply lockStep_Some.
    rewrite Hst, Hh. split; [done|]. rewrite lookup_insert_ne; [done|].
    intros <-. congruence. }
  exists (set_created true s3), d. rewrite Hh, lookup_insert_eq.
  split; [done|]. split; [done|]. split.
  { simpl. by rewrite Heq. }
  split.
  - intros c Hc'. simpl in Hc'. destruct (Hc3 c Hc') as [Hold|(i & sc & Hi & Hlc & Hcc & Hrc)].
    + simpl in Hold. rewrite deps_addReferrers in Hold.
      by apply elem_of_empty in Hold.
    + exists i, sc. split; [done|]. split; [by apply Hkeep | done].
  - intros i Hi. destruct (Hin3 i Hi) as [?|(c & sc & Hc' & Hlc)]; [by left|].
    right. exists c, sc. split; [done|]. apply Hkeep; [|done].
    destruct (Hc3 c Hc') as [Hold|(j & sj & _ & Hlj & Hcj & _)].
    + simpl in Hold. rewrite deps_addReferrers in Hold.
      by apply elem_of_empty in Hold.
    + apply lockStep_Some in Hlc as [_ Hlc].
      apply lockStep_Some in Hlj as [_ Hlj]. congruence.
Qed.

End StepGraph.

Lemma exampleGraph_run :
  createStep exampleEnv 5 "/d/a.drv" (Some 1%N) None emptyExpansion
    initialWorld = Ok (Some 0, exampleExpansion, exampleGraph).
Proof. vm_compute. reflexivity. Qed.

(** The expansion of [a] in the example, from the empty graph. *)
Lemma createStep_registers_witness :
  sharing initialWorld ∧ finishedOk emptyExpansion initialWorld
  ∧ createStep exampleEnv 5 "/d/a.drv" (Some 1%N) None emptyExpansion
      initialWorld = Ok (Some 0, exampleExpansion, exampleGraph)
  ∧ ∃ s, lockStep exampleGraph "/d/a.drv" = Some (0, s)
      ∧ drvPath s = "/d/a.drv"%string ∧ created s = true
      ∧ (∀ i, Some 1%N = Some i → i ∈ builds s)
      ∧ (∀ r, (None : option nat) = Some r → r ∈ rdeps s).
Proof.
  split; [apply sharing_initialWorld|].
  split; [apply finishedOk_empty|].
  split; [apply exampleGraph_run|].
  apply (createStep_registers exampleEnv 5 "/d/a.drv" (Some 1%N) None
           emptyExpansion initialWorld 0 exampleExpansion exampleGraph
           sharing_initialWorld (finishedOk_empty _) exampleGraph_run).
Defined.

Lemma createStep_frame_witness :
  createStep exampleEnv 5 "/d/a.drv" (Some 1%N) None emptyExpansion
    initialWorld = Ok (Some 0, exampleExpansion, exampleGraph)
  ∧ builds_ exampleGraph = ∅ ∧ db exampleGraph = ∅
  ∧ next initialWorld ≤ next exampleGraph
  ∧ stepwise referred initialWorld exampleGraph.
Proof.
  split; [apply exampleGraph_run|].
  destruct (createStep_frame exampleEnv 5 "/d/a.drv" (Some 1%N) None
              emptyExpansion initialWorld _ _ _ exampleGraph_run)
    as (Hb & Hd & _ & _ & _ & _ & _ & _ & _ & _ & Hn & _ & _ & _ & Hs & _).
  split; [exact Hb|]. split; [exact Hd|]. split; [exact Hn | exact Hs].
Defined.

(** In the example, [a] has the inputs [b] and [v]: [b] becomes its
    only dependency, [v] is finished. *)
Lemma createStep_deps_witness :
  sharing initialWorld ∧ finishedOk emptyExpansion initialWorld
  ∧ lockStep initialWorld "/d/a.drv" = None
  ∧ createStep exampleEnv 5 "/d/a.drv" (Some 1%N) None emptyExpansion
      initialWorld = Ok (Some 0, exampleExpansion, exampleGraph)
  ∧ ∃ s d, heap exampleGraph !! 0 = Some s
      ∧ readDerivation exampleEnv "/d/a.drv" = Some d ∧ drv s = d
      ∧ (∀ c, c ∈ deps s →
           ∃ i sc, i ∈ inputDrvs d ∧ lockStep exampleGraph i.1 = Some (c, sc)
             ∧ created sc = true ∧ 0 ∈ rdeps sc)
      ∧ (∀ i, i ∈ inputDrvs d →
           i.1 ∈ finishedDrvs exampleExpansion
           ∨ ∃ c sc, c ∈ deps s ∧ lockStep exampleGraph i.1 = Some (c, sc)).
Proof.
  split; [apply sharing_initialWorld|].
  split; [apply finishedOk_empty|]. split; [reflexivity|].
  split; [apply exampleGraph_run|].
  apply (createStep_deps exampleEnv 5 "/d/a.drv" (Some 1%N) None
           emptyExpansion initialWorld 0 exampleExpansion exampleGraph
           sharing_initialWorld (finishedOk_empty _) eq_refl
           exampleGraph_run).
Defined.

(** ** What a pass does to the registry and to the database *)

Lemma changes_refl P w : changes P w w.
Proof.
  split; [done|]. split; [done|]. split; [by left|].
  intros i. destruct (db w !! i); eauto.
Qed.

Lemma changes_mono P P' w w' : P ⊆ P' → changes P w w' → changes P' w w'.
Proof.
  intros HP (S & K & N & D). split; [done|]. split; [done|]. split.
  - intros i b Hb. destruct (N i b Hb) as [?|(b0 & a & Hp & ->)]; [by left|].
    right. exists b0, a. split; [|done]. by eapply lookup_weaken.
  - intros i. specialize (D i). destruct (db w !! i) as [r|]; [|done].
    destruct D as (r' & Hr' & [->|[Hf [b Hb]]]); [eauto|].
    exists r'. split; [done|]. right. split; [done|].
    exists b. by eapply lookup_weaken.
Qed.

Lemma changes_trans P w1 w2 w3 :
  changes P w1 w2 → changes P w2 w3 → changes P w1 w3.
Proof.
  intros (S1 & K1 & N1 & D1) (S2 & K2 & N2 & D2).
  split; [by etrans|]. split; [eauto|]. split.
  - intros i b Hb. destruct (N2 i b Hb) as [Hb2|?]; [|by right]. eauto.
  - intros i. specialize (D1 i). destruct (db w1 !! i) as [r|].
    + destruct D1 as (r' & Hr' & H1). specialize (D2 i). rewrite Hr' in D2.
      destruct D2 as (r'' & Hr'' & H2). exists r''. split; [done|].
      destruct H1 as [->|[F1 P1]]; [done|].
      destruct H2 as [->|[F2 _]]; [by right|].
      destruct F1 as (_ & F1 & _). destruct F2 as (F2 & _). congruence.
    + specialize (D2 i). by rewrite D1 in D2.
Qed.

(** Steps of the loader that leave the queue, the registry and the
    database alone. *)
Lemma changes_same P w1 w2 w3 :
  newBuildsByID w3 = newBuildsByID w2 → builds_ w3 = builds_ w2 →
  db w3 = db w2 → changes P w1 w2 → changes P w1 w3.
Proof.
  intros HA HB HC (S & K & N & D). unfold changes. rewrite HA, HB, HC. done.
Qed.

Lemma pendingOk_same w w' :
  newBuildsByID w' = newBuildsByID w → builds_ w' = builds_ w →
  db w' = db w → pendingOk w → pendingOk w'.
Proof. intros HA HB HC H. unfold pendingOk. rewrite HA, HB, HC. done. Qed.

Lemma settledIn_changes P w w' i :
  changes P w w' → settledIn w i → settledIn w' i.
Proof.
  intros (_ & K & _ & D) [[b Hb]|(r & Hr & Hf)].
  - left. exists b. by apply K.
  - right. specialize (D i). rewrite Hr in D.
    destruct D as (r' & Hr' & [->|[(F & _) _]]); [eauto | congruence].
Qed.

Lemma noneLost_refl w : noneLost w w.
Proof. intros i [b Hb] Hn. congruence. Qed.

Lemma noneLost_trans P w1 w2 w3 :
  changes P w2 w3 → noneLost w1 w2 → noneLost w2 w3 → noneLost w1 w3.
Proof.
  intros Hc H12 H23 i Hi Hn.
  destruct (newBuildsByID w2 !! i) as [b|] eqn:Hb.
  - apply H23; [eauto | done].
  - eapply settledIn_changes; [exact Hc|]. by apply H12.
Qed.

Lemma noneLost_same w1 w2 w3 :
  newBuildsByID w3 = newBuildsByID w2 → builds_ w3 = builds_ w2 →
  db w3 = db w2 → noneLost w1 w2 → noneLost w1 w3.
Proof.
  intros HA HB HC H. unfold noneLost, settledIn. rewrite HA, HB, HC. done.
Qed.

Lemma finalizes_abortedRow now r :
  finished r = 0%Z → finalizes r (abortedRow now r).
Proof. intros Hf. unfold finalizes. simpl. repeat split; eauto. Qed.

Lemma finalizes_failedRow status now r :
  finished r = 0%Z → finalizes r (failedRow status now r).
Proof. intros Hf. unfold finalizes. simpl. repeat split; eauto. Qed.

(** An update of the row of build [i], which is unfinished. *)
Lemma changes_update P (f : BuildsRow → BuildsRow) i b w :
  P !! i = Some b →
  (∀ r, finished r = 0%Z → finalizes r (f r)) →
  changes P w (set_db (updateBuilds i f (db w)) w).
Proof.
  intros HP Hf. split; [done|]. split; [done|]. split; [by left|].
  intros j. simpl. unfold updateBuilds.
  destruct (db w !! j) as [r|] eqn:Hr.
  - destruct (db w !! i) as [ri|] eqn:Hri; [|eauto].
    case_decide; [|eauto]. destruct (decide (j = i)) as [->|Hne].
    + rewrite lookup_insert_eq. exists (f ri). split; [done|].
      assert (r = ri) as -> by congruence. right. split; [by apply Hf|eauto].
    + rewrite lookup_insert_ne by done. eauto.
  - destruct (db w !! i) as [ri|] eqn:Hri; [|done].
    case_decide; [|done]. rewrite lookup_insert_ne; [done|]. congruence.
Qed.

Lemma settledIn_update (f : BuildsRow → BuildsRow) i w r :
  db w !! i = Some r → finished r = 0%Z → finished (f r) = 1%Z →
  settledIn (set_db (updateBuilds i f (db w)) w) i.
Proof.
  intros Hr Hf Hf'. right. simpl. unfold updateBuilds. rewrite Hr.
  rewrite decide_True by done. rewrite lookup_insert_eq. eauto.
Qed.

Lemma changes_markSucceededBuild P b cached now w :
  P !! build_id b = Some b →
  changes P w (set_db (markSucceededBuild b cached now now (db w)) w).
Proof.
  intros HP. unfold markSucceededBuild. eapply changes_update; [exact HP|].
  intros r Hf. unfold finalizes. simpl. repeat split; eauto.
Qed.

Section PassChanges.
Context (E : Env).

Lemma pendingOk_enter b w :
  pendingOk w → pendingOk (enter b w).
Proof.
  intros H i b0 Hb. simpl in Hb.
  apply lookup_delete_Some in Hb as [_ Hb]. by apply H.
Qed.

Lemma checkSteps_changes P b step l w bad b2 w3 :
  P !! build_id b = Some b → finishedInDB b = false →
  checkSteps E b step l w = Ok (bad, b2, w3) →
  changes P w w3 ∧ newBuildsByID w3 = newBuildsByID w
  ∧ builds_ w3 = builds_ w
  ∧ (∀ i, i ≠ build_id b → db w3 !! i = db w !! i)
  ∧ (if bad then
       ∀ r, db w !! build_id b = Some r → finished r = 0%Z →
            settledIn w3 (build_id b)
     else b2 = b ∧ db w3 = db w).
Proof.
  intros HP Hfin H. apply checkSteps_Ok in H. destruct bad.
  - destruct H as (pre & r & post & s & _ & _ & _ & _ & H).
    rewrite Hfin in H. destruct H as [-> ->]. unfold failBuild.
    split.
    { eapply changes_same;
        [| | | apply (changes_update P (failedRow (badStatus E step r s).1
                                          (time E (clock w)))
                        (build_id b) b w HP)];
        first [done | intros r0; apply finalizes_failedRow]. }
    split; [done|]. split; [done|]. split.
    { intros i Hi. simpl. unfold updateBuilds.
      destruct (db w !! build_id b); [|done]. case_decide; [|done].
      by rewrite lookup_insert_ne. }
    intros r0 Hr0 Hf. right. simpl. unfold updateBuilds. rewrite Hr0.
    rewrite decide_True by done. rewrite lookup_insert_eq. eauto.
  - destruct H as (-> & -> & _). split; [apply changes_refl|]. done.
Qed.

Lemma loadNested_changes (rec : Build → World → result (Build * World)) :
  (∀ b w b' w',
     pendingOk w → newBuildsByID w !! build_id b = Some b →
     rec b w = Ok (b', w') →
     pendingOk w' ∧ changes (newBuildsByID w) w w' ∧ noneLost w w') →
  ∀ l w w',
    pendingOk w → loadNested rec l w = Ok w' →
    pendingOk w' ∧ changes (newBuildsByID w) w w' ∧ noneLost w w'.
Proof.
  intros Hrec. induction l as [|r l IH]; intros w w' Hk H.
  - injection H as <-. split; [done|].
    split; [apply changes_refl | apply noneLost_refl].
  - cbn [loadNested] in H. destruct (heap w !! r) as [s|]; [|done].
    destruct (findByPath (drvPath s) (newBuildsByPath w)) as [i|]; [|eauto].
    destruct (newBuildsByID w !! i) as [b|] eqn:Hb; [|eauto].
    apply bind_Ok in H as ([b' w1] & H1 & H2).
    destruct (Hk i b Hb) as (Hid & _).
    apply Hrec in H1 as (K1 & C1 & L1); [|done | by rewrite Hid].
    apply IH in H2 as (K2 & C2 & L2); [|done].
    split; [done|].
    assert (changes (newBuildsByID w) w1 w') as C2'.
    { eapply changes_mono; [|exact C2]. by destruct C1. }
    split; [by eapply changes_trans|]. by eapply noneLost_trans.
Qed.

Lemma createBuild_changes depth fuel : ∀ held b w b' w',
  pendingOk w → newBuildsByID w !! build_id b = Some b →
  createBuild E depth fuel held b w = Ok (b', w') →
  pendingOk w' ∧ changes (newBuildsByID w) w w' ∧ noneLost w w'
  ∧ newBuildsByID w' !! build_id b = None.
Proof.
  induction fuel as [|fuel IH]; intros held b w b' w' Hk Hb H;
    [discriminate|].
  destruct (Hk _ _ Hb) as (_ & Hfin & Hreg & r & Hr & Hunf).
  pose proof (pendingOk_enter b w Hk) as Hk0.
  assert (newBuildsByID (enter b w) ⊆ newBuildsByID w) as Hsub
    by apply delete_subseteq.
  (* what remains to show once the build itself is settled *)
  assert (∀ w2 w',
            pendingOk w2 →
            changes (newBuildsByID (enter b w)) (enter b w) w2 →
            noneLost (enter b w) w2 →
            newBuildsByID w' = newBuildsByID w2 →
            pendingOk w' → changes (newBuildsByID w) w2 w' →
            settledIn w' (build_id b) →
            pendingOk w' ∧ changes (newBuildsByID w) w w'
            ∧ noneLost w w'
            ∧ newBuildsByID w' !! build_id b = None) as Hfinal.
  { intros w2 w'' K2 C2 L2 Hnew K' C' Hs. split; [done|].
    assert (newBuildsByID w'' !! build_id b = None) as Hgone.
    { rewrite Hnew. destruct C2 as (S2 & _).
      eapply lookup_weaken_None; [|exact S2]. simpl.
      apply lookup_delete_eq. }

    assert (changes (newBuildsByID w) w w2) as C02.
    { eapply changes_mono in C2; [|exact Hsub].
      destruct C2 as (S2 & K2' & N2 & D2). split; [by etrans|]. done. }
    split; [by eapply changes_trans|]. split; [|exact Hgone].
    intros i Hi Hn. destruct (decide (i = build_id b)) as [->|Hne]; [done|].
    eapply settledIn_changes; [exact C'|]. apply L2.
    - simpl. by rewrite lookup_delete_ne.
    - by rewrite <- Hnew. }
  destruct (isValidPath E (build_drvPath b)) eqn:Hv.
  - apply createBuild_valid_inv in H
      as (step & x & w1 & w2 & Hs & Hn & H); [|done].
    apply createStep_extends in Hs as (Hg & _).
    assert (newBuildsByID w1 = newBuildsByID (enter b w)
            ∧ builds_ w1 = builds_ (enter b w) ∧ db w1 = db (enter b w))
      as (A1 & B1 & D1) by (by rewrite Hg).
    apply (loadNested_changes
             (createBuild E depth fuel
                (held ∪ newSteps x ∪ option_to_set step))) in Hn
      as (K2 & C2 & L2);
      [| intros b0 w0 b0' w0' K0 B0 R0;
         by destruct (IH _ b0 w0 b0' w0' K0 B0 R0) as (? & ? & ? & _)
      | by apply (pendingOk_same (enter b w))].
    rewrite A1 in C2.
    assert (changes (newBuildsByID (enter b w)) (enter b w) w2) as C02.
    { revert C2. unfold changes. by rewrite A1, B1, D1. }
    assert (noneLost (enter b w) w2) as L02.
    { revert L2. unfold noneLost. by rewrite A1. }
    (* the row and the registry entry of the build are as in [w] *)
    assert (db w2 !! build_id b = Some r ∧ builds_ w2 !! build_id b = None)
      as [Hr2 Hreg2].
    { destruct C02 as (_ & _ & N & D). split.
      - specialize (D (build_id b)). simpl in D. rewrite Hr in D.
        destruct D as (r' & Hr' & [->|[_ [? Hp]]]); [done|].
        simpl in Hp. by rewrite lookup_delete_eq in Hp.
      - destruct (builds_ w2 !! build_id b) as [b2|] eqn:Hb2; [|done].
        destruct (N _ _ Hb2) as [Hold|(b0 & a & Hp & _)].
        + simpl in Hold. congruence.
        + simpl in Hp. by rewrite lookup_delete_eq in Hp. }
    destruct step as [a|].
    + destruct H as (bad & b2 & w3 & Hc & H).
      destruct (checkSteps_changes (newBuildsByID w) b a _ _ _ _ _ Hb Hfin Hc)
        as (C3 & A3 & B3 & D3 & Hbad).
      assert (pendingOk w3) as K3.
      { intros i b0 Hb0. rewrite A3 in Hb0.
        destruct (K2 i b0 Hb0) as (? & ? & ? & r0 & Hr0 & ?).
        rewrite B3. split; [done|]. split; [done|]. split; [done|].
        exists r0. split; [|done]. rewrite D3; [done|]. intros ->.
        destruct C02 as (S02 & _).
        pose proof (lookup_weaken _ _ _ _ Hb0 S02) as Hw. simpl in Hw.
        by rewrite lookup_delete_eq in Hw. }
      destruct bad.
      * destruct H as [-> ->].
        apply (Hfinal w2 (leave held x (Some a) w3) K2 C02 L02).
        -- exact A3.
        -- by apply (pendingOk_same w3).
        -- by apply (changes_same _ w2 w3).
        -- unfold settledIn. cbn [leave builds_ db set_heap]. by eapply Hbad.
      * destruct Hbad as [-> Hdb3]. destruct H as (-> & w4 & Hp & ->).
        rewrite Hfin in Hp.
        apply propagatePriorities_heapOnly in Hp. 
        set (w3' := set_builds (<[build_id b := set_toplevel (Some a) b]>
                                  (builds_ w3)) w3) in *.
        assert (newBuildsByID (leave held x (Some a) w4) = newBuildsByID w3
                ∧ builds_ (leave held x (Some a) w4)
                  = <[build_id b := set_toplevel (Some a) b]> (builds_ w3)
                ∧ db (leave held x (Some a) w4) = db w3) as (A4 & B4 & D4).
        { unfold leave. cbn [newBuildsByID builds_ db set_heap].
          by rewrite Hp. }
        apply (Hfinal w2 (leave held x (Some a) w4) K2 C02 L02).
        -- by rewrite A4.
        -- intros i b0 Hb0. rewrite A4 in Hb0.
           destruct (K3 i b0 Hb0) as (? & ? & ? & ?).
           rewrite B4, D4. split; [done|]. split; [done|]. split; [|done].
           rewrite lookup_insert_ne; [done|]. intros <-.
           destruct C02 as (S02 & _). rewrite A3 in Hb0.
           pose proof (lookup_weaken _ _ _ _ Hb0 S02) as Hw. simpl in Hw.
           by rewrite lookup_delete_eq in Hw.
        -- split; [by rewrite A4, A3|]. rewrite B4, D4, B3, Hdb3.
           split; [|split].
           ++ intros i b0 Hb0. rewrite lookup_insert_ne; [done|].
              intros <-. congruence.
           ++ intros i b0 Hb0.
              apply lookup_insert_Some in Hb0 as [[<- <-]|[_ ?]]; [|by left].
              right. eauto.
           ++ intros i. destruct (db w2 !! i); eauto.
        -- left. rewrite B4, lookup_insert_eq. eauto.
    + destruct H as (_ & -> & ->).
      set (w3 := set_db (markSucceededBuild b true (time E (clock w2))
                           (time E (clock w2)) (db w2))
                   (set_clock (S (clock w2)) w2)).
      assert (changes (newBuildsByID w) w2 w3) as C3.
      { unfold w3.
        by apply (changes_same _ w2
                    (set_db (markSucceededBuild b true (time E (clock w2))
                               (time E (clock w2)) (db w2)) w2));
          [..|apply changes_markSucceededBuild]. }
      apply (Hfinal w2 (leave held x None w3) K2 C02 L02).
      * done.
      * intros i b0 Hb0. cbn [leave newBuildsByID set_heap w3 set_db
                               set_clock] in Hb0.
        destruct (K2 i b0 Hb0) as (? & ? & ? & r0 & Hr0 & ?).
        split; [done|]. split; [done|]. split; [done|].
        exists r0. split; [|done]. simpl. unfold markSucceededBuild,
          updateBuilds. rewrite Hr2, decide_True by done.
        rewrite lookup_insert_ne; [done|]. intros <-.
        destruct C02 as (S02 & _).
        pose proof (lookup_weaken _ _ _ _ Hb0 S02) as Hw. simpl in Hw.
        by rewrite lookup_delete_eq in Hw.
      * by apply (changes_same _ w2 w3).
      * right. simpl. unfold markSucceededBuild, updateBuilds.
        rewrite Hr2, decide_True by done. rewrite lookup_insert_eq. eauto.
  - rewrite (createBuild_invalid E depth fuel held b w Hv), Hfin in H.
    injection H as <- <-.
    set (w1 := set_db (updateBuilds (build_id b)
                         (abortedRow (time E (clock w))) (db w))
                 (set_clock (S (clock w)) (enter b w))).
    apply (Hfinal (enter b w) (set_nrBuildsDone (nrBuildsDone w + 1)%N w1)).
    + done.
    + apply changes_refl.
    + apply noneLost_refl.
    + done.
    + intros i b0 Hb0. simpl in Hb0.
      apply lookup_delete_Some in Hb0 as [Hne Hb0].
      destruct (Hk i b0 Hb0) as (? & ? & ? & r0 & Hr0 & ?).
      split; [done|]. split; [done|]. split; [done|]. exists r0.
      split; [|done]. simpl. unfold updateBuilds. rewrite Hr.
      rewrite decide_True by done. by rewrite lookup_insert_ne.
    + eapply changes_same;
        [| | | apply (changes_update (newBuildsByID w)
                        (abortedRow (time E (clock w))) (build_id b) b
                        (enter b w) Hb)];
        first [done | intros r0; apply finalizes_abortedRow].
    + right. simpl. unfold updateBuilds. rewrite Hr.
      rewrite decide_True by done. rewrite lookup_insert_eq. eauto.
Qed.

Lemma elem_of_queryQueue d last i r :
  (i, r) ∈ queryQueue d last
  ↔ d !! i = Some r ∧ (last < i)%N ∧ finished r = 0%Z.
Proof.
  unfold queryQueue. rewrite merge_sort_Permutation.
  rewrite list_elem_of_filter, elem_of_map_to_list. simpl. tauto.
Qed.

(** The loop over the rows: what waits in [newBuildsByID] afterwards,
    and where the watermark stands. *)
Lemma readRows_pending rows : ∀ last ids w last' ids' w',
  NoDup rows.*1 →
  (∀ i, i ∈ rows.*1 → newBuildsByID w !! i = None) →
  readRows E rows last ids w = (last', ids', w') →
  (∀ i b, newBuildsByID w' !! i = Some b →
     newBuildsByID w !! i = Some b
     ∨ ∃ r, (i, r) ∈ rows ∧ accepted E (builds_ w) (i, r)
         ∧ b = buildOfRow i r)
  ∧ (∀ i r, (i, r) ∈ rows → accepted E (builds_ w) (i, r) →
       newBuildsByID w' !! i = Some (buildOfRow i r) ∧ i ∈ ids')
  ∧ (∀ i, i ∈ ids → i ∈ ids')
  ∧ (∀ i b, newBuildsByID w !! i = Some b → i ∉ rows.*1 →
       newBuildsByID w' !! i = Some b)
  ∧ builds_ w' = builds_ w ∧ db w' = db w ∧ heap w' = heap w
  ∧ (last ≤ last')%N
  ∧ (∀ i r, (i, r) ∈ rows → buildOne E = 0%N ∨ i = buildOne E →
       (i ≤ last')%N)
  ∧ (last' = last
     ∨ ∃ r, (last', r) ∈ rows ∧ (buildOne E = 0%N ∨ last' = buildOne E)
         ∧ (last < last')%N).
Proof.
  induction rows as [|[i r] rows IH]; intros last ids w last' ids' w'
    Hnd Hnew H.
  - injection H as <- <- <-. split; [by left|].
    split; [intros i r Hi; by apply elem_of_nil in Hi|].
    split; [done|]. split; [done|]. split; [done|]. split; [done|].
    split; [done|]. split; [done|].
    split; [intros i r Hi; by apply elem_of_nil in Hi|].
    by left.
  - rewrite fmap_cons, NoDup_cons in Hnd. destruct Hnd as [Hi Hnd].
    cbn [readRows] in H.
    assert (∀ j, j ∈ rows.*1 → newBuildsByID w !! j = None) as Hnew'.
    { intros j Hj. apply Hnew. rewrite fmap_cons. by right. }
    assert (∀ r', (i, r') ∈ rows → False) as Hfresh.
    { intros r' Hr'. apply Hi. apply list_elem_of_fmap. by exists (i, r'). }
    destruct (bool_decide (buildOne E ≠ 0%N) && bool_decide (i ≠ buildOne E))
      eqn:Hone.
    { apply andb_true_iff in Hone as [H0%bool_decide_eq_true
                                      H1%bool_decide_eq_true].
      apply IH in H as (A & B & C & K & D & F & G & L & M & N); [|done..].
      split. { intros j b Hb. destruct (A j b Hb) as [?|(r' & ? & ? & ?)];
                 [by left|]. right. exists r'. split; [by right | done]. }
      split. { intros j r' Hj Hacc.
               apply elem_of_cons in Hj as [[= -> ->]|Hj]; [|by apply B].
               destruct Hacc as [[?|?] _]; done. }
      split; [done|].
      split. { intros j b Hb Hj. apply K; [done|]. intros Hin. apply Hj.
               rewrite fmap_cons. by right. }
      split; [done|]. split; [done|]. split; [done|].
      split; [done|].
      split. { intros j r' Hj Hf.
               apply elem_of_cons in Hj as [[= -> ->]|Hj]; [|by eapply M].
               destruct Hf; done. }
      destruct N as [?|(r' & ? & ? & ?)]; [by left|].
      right. exists r'. split; [by right | done]. }
    assert (buildOne E = 0%N ∨ i = buildOne E) as Hpass.
    { apply andb_false_iff in Hone
        as [Hone%bool_decide_eq_false|Hone%bool_decide_eq_false].
      - left. by destruct (decide (buildOne E = 0%N)).
      - right. by destruct (decide (i = buildOne E)). }
    set (last1 := if decide (last < i)%N then i else last) in *.
    assert ((last ≤ last1)%N ∧ (i ≤ last1)%N
            ∧ (last1 = last ∨ (last1 = i ∧ (last < i)%N)))
      as (Hl1 & Hl2 & Hl3).
    { unfold last1. destruct (decide (last < i)%N); lia. }
    assert (∀ last'',
              (last1 ≤ last'')%N →
              (last'' = last1
               ∨ ∃ r', (last'', r') ∈ rows
                   ∧ (buildOne E = 0%N ∨ last'' = buildOne E)
                   ∧ (last1 < last'')%N) →
              (last ≤ last'')%N
              ∧ (∀ j r', (j, r') ∈ (i, r) :: rows →
                   buildOne E = 0%N ∨ j = buildOne E → (j ≤ last'')%N) →
              (last ≤ last'')%N
              ∧ (∀ j r', (j, r') ∈ (i, r) :: rows →
                   buildOne E = 0%N ∨ j = buildOne E → (j ≤ last'')%N)
              ∧ (last'' = last
                 ∨ ∃ r', (last'', r') ∈ (i, r) :: rows
                     ∧ (buildOne E = 0%N ∨ last'' = buildOne E)
                     ∧ (last < last'')%N)) as Hmark.
    { intros last'' Hle Hcase [H1 H2]. split; [done|]. split; [done|].
      destruct Hcase as [->|(r' & Hr' & Hf & Hlt)].
      - destruct Hl3 as [->|[-> ?]]; [by left|]. right. exists r.
        split; [by left | done].
      - right. exists r'. split; [by right|]. split; [done | lia]. }
    destruct (decide (is_Some (builds_ w !! i))) as [Hreg|Hreg].
    { apply IH in H as (A & B & C & K & D & F & G & L & M & N); [|done..].
      split. { intros j b Hb. destruct (A j b Hb) as [?|(r' & ? & ? & ?)];
                 [by left|]. right. exists r'. split; [by right | done]. }
      split. { intros j r' Hj Hacc.
               apply elem_of_cons in Hj as [[= -> ->]|Hj]; [|by apply B].
               destruct Hacc as [_ Hn]. simpl in Hn. rewrite Hn in Hreg.
               by destruct Hreg. }
      split; [done|].
      split. { intros j b Hb Hj. apply K; [done|]. intros Hin. apply Hj.
               rewrite fmap_cons. by right. }
      split; [done|]. split; [done|]. split; [done|].
      apply Hmark; [done..|]. split; [lia|].
      intros j r' Hj Hf.
      apply elem_of_cons in Hj as [[= -> ->]|Hj]; [lia | by eapply M]. }
    apply IH in H as (A & B & C & K & D & F & G & L & M & N); [|done|].
    2:{ intros j Hj. simpl. rewrite lookup_insert_ne; [by apply Hnew'|].
        intros <-. done. }
    cbn [newBuildsByID builds_ db heap set_newBuildsByPath set_newBuildsByID]
      in *.
    split. { intros j b Hb. destruct (A j b Hb) as [Hold|(r' & ? & ? & ?)].
             - apply lookup_insert_Some in Hold as [[<- <-]|[_ ?]];
                 [|by left].
               right. exists r. split; [by left|]. split; [|done].
               split; [done|]. by apply eq_None_not_Some.
             - right. exists r'. split; [by right | done]. }
    split. { intros j r' Hj Hacc.
             apply elem_of_cons in Hj as [[= -> ->]|Hj]; [|by apply B].
             destruct (newBuildsByID w' !! i) as [b|] eqn:Hb.
             - destruct (A i b Hb) as [Hold|(r' & Hr' & _)].
               + rewrite lookup_insert_eq in Hold. injection Hold as <-.
                 split; [done|]. apply C. apply elem_of_app. right. by left.
               + by destruct (Hfresh r').
             - rewrite (K i (buildOfRow i r)) in Hb; [done | | done].
               apply lookup_insert_eq. }
    split; [intros j Hj; apply C, elem_of_app; by left|].
    split. { intros j b Hb Hj. apply K.
             - rewrite lookup_insert_ne; [done|]. intros <-. apply Hj.
               rewrite fmap_cons. by left.
             - intros Hin. apply Hj. rewrite fmap_cons. by right. }
    split; [done|]. split; [done|]. split; [done|].
    apply Hmark; [done..|]. split; [lia|].
    intros j r' Hj Hf.
    apply elem_of_cons in Hj as [[= -> ->]|Hj]; [lia | by eapply M].
Qed.

Lemma loadBuilds_changes depth ids : ∀ w w',
  pendingOk w → loadBuilds E depth ids w = Ok w' →
  pendingOk w' ∧ changes (newBuildsByID w) w w' ∧ noneLost w w'
  ∧ ∀ i, i ∈ ids → newBuildsByID w' !! i = None.
Proof.
  induction ids as [|i ids IH]; intros w w' Hk H.
  - injection H as <-. split; [done|]. split; [apply changes_refl|].
    split; [apply noneLost_refl|]. intros i Hi. by apply elem_of_nil in Hi.
  - cbn [loadBuilds] in H.
    destruct (newBuildsByID w !! i) as [b|] eqn:Hb.
    + apply bind_Ok in H as ([b' w1] & Hc & H).
      destruct (Hk i b Hb) as (Hid & _).
      apply createBuild_changes in Hc as (K1 & C1 & L1 & G1);
        [| by apply (pendingOk_same w) | by rewrite Hid].
      rewrite foldl_makeRunnable in H.
      apply IH in H as (K2 & C2 & L2 & G2);
        [|by apply (pendingOk_same w1)].
      cbn [newBuildsByID set_nrBuildsRead set_runnable set_nrAdded
           clearNewRunnable set_newRunnable set_heap] in *.
      assert (changes (newBuildsByID w) w w1) as C1'.
      { destruct C1 as (? & ? & ? & ?). by repeat split. }
      assert (changes (newBuildsByID w) w1 w') as C2'.
      { eapply changes_mono; [by destruct C1|].
        destruct C2 as (? & ? & ? & ?). by repeat split. }
      assert (noneLost w w1) as L1' by done.
      assert (noneLost w1 w') as L2' by done.
      split; [done|]. split; [by eapply changes_trans|].
      split; [by eapply noneLost_trans|].
      intros j Hj. apply elem_of_cons in Hj as [->|Hj]; [|by apply G2].
      rewrite Hid in G1. destruct C2 as (S2 & _).
      by eapply lookup_weaken_None.
    + apply IH in H as (K2 & C2 & L2 & G2); [|done].
      split; [done|]. split; [done|]. split; [done|].
      intros j Hj. apply elem_of_cons in Hj as [->|Hj]; [|by apply G2].
      destruct C2 as (S2 & _). by eapply lookup_weaken_None.
Qed.

(** The rows of a pass, read from its start. *)
Lemma readRows_pass last w last' ids w1 :
  readRows E (queryQueue (db w) last) last [] (startPass w)
    = (last', ids, w1) →
  (∀ i b, newBuildsByID w1 !! i = Some b →
     ∃ r, db w !! i = Some r ∧ finished r = 0%Z ∧ (last < i)%N
       ∧ (buildOne E = 0%N ∨ i = buildOne E) ∧ builds_ w !! i = None
       ∧ b = buildOfRow i r)
  ∧ (∀ i r, db w !! i = Some r → finished r = 0%Z → (last < i)%N →
       buildOne E = 0%N ∨ i = buildOne E → builds_ w !! i = None →
       newBuildsByID w1 !! i = Some (buildOfRow i r) ∧ i ∈ ids)
  ∧ builds_ w1 = builds_ w ∧ db w1 = db w.
Proof.
  intros Hrows.
  destruct (readRows_pending _ _ _ _ _ _ _ (queryQueue_NoDup (db w) last)
              (λ i _, lookup_empty i) Hrows)
    as (A & B & _ & _ & Hb1 & Hd1 & _).
  change (builds_ (startPass w)) with (builds_ w) in *.
  change (db (startPass w)) with (db w) in *.
  split.
  { intros i b Hb. destruct (A i b Hb) as [Hold|(r & Hr & [Hone Hreg] & ->)].
    { simpl in Hold. by rewrite lookup_empty in Hold. }
    apply elem_of_queryQueue in Hr as (Hr & Hlt & Hf). simpl in *.
    eauto 10. }
  split.
  { intros i r Hr Hf Hlt Hone Hreg. apply (B i r);
      [by apply elem_of_queryQueue | done]. }
  done.
Qed.

(** A pass: the builds that wait after the rows were read are loaded by
    the loop over [newIDs], all of them. *)
Lemma getQueuedBuilds_pending depth last w last' w' :
  getQueuedBuilds E depth last w = Ok (last', w') →
  ∃ ids w1,
    readRows E (queryQueue (db w) last) last [] (startPass w)
      = (last', ids, w1)
    ∧ pendingOk w1 ∧ changes (newBuildsByID w1) w1 w' ∧ noneLost w1 w'
    ∧ ∀ i, is_Some (newBuildsByID w1 !! i) → newBuildsByID w' !! i = None.
Proof.
  intros H. unfold getQueuedBuilds in H. fold (startPass w) in H.
  destruct (readRows E (queryQueue (db (startPass w)) last) last []
              (startPass w)) as [[last1 ids] w1] eqn:Hrows.
  apply bind_Ok in H as (w2 & Hload & [= <- <-]).
  change (db (startPass w)) with (db w) in Hrows.
  exists ids, w1. split; [done|].
  destruct (readRows_pass _ _ _ _ _ Hrows) as (A & B & Hb1 & Hd1).
  assert (pendingOk w1) as K1.
  { intros i b Hb.
    destruct (A i b Hb) as (r & Hr & Hf & _ & _ & Hreg & ->).
    rewrite Hb1, Hd1. eauto 10. }
  apply loadBuilds_changes in Hload as (K2 & C2 & L2 & G2); [|done].
  split; [done|]. split; [by destruct C2 as (? & ? & ? & ?)|].
  split; [done|].
  intros i [b Hb]. apply G2.
  destruct (A i b Hb) as (r & Hr & Hf & Hlt & Hone & Hreg & ->).
  by apply (B i r).
Qed.

(** X4. A pass removes no build from the registry and changes none
    that is registered. A build that it registers was not registered,
    has an unfinished row above the watermark that passes the [buildOne]
    filter, carries the columns of that row, and has its top-level step
    set. *)
Theorem getQueuedBuilds_registry depth last w last' w' :
  getQueuedBuilds E depth last w = Ok (last', w') →
  (∀ i b, builds_ w !! i = Some b → builds_ w' !! i = Some b)
  ∧ (∀ i b, builds_ w' !! i = Some b →
       builds_ w !! i = Some b
       ∨ (builds_ w !! i = None ∧ (last < i)%N
          ∧ (buildOne E = 0%N ∨ i = buildOne E)
          ∧ ∃ r a, db w !! i = Some r ∧ finished r = 0%Z
              ∧ b = set_toplevel (Some a) (buildOfRow i r))).
Proof.
  intros H.
  apply getQueuedBuilds_pending in H as (ids & w1 & Hrows & K1 & C & _).
  destruct (readRows_pass _ _ _ _ _ Hrows) as (A & _ & Hb1 & _).
  destruct C as (_ & Kept & New & _). rewrite Hb1 in Kept, New.
  split; [exact Kept|]. intros i b Hb.
  destruct (New i b Hb) as [?|(b0 & a & Hp & ->)]; [by left|]. right.
  destruct (A i b0 Hp) as (r & Hr & Hf & Hlt & Hone & Hreg & ->).
  eauto 10.
Qed.

(** X5. A pass adds no row to the [Builds] table and removes none. A row
    that it changes was unfinished, above the watermark, of a build
    that was not registered and passes the [buildOne] filter; the pass
    finalized it and left the columns of the queue as they were. *)
Theorem getQueuedBuilds_database depth last w last' w' :
  getQueuedBuilds E depth last w = Ok (last', w') →
  ∀ i, match db w !! i with
       | Some r =>
           ∃ r', db w' !! i = Some r'
             ∧ (r' = r
                ∨ (finalizes r r' ∧ (last < i)%N ∧ builds_ w !! i = None
                   ∧ (buildOne E = 0%N ∨ i = buildOne E)))
       | None => db w' !! i = None
       end.
Proof.
  intros H i.
  apply getQueuedBuilds_pending in H as (ids & w1 & Hrows & K1 & C & _).
  destruct (readRows_pass _ _ _ _ _ Hrows) as (A & _ & _ & Hd1).
  destruct C as (_ & _ & _ & D). specialize (D i). rewrite Hd1 in D.
  destruct (db w !! i) as [r|]; [|done].
  destruct D as (r' & Hr' & [->|[Hfin [b Hp]]]); [eauto|].
  exists r'. split; [done|]. right. split; [done|].
  by destruct (A i b Hp) as (r0 & _ & _ & Hlt & Hone & Hreg & _).
Qed.

(** X6. A pass that returns loses no build: every unfinished build above
    the watermark that passes the [buildOne] filter is registered
    afterwards, or its row is finished. *)
Theorem getQueuedBuilds_settles depth last w last' w' i r :
  getQueuedBuilds E depth last w = Ok (last', w') →
  db w !! i = Some r → finished r = 0%Z → (last < i)%N →
  buildOne E = 0%N ∨ i = buildOne E →
  is_Some (builds_ w' !! i)
  ∨ ∃ r', db w' !! i = Some r' ∧ finished r' = 1%Z.
Proof.
  intros H Hr Hf Hlt Hone.
  apply getQueuedBuilds_pending in H
    as (ids & w1 & Hrows & K1 & C & L & G).
  destruct (readRows_pass _ _ _ _ _ Hrows) as (_ & B & Hb1 & _).
  destruct (builds_ w !! i) as [b|] eqn:Hreg.
  - left. destruct C as (_ & Kept & _). exists b. apply Kept. by rewrite Hb1.
  - destruct (B i r Hr Hf Hlt Hone Hreg) as [Hp _].
    apply (L i); eauto.
Qed.

(** X7. The watermark of a pass: it does not go down; it is at least the
    id of every unfinished row above the old watermark that passes the
    [buildOne] filter, registered or not; and when it moved, it is the
    id of such a row. *)
Theorem getQueuedBuilds_watermark depth last w last' w' :
  getQueuedBuilds E depth last w = Ok (last', w') →
  (last ≤ last')%N
  ∧ (∀ i r, db w !! i = Some r → finished r = 0%Z → (last < i)%N →
       buildOne E = 0%N ∨ i = buildOne E → (i ≤ last')%N)
  ∧ (last' = last
     ∨ ∃ r, db w !! last' = Some r ∧ finished r = 0%Z ∧ (last < last')%N
         ∧ (buildOne E = 0%N ∨ last' = buildOne E)).
Proof.
  intros H. apply getQueuedBuilds_pending in H as (ids & w1 & Hrows & _).
  destruct (readRows_pending _ _ _ _ _ _ _ (queryQueue_NoDup (db w) last)
              (λ i _, lookup_empty i) Hrows)
    as (_ & _ & _ & _ & _ & _ & _ & Hle & Hall & Hlast).
  split; [done|]. split.
  - intros i r Hr Hf Hlt Hone. apply (Hall i r); [|done].
    by apply elem_of_queryQueue.
  - destruct Hlast as [?|(r & Hr & Hone & Hlt)]; [by left|]. right.
    apply elem_of_queryQueue in Hr as (Hr & _ & Hf). eauto.
Qed.

End PassChanges.

Lemma exampleAfterPass_run :
  getQueuedBuilds exampleEnv 5 0 exampleWorld = Ok (6%N, exampleAfterPass).
Proof. vm_compute. reflexivity. Qed.

(** The pass over the example queue registers builds 1 and 5. *)
Lemma getQueuedBuilds_registry_witness :
  getQueuedBuilds exampleEnv 5 0 exampleWorld = Ok (6%N, exampleAfterPass)
  ∧ (∀ i b, builds_ exampleWorld !! i = Some b →
       builds_ exampleAfterPass !! i = Some b)
  ∧ (∀ i b, builds_ exampleAfterPass !! i = Some b →
       builds_ exampleWorld !! i = Some b
       ∨ (builds_ exampleWorld !! i = None ∧ (0 < i)%N
          ∧ (buildOne exampleEnv = 0%N ∨ i = buildOne exampleEnv)
          ∧ ∃ r a, db exampleWorld !! i = Some r ∧ finished r = 0%Z
              ∧ b = set_toplevel (Some a) (buildOfRow i r))).
Proof.
  split; [apply exampleAfterPass_run|].
  apply (getQueuedBuilds_registry exampleEnv 5 0 exampleWorld 6%N
           exampleAfterPass exampleAfterPass_run).
Defined.

(** The row of build 3, whose derivation is gone, is finalized by the
    pass over the example queue. *)
Lemma getQueuedBuilds_database_witness :
  getQueuedBuilds exampleEnv 5 0 exampleWorld = Ok (6%N, exampleAfterPass)
  ∧ ∃ r', db exampleAfterPass !! 3%N = Some r'
      ∧ (r' = exampleRow "/d/gone.drv" 7
         ∨ (finalizes (exampleRow "/d/gone.drv" 7) r' ∧ (0 < 3)%N
            ∧ builds_ exampleWorld !! 3%N = None
            ∧ (buildOne exampleEnv = 0%N ∨ 3%N = buildOne exampleEnv))).
Proof.
  split; [apply exampleAfterPass_run|].
  apply (getQueuedBuilds_database exampleEnv 5 0 exampleWorld 6%N
           exampleAfterPass exampleAfterPass_run 3%N).
Defined.

(** Build 1 of the example is registered after the pass. *)
Lemma getQueuedBuilds_settles_witness :
  getQueuedBuilds exampleEnv 5 0 exampleWorld = Ok (6%N, exampleAfterPass)
  ∧ db exampleWorld !! 1%N = Some (exampleRow "/d/a.drv" 5)
  ∧ finished (exampleRow "/d/a.drv" 5) = 0%Z ∧ (0 < 1)%N
  ∧ (buildOne exampleEnv = 0%N ∨ 1%N = buildOne exampleEnv)
  ∧ (is_Some (builds_ exampleAfterPass !! 1%N)
     ∨ ∃ r', db exampleAfterPass !! 1%N = Some r' ∧ finished r' = 1%Z).
Proof.
  split; [apply exampleAfterPass_run|]. split; [reflexivity|].
  split; [reflexivity|]. split; [reflexivity|]. split; [by left|].
  apply (getQueuedBuilds_settles exampleEnv 5 0 exampleWorld 6%N
           exampleAfterPass 1%N (exampleRow "/d/a.drv" 5)
           exampleAfterPass_run eq_refl eq_refl eq_refl (or_introl eq_refl)).
Defined.

(** The watermark of the pass over the example queue is 6. *)
Lemma getQueuedBuilds_watermark_witness :
  getQueuedBuilds exampleEnv 5 0 exampleWorld = Ok (6%N, exampleAfterPass)
  ∧ (0 ≤ 6)%N
  ∧ (∀ i r, db exampleWorld !! i = Some r → finished r = 0%Z → (0 < i)%N →
       buildOne exampleEnv = 0%N ∨ i = buildOne exampleEnv → (i ≤ 6)%N)
  ∧ (6%N = 0%N
     ∨ ∃ r, db exampleWorld !! 6%N = Some r ∧ finished r = 0%Z ∧ (0 < 6)%N
         ∧ (buildOne exampleEnv = 0%N ∨ 6%N = buildOne exampleEnv)).
Proof.
  split; [apply exampleAfterPass_run|].
  apply (getQueuedBuilds_watermark exampleEnv 5 0 exampleWorld 6%N
           exampleAfterPass exampleAfterPass_run).
Defined.

(** ** What a reconciliation does to the registry *)

Lemma reconciles_refl w : reconciles w w.
Proof.
  split; [by destruct w|]. intros a s Hs. exists s.
  split; [done | apply priorityMono_refl].
Qed.

Lemma reconciles_trans w1 w2 w3 :
  reconciles w1 w2 → reconciles w2 w3 → reconciles w1 w3.
Proof.
  intros [E1 H1] [E2 H2]. split.
  - rewrite E2 at 1. rewrite E1 at 1. reflexivity.
  - intros a s3 Hs3. destruct (H2 a s3 Hs3) as (s2 & Hs2 & M2).
    destruct (H1 a s2 Hs2) as (s1 & Hs1 & M1). exists s1.
    split; [done | by eapply priorityMono_trans].
Qed.

Section Reconciled.
Context (E : Env).

Lemma reconcile_reconciles cur ids : ∀ w w',
  reconcile E cur ids w = Ok w' → reconciles w w'.
Proof.
  induction ids as [|i ids IH]; intros w w' H.
  - injection H as <-. apply reconciles_refl.
  - cbn [reconcile] in H. destruct (builds_ w !! i) as [b|]; [|eauto].
    destruct (cur !! i) as [p|].
    + case_decide; [|eauto]. apply bind_Ok in H as (w2 & Hprop & H).
      apply IH in H. eapply reconciles_trans; [|exact H].
      pose proof Hprop as [Hpt Hw]%propagatePriorities_pointwise.
      split.
      * rewrite Hw. reflexivity.
      * intros a s' Hs'. specialize (Hpt a). simpl in Hpt.
        destruct (heap w !! a) as [s|]; [|congruence].
        destruct Hpt as (s'' & Hs'' & Hm). exists s.
        split; [done|]. congruence.
    + apply IH in H. eapply reconciles_trans; [|exact H]. split; [done|].
      intros a s' Hs'. simpl in Hs'. apply dropRefs_lookup_Some in Hs'.
      exists s'. split; [done | apply priorityMono_refl].
Qed.

Lemma reconcile_registry cur ids : ∀ w w',
  NoDup ids → reconcile E cur ids w = Ok w' →
  ∀ i, builds_ w' !! i
       = if decide (i ∈ ids) then reconciled cur i (builds_ w !! i)
         else builds_ w !! i.
Proof.
  induction ids as [|i0 ids IH]; intros w w' Hnd H i.
  - injection H as <-. rewrite decide_False; [done|]. apply not_elem_of_nil.
  - apply NoDup_cons in Hnd as [Hi0 Hnd]. cbn [reconcile] in H.
    assert (∀ w1, reconcile E cur ids w1 = Ok w' →
              builds_ w1 !! i0 = reconciled cur i0 (builds_ w !! i0) →
              (∀ j, j ≠ i0 → builds_ w1 !! j = builds_ w !! j) →
              builds_ w' !! i
              = if decide (i ∈ i0 :: ids)
                then reconciled cur i (builds_ w !! i)
                else builds_ w !! i) as Hstep.
    { intros w1 H1 Hat Hother. rewrite (IH w1 w' Hnd H1 i).
      destruct (decide (i = i0)) as [->|Hne].
      - rewrite decide_False by done. rewrite decide_True by (by left). done.
      - rewrite (Hother i Hne). destruct (decide (i ∈ ids)).
        + rewrite decide_True by (by right). done.
        + rewrite decide_False; [done|]. by apply not_elem_of_cons. }
    unfold reconciled in Hstep.
    destruct (builds_ w !! i0) as [b|] eqn:Hb.
    + destruct (cur !! i0) as [p|] eqn:Hp.
      * destruct (decide (globalPriority b < p)%Z) as [Hlt|Hge].
        -- apply bind_Ok in H as (w2 & Hprop & H).
           apply propagatePriorities_heapOnly in Hprop.
           apply (Hstep w2 H); rewrite Hprop; simpl.
           ++ rewrite lookup_insert_eq. simpl. by rewrite decide_True.
           ++ intros j Hne. by rewrite lookup_insert_ne.
        -- apply (Hstep w H); [|done]. rewrite Hb. simpl.
           by rewrite decide_False.
      * apply (Hstep _ H); simpl.
        -- by rewrite lookup_delete_eq.
        -- intros j Hne. by rewrite lookup_delete_ne.
    + apply (Hstep w H); [|done]. by rewrite Hb.
Qed.

Lemma readCurrentIds_lookup rows : ∀ m cur,
  NoDup rows.*1 → (∀ i, i ∈ rows.*1 → m !! i = None) →
  readCurrentIds rows m = Ok cur →
  ∀ i p, cur !! i = Some p
         ↔ m !! i = Some p
           ∨ ∃ g n, (i, g) ∈ rows ∧ as_BuildID g = Ok n
               ∧ p = int_of_BuildID n.
Proof.
  induction rows as [|[i0 g0] rows IH]; intros m cur Hnd Hm H i p.
  - injection H as <-. split; [by left|].
    intros [?|(g & n & Hin & _)]; [done|]. by apply elem_of_nil in Hin.
  - rewrite fmap_cons in Hnd. apply NoDup_cons in Hnd as [Hi0 Hnd].
    cbn [readCurrentIds] in H. apply bind_Ok in H as (n0 & Hn0 & H).
    assert (∀ j, j ∈ rows.*1 →
              <[i0 := int_of_BuildID n0]> m !! j = None) as Hm'.
    { intros j Hj. rewrite lookup_insert_ne; [|by intros <-].
      apply Hm. rewrite fmap_cons. by right. }
    rewrite (IH _ _ Hnd Hm' H i p). split.
    + intros [Hold|(g & n & Hin & Hg & ->)].
      * apply lookup_insert_Some in Hold as [[<- <-]|[_ ?]]; [|by left].
        right. exists g0, n0. split; [by left | done].
      * right. exists g, n. split; [by right | done].
    + intros [Hold|(g & n & Hin & Hg & ->)].
      * left. rewrite lookup_insert_ne; [done|]. intros <-.
        rewrite Hm in Hold; [done|]. rewrite fmap_cons. by left.
      * apply elem_of_cons in Hin as [[= -> ->]|Hin].
        -- left. rewrite lookup_insert_eq. congruence.
        -- right. eauto.
Qed.

Lemma elem_of_queryUnfinished d i g :
  (i, g) ∈ queryUnfinished d
  ↔ ∃ r, d !! i = Some r ∧ finished r = 0%Z ∧ g = globalPriority_ r.
Proof.
  unfold queryUnfinished. rewrite list_elem_of_fmap. split.
  - intros ([j r] & [= -> ->] & Hin).
    apply list_elem_of_filter in Hin as [Hf Hin].
    apply elem_of_map_to_list in Hin. eauto.
  - intros (r & Hr & Hf & ->). exists (i, r). split; [done|].
    apply list_elem_of_filter. split; [done|]. by apply elem_of_map_to_list.
Qed.

Lemma queryUnfinished_NoDup d : NoDup (queryUnfinished d).*1.
Proof.
  unfold queryUnfinished. rewrite <- list_fmap_compose.
  apply (NoDup_fst_filter (λ kr, finished kr.2 = 0%Z) (map_to_list d)).
  apply NoDup_fst_map_to_list.
Qed.

Lemma processQueueChange_inv_reconcile w w' :
  processQueueChange E w = Ok w' →
  ∃ cur, readCurrentIds (queryUnfinished (db w)) ∅ = Ok cur
    ∧ reconcile E cur (merge_sort N.le (elements (dom (builds_ w)))) w
      = Ok w'.
Proof.
  intros H. unfold processQueueChange in H.
  apply bind_Ok in H as (cur & Hcur & H). eauto.
Qed.

Lemma reconcile_all cur w w' i :
  reconcile E cur (merge_sort N.le (elements (dom (builds_ w)))) w = Ok w' →
  builds_ w' !! i = reconciled cur i (builds_ w !! i).
Proof.
  intros H.
  assert (NoDup (merge_sort N.le (elements (dom (builds_ w))))) as Hnd.
  { rewrite merge_sort_Permutation. apply NoDup_elements. }
  rewrite (reconcile_registry _ _ _ _ Hnd H i).
  destruct (decide (i ∈ merge_sort N.le (elements (dom (builds_ w)))))
    as [Hin|Hnot]; [done|].
  rewrite merge_sort_Permutation, elem_of_elements, elem_of_dom in Hnot.
  destruct (builds_ w !! i); [|done]. exfalso. eauto.
Qed.

(** X8. After a reconciliation the registry holds exactly the builds it
    held that are unfinished in the database; each has the larger of its
    own and the database's [globalPriority] and is otherwise unchanged.
    The snapshot [currentIds] has an entry for exactly the unfinished
    rows. *)
Theorem processQueueChange_registry w w' :
  processQueueChange E w = Ok w' →
  ∃ currentIds,
    readCurrentIds (queryUnfinished (db w)) ∅ = Ok currentIds
    ∧ (∀ i p, currentIds !! i = Some p
         ↔ ∃ r n, db w !! i = Some r ∧ finished r = 0%Z
             ∧ as_BuildID (globalPriority_ r) = Ok n
             ∧ p = int_of_BuildID n)
    ∧ ∀ i, builds_ w' !! i = reconciled currentIds i (builds_ w !! i).
Proof.
  intros H. apply processQueueChange_inv_reconcile in H as (cur & Hcur & H).
  exists cur. split; [done|]. split; [|intros i; by apply reconcile_all].
  intros i p.
  rewrite (readCurrentIds_lookup _ _ _ (queryUnfinished_NoDup (db w))
             (λ j _, lookup_empty j) Hcur i p).
  rewrite lookup_empty. split.
  - intros [?|(g & n & Hin & Hg & ->)]; [done|].
    apply elem_of_queryUnfinished in Hin as (r & Hr & Hf & ->). eauto 10.
  - intros (r & n & Hr & Hf & Hg & ->). right. exists (globalPriority_ r), n.
    split; [|done]. apply elem_of_queryUnfinished. eauto.
Qed.

(** X9. A reconciliation works on the registry and on the Steps only:
    it does not write to the database, allocates no Step and leaves the
    Step Graph map, the counters and the runnable queue alone. A Step
    that is alive afterwards was alive, and its priority fields moved
    monotonically. A build that stays registered keeps all its fields but
    [globalPriority], which does not go down. *)
Theorem processQueueChange_frame w w' :
  processQueueChange E w = Ok w' →
  db w' = db w ∧ buildSteps w' = buildSteps w
  ∧ steps_ w' = steps_ w ∧ next w' = next w
  ∧ nrBuildsRead w' = nrBuildsRead w ∧ nrBuildsDone w' = nrBuildsDone w
  ∧ runnable w' = runnable w ∧ clock w' = clock w
  ∧ (∀ a s', heap w' !! a = Some s' →
       ∃ s, heap w !! a = Some s ∧ priorityMono s s')
  ∧ (∀ i b', builds_ w' !! i = Some b' →
       ∃ b, builds_ w !! i = Some b
         ∧ (globalPriority b ≤ globalPriority b')%Z
         ∧ b' = set_globalPriority (globalPriority b') b).
Proof.
  intros H. apply processQueueChange_inv_reconcile in H as (cur & Hcur & H).
  pose proof (reconcile_reconciles _ _ _ _ H) as [Hw Hheap].
  split; [by rewrite Hw|]. split; [by rewrite Hw|]. split; [by rewrite Hw|].
  split; [by rewrite Hw|]. split; [by rewrite Hw|]. split; [by rewrite Hw|].
  split; [by rewrite Hw|]. split; [by rewrite Hw|]. split; [done|].
  intros i b' Hb'. rewrite (reconcile_all _ _ _ i H) in Hb'.
  unfold reconciled in Hb'. destruct (builds_ w !! i) as [b|]; [|done].
  simpl in Hb'. destruct (cur !! i) as [p|]; [|done]. simpl in Hb'.
  exists b. split; [done|]. injection Hb' as <-. case_decide.
  - simpl. split; [lia | done].
  - split; [lia|]. by destruct b.
Qed.

End Reconciled.

Lemma exampleReconciled_run :
  processQueueChange exampleEnv exampleBumped = Ok exampleReconciled.
Proof. vm_compute. reflexivity. Qed.

(** In the example, build 5 left the queue and build 1 was bumped. *)
Lemma processQueueChange_registry_witness :
  processQueueChange exampleEnv exampleBumped = Ok exampleReconciled
  ∧ ∃ currentIds,
      readCurrentIds (queryUnfinished (db exampleBumped)) ∅ = Ok currentIds
      ∧ (∀ i p, currentIds !! i = Some p
           ↔ ∃ r n, db exampleBumped !! i = Some r ∧ finished r = 0%Z
               ∧ as_BuildID (globalPriority_ r) = Ok n
               ∧ p = int_of_BuildID n)
      ∧ ∀ i, builds_ exampleReconciled !! i
             = reconciled currentIds i (builds_ exampleBumped !! i).
Proof.
  split; [apply exampleReconciled_run|].
  apply (processQueueChange_registry exampleEnv exampleBumped
           exampleReconciled exampleReconciled_run).
Defined.

Lemma processQueueChange_frame_witness :
  processQueueChange exampleEnv exampleBumped = Ok exampleReconciled
  ∧ db exampleReconciled = db exampleBumped
  ∧ next exampleReconciled = next exampleBumped
  ∧ (∀ i b', builds_ exampleReconciled !! i = Some b' →
       ∃ b, builds_ exampleBumped !! i = Some b
         ∧ (globalPriority b ≤ globalPriority b')%Z
         ∧ b' = set_globalPriority (globalPriority b') b).
Proof.
  split; [apply exampleReconciled_run|].
  destruct (processQueueChange_frame exampleEnv exampleBumped
              exampleReconciled exampleReconciled_run)
    as (Hd & _ & _ & Hn & _ & _ & _ & _ & _ & Hb).
  split; [exact Hd|]. split; [exact Hn | exact Hb].
Defined.

(** ** The event loop *)

Lemma monitorIteration_Ok depth E n m m' :
  monitorIteration depth E n m = Ok m' →
  ∃ last w w',
    getQueuedBuilds E depth (lastBuildId m) (world m) = Ok (last, w)
    ∧ (if buildsCancelled n || buildsDeleted n || buildsBumped n
       then processQueueChange E (set_db (tableNow n (db w)) w) = Ok w'
       else w' = set_db (tableNow n (db w)) w)
    ∧ m' = {| world := w';
              lastBuildId := if buildsRestarted n then 0%N else last;
              nrQueueWakeups := (nrQueueWakeups m + 1)%N |}.
Proof.
  intros H. unfold monitorIteration in H.
  apply bind_Ok in H as ([last w] & Hpass & H).
  exists last, w.
  destruct (buildsCancelled n || buildsDeleted n || buildsBumped n).
  - apply bind_Ok in H as (w' & Hrec & [= <-]). eauto.
  - injection H as <-. eauto.
Qed.

Lemma getQueuedBuilds_kept E depth last w last' w' :
  getQueuedBuilds E depth last w = Ok (last', w') →
  (last ≤ last')%N
  ∧ ∀ i b, builds_ w !! i = Some b → builds_ w' !! i = Some b.
Proof.
  intros H.
  apply getQueuedBuilds_pending in H as (ids & w1 & Hrows & _ & C & _).
  destruct (readRows_pending _ _ _ _ _ _ _ _ (queryQueue_NoDup (db w) last)
              (λ i _, lookup_empty i) Hrows)
    as (_ & _ & _ & _ & Hb1 & _ & _ & Hle & _).
  split; [done|]. destruct C as (_ & Kept & _).
  intros i b Hb. apply Kept. by rewrite Hb1.
Qed.

Lemma monitorIteration_safe depth rank E n m :
  acyclic E rank → graphInv (world m) → allCreated (world m) →
  match monitorIteration depth E n m with
  | Ok m' => graphInv (world m') ∧ allCreated (world m')
  | Err e => e ≠ AssertionFailed
  end.
Proof.
  intros Hrank Hinv Hall. unfold monitorIteration.
  pose proof (getQueuedBuilds_safe E rank Hrank depth (lastBuildId m)
                (world m) Hall) as Hsafe.
  pose proof (getQueuedBuilds_inv E depth (lastBuildId m) (world m)) as Hpass.
  destruct (getQueuedBuilds E depth (lastBuildId m) (world m))
    as [[last w]|e]; [|done].
  cbn [mbind result_bind]. simpl in Hsafe.
  specialize (Hpass last w Hinv eq_refl).
  assert (graphInv (set_db (tableNow n (db w)) w)) as Hinv1
    by (by apply (graphInv_same w)).
  assert (allCreated (set_db (tableNow n (db w)) w)) as Hall1 by exact Hsafe.
  destruct (buildsCancelled n || buildsDeleted n || buildsBumped n);
    [|done].
  pose proof (processQueueChange_safe E _ Hall1) as Hsafe2.
  pose proof (processQueueChange_inv E (set_db (tableNow n (db w)) w))
    as Hrec.
  destruct (processQueueChange E (set_db (tableNow n (db w)) w)) as [w'|e];
    [|done].
  simpl. split; [by apply Hrec | done].
Qed.

(** X10. The loop keeps the invariants of the queue runner over any
    sequence of wake-ups: when every registered live Step is created,
    no two live Steps have the same derivation path and every
    registered build owns its live top-level Step, this is so again
    after the iterations, whatever the other clients did to the
    database; and no iteration fails an assertion. *)
Theorem queueMonitorLoop_invariant depth rank rounds wakeups w :
  (∀ r, r ∈ rounds → acyclic r.1 rank) →
  graphInv w → allCreated w →
  match queueMonitorLoop depth rounds wakeups w with
  | Ok m => graphInv (world m) ∧ allCreated (world m)
  | Err e => e ≠ AssertionFailed
  end.
Proof.
  unfold queueMonitorLoop. intros Hrank Hinv Hall.
  set (m := {| world := w; lastBuildId := 0; nrQueueWakeups := wakeups |}).
  change (graphInv (world m)) in Hinv. change (allCreated (world m)) in Hall.
  clearbody m. revert m Hinv Hall.
  induction rounds as [|[E n] rounds IH]; intros m Hinv Hall; [done|].
  cbn [monitorIterations].
  pose proof (monitorIteration_safe depth rank E n m
                (Hrank (E, n) ltac:(by left)) Hinv Hall) as Hstep.
  destruct (monitorIteration depth E n m) as [m1|e]; [|done].
  cbn [mbind result_bind]. destruct Hstep as [Hinv1 Hall1].
  apply IH; [|done..]. intros r Hr. apply Hrank. by right.
Qed.

(** X11. Every iteration counts one wake-up. Without a restart
    notification [lastBuildId] does not go down over the iterations;
    after an iteration that gets one it is 0. *)
Theorem monitorIterations_watermark depth rounds m m' :
  monitorIterations depth rounds m = Ok m' →
  nrQueueWakeups m' = (nrQueueWakeups m + N.of_nat (length rounds))%N
  ∧ (noRestart rounds → (lastBuildId m ≤ lastBuildId m')%N)
  ∧ (∀ pre E n, rounds = pre ++ [(E, n)] → buildsRestarted n = true →
       lastBuildId m' = 0%N).
Proof.
  revert m. induction rounds as [|[E n] rounds IH]; intros m H.
  - injection H as <-. split; [simpl; lia|]. split; [done|].
    intros pre E n Heq. by destruct pre.
  - cbn [monitorIterations] in H. apply bind_Ok in H as (m1 & H1 & H).
    pose proof H as Hrun. apply IH in H as (Hw & Hno & Hlast).
    apply monitorIteration_Ok in H1 as (last & w & w' & Hpass & _ & ->).
    apply getQueuedBuilds_kept in Hpass as [Hle _].
    cbn [nrQueueWakeups lastBuildId] in *.
    split; [rewrite Hw; simpl length; lia|]. split.
    + intros Hnr.
      assert (buildsRestarted n = false) as Hn
        by (apply (Hnr (E, n)); by left).
      rewrite Hn in Hno. etrans; [exact Hle|]. apply Hno.
      intros r Hr. apply Hnr. by right.
    + intros pre E' n' Heq Hrest. destruct pre as [|r0 pre].
      * injection Heq as -> -> ->. injection Hrun as <-. simpl.
        by rewrite Hrest.
      * injection Heq as _ Heq. by eapply Hlast.
Qed.

(** X12. Over iterations whose wake-ups report no cancelled, deleted or
    bumped build, no build leaves the registry and none changes. *)
Theorem monitorIterations_registry depth rounds m m' :
  noQueueChange rounds → monitorIterations depth rounds m = Ok m' →
  ∀ i b, builds_ (world m) !! i = Some b → builds_ (world m') !! i = Some b.
Proof.
  revert m. induction rounds as [|[E n] rounds IH]; intros m Hno H i b Hb.
  - by injection H as <-.
  - cbn [monitorIterations] in H. apply bind_Ok in H as (m1 & H1 & H).
    apply (IH m1); [intros r Hr; apply Hno; by right | done |].
    apply monitorIteration_Ok in H1 as (last & w & w' & Hpass & Hw' & ->).
    pose proof (Hno (E, n) ltac:(by left)) as Hn. simpl in Hn.
    rewrite Hn in Hw'. subst w'. simpl.
    apply getQueuedBuilds_kept in Hpass as [_ Hkept]. by apply Hkept.
Qed.

Lemma graphInv_initialWorld : graphInv initialWorld.
Proof.
  split; [apply sharing_initialWorld|]. intros i b Hb.
  cbn [builds_ initialWorld] in Hb. by rewrite lookup_empty in Hb.
Qed.

Lemma allCreated_initialWorld : allCreated initialWorld.
Proof.
  split.
  - intros q a Hq. cbn [steps_ initialWorld] in Hq.
    by rewrite lookup_empty in Hq.
  - intros p a s Hl. apply lockStep_Some in Hl as [Hp _].
    cbn [steps_ initialWorld] in Hp. by rewrite lookup_empty in Hp.
Qed.

Lemma exampleRounds_run :
  monitorIterations 5 [exampleAdded; exampleChanged] exampleStart
  = Ok (afterRounds [exampleAdded; exampleChanged]).
Proof. vm_compute. reflexivity. Qed.

(** The example queue, then a new build, then a cancelled and a bumped
    build. *)
Lemma queueMonitorLoop_invariant_witness :
  (∀ r, r ∈ [exampleAdded; exampleChanged] → acyclic r.1 exampleRank)
  ∧ graphInv exampleWorld ∧ allCreated exampleWorld
  ∧ queueMonitorLoop 5 [exampleAdded; exampleChanged] 0 exampleWorld
    = Ok (afterRounds [exampleAdded; exampleChanged])
  ∧ graphInv (world (afterRounds [exampleAdded; exampleChanged]))
  ∧ allCreated (world (afterRounds [exampleAdded; exampleChanged])).
Proof.
  assert (∀ r, r ∈ [exampleAdded; exampleChanged] →
               acyclic r.1 exampleRank) as Hrank.
  { intros r Hr. apply elem_of_cons in Hr as [->|Hr];
      [apply exampleRank_acyclic|].
    apply elem_of_cons in Hr as [->|Hr]; [apply exampleRank_acyclic|].
    by apply elem_of_nil in Hr. }
  assert (graphInv exampleWorld) as Hinv.
  { apply (graphInv_same initialWorld); [reflexivity..|].
    apply graphInv_initialWorld. }
  assert (allCreated exampleWorld) as Hall by exact allCreated_initialWorld.
  split; [exact Hrank|]. split; [exact Hinv|]. split; [exact Hall|].
  split; [exact exampleRounds_run|].
  pose proof (queueMonitorLoop_invariant 5 exampleRank
                [exampleAdded; exampleChanged] 0 exampleWorld Hrank Hinv Hall)
    as H.
  unfold queueMonitorLoop in H. fold exampleStart in H.
  rewrite exampleRounds_run in H. exact H.
Defined.

Lemma monitorIterations_watermark_witness :
  monitorIterations 5 [exampleAdded; exampleChanged] exampleStart
  = Ok (afterRounds [exampleAdded; exampleChanged])
  ∧ nrQueueWakeups (afterRounds [exampleAdded; exampleChanged]) = 2%N
  ∧ (noRestart [exampleAdded; exampleChanged] →
     (0 ≤ lastBuildId (afterRounds [exampleAdded; exampleChanged]))%N).
Proof.
  split; [exact exampleRounds_run|].
  destruct (monitorIterations_watermark 5 [exampleAdded; exampleChanged]
              exampleStart _ exampleRounds_run) as (Hw & Hno & _).
  split; [exact Hw | exact Hno].
Defined.

Lemma exampleIdle_run :
  monitorIterations 5 [exampleIdle] (afterRounds [exampleAdded])
  = Ok (afterRounds [exampleAdded; exampleIdle]).
Proof. vm_compute. reflexivity. Qed.

(** Builds 1 and 5 of the example stay registered over a wake-up
    without news. *)
Lemma monitorIterations_registry_witness :
  noQueueChange [exampleIdle]
  ∧ monitorIterations 5 [exampleIdle] (afterRounds [exampleAdded])
    = Ok (afterRounds [exampleAdded; exampleIdle])
  ∧ ∀ i b, builds_ (world (afterRounds [exampleAdded])) !! i = Some b →
           builds_ (world (afterRounds [exampleAdded; exampleIdle])) !! i
           = Some b.
Proof.
  assert (noQueueChange [exampleIdle]) as Hno.
  { intros r Hr. apply elem_of_cons in Hr as [->|Hr]; [reflexivity|].
    by apply elem_of_nil in Hr. }
  split; [exact Hno|]. split; [exact exampleIdle_run|].
  exact (monitorIterations_registry 5 [exampleIdle]
           (afterRounds [exampleAdded]) _ Hno exampleIdle_run).
Defined.

(** ** The jobset registry *)

Lemma shares_foldl_addStep rows j :
  shares (foldl (λ j row, addStep row.1 (row.2 - row.1)%Z j) j rows)
  = shares j.
Proof.
  revert j. induction rows as [|r rows IH]; intros j; [done|].
  simpl. by rewrite IH.
Qed.

Section JobsetRegistry.
Context (schedulingWindow : Z).

Lemma createJobset_hit d now p j m js :
  m !! (p, j) = Some js →
  createJobset schedulingWindow d now p j m = Ok ((p, j), m).
Proof. intros H. unfold createJobset. by rewrite H. Qed.

Lemma createJobset_miss d now p j m ptr m' :
  m !! (p, j) = None →
  createJobset schedulingWindow d now p j m = Ok (ptr, m') →
  ∃ z rest n js,
    querySchedulingShares d p j = z :: rest ∧ as_BuildID z = Ok n
    ∧ shares js = (if decide (n = 0%N) then 1%N else n)
    ∧ ptr = (p, j) ∧ m' = <[(p, j) := js]> m.
Proof.
  intros Hm H. unfold createJobset in H. rewrite Hm in H.
  destruct (querySchedulingShares d p j) as [|z rest]; [done|].
  apply bind_Ok in H as (n & Hn & [= <- <-]).
  eexists z, rest, n, _. split; [done|]. split; [done|].
  split; [|done]. by rewrite shares_foldl_addStep.
Qed.

(** X13. [createJobset] gives the Jobset of the pair, which is in the
    registry afterwards, and leaves the other jobsets alone. A jobset
    that is registered is returned as it is: the registry does not
    change, and a later call returns the same registry whatever the
    database holds by then. *)
Theorem createJobset_memo d now p j m ptr m' :
  createJobset schedulingWindow d now p j m = Ok (ptr, m') →
  ptr = (p, j) ∧ is_Some (m' !! (p, j))
  ∧ (∀ k, k ≠ (p, j) → m' !! k = m !! k)
  ∧ (is_Some (m !! (p, j)) → m' = m)
  ∧ (∀ d' now', createJobset schedulingWindow d' now' p j m'
                = Ok (ptr, m')).
Proof.
  intros H. destruct (m !! (p, j)) as [js|] eqn:Hm.
  - rewrite (createJobset_hit d now p j m js Hm) in H.
    injection H as <- <-. split; [done|]. split; [eauto|].
    split; [done|]. split; [done|]. intros d' now'.
    by apply (createJobset_hit d' now' p j m js).
  - apply createJobset_miss in H
      as (z & rest & n & js & _ & _ & _ & -> & ->); [|done].
    split; [done|]. rewrite lookup_insert_eq. split; [eauto|].
    split; [intros k Hk; by rewrite lookup_insert_ne|].
    split; [by intros [? ?]|]. intros d' now'.
    apply (createJobset_hit d' now' p j _ js). apply lookup_insert_eq.
Qed.

(** X14. Every Jobset of the registry has at least one share, and
    [createJobset] keeps it so: a new Jobset gets the shares of the
    first row of the query, and one share when the row says 0. *)
Theorem createJobset_shares d now p j m ptr m' :
  sharesPositive m →
  createJobset schedulingWindow d now p j m = Ok (ptr, m') →
  sharesPositive m'
  ∧ (m !! (p, j) = None →
     ∃ z rest js, querySchedulingShares d p j = z :: rest
       ∧ m' !! (p, j) = Some js
       ∧ (0 ≤ z < 2 ^ 32)%Z
       ∧ shares js = N.max 1 (Z.to_N z)).
Proof.
  intros Hpos H. destruct (m !! (p, j)) as [js|] eqn:Hm.
  - rewrite (createJobset_hit d now p j m js Hm) in H.
    injection H as <- <-. split; [done|]. done.
  - apply createJobset_miss in H
      as (z & rest & n & js & Hq & Hn & Hs & -> & ->); [|done].
    unfold as_BuildID in Hn.
    destruct (decide (0 ≤ z < 2 ^ 32)%Z) as [Hz|Hz]; [|done].
    injection Hn as <-.
    assert (shares js = N.max 1 (Z.to_N z)) as Hmax.
    { rewrite Hs. destruct (decide (Z.to_N z = 0%N)); lia. }
    split.
    + intros k js' Hk. apply lookup_insert_Some in Hk as [[_ <-]|[_ Hk]].
      * lia.
      * by eapply Hpos.
    + intros _. exists z, rest, js. rewrite lookup_insert_eq. done.
Qed.

(** X15. [createJobset] throws exactly when the jobset is not registered
    and the [Jobsets] table has no row for it, or the shares of the
    first row are no [unsigned int]. *)
Theorem createJobset_throws d now p j m :
  (∃ e, createJobset schedulingWindow d now p j m = Err e)
  ↔ m !! (p, j) = None
    ∧ (querySchedulingShares d p j = []
       ∨ ∃ z rest, querySchedulingShares d p j = z :: rest
           ∧ ¬ (0 ≤ z < 2 ^ 32)%Z).
Proof.
  unfold createJobset. destruct (m !! (p, j)) as [js|].
  { split; [by intros [e ?] | by intros [? _]]. }
  destruct (querySchedulingShares d p j) as [|z rest].
  { split; [intros _; split; [done | by left] | eauto]. }
  unfold as_BuildID.
  destruct (decide (0 ≤ z < 2 ^ 32)%Z) as [Hz|Hz]; cbn [mbind result_bind].
  - split; [by intros [e ?]|]. intros [_ [?|(z' & rest' & [= <- <-] & Hn)]];
      done.
  - split; [|eauto]. intros _. split; [done|]. right. eauto.
Qed.

End JobsetRegistry.

Lemma exampleJobsets_run :
  createJobset 3600 exampleJobsetDb 1000 "p" "j" ∅
  = Ok (("p", "j")%string, exampleJobsets).
Proof. vm_compute. reflexivity. Qed.

(** The jobset of the example is created with one share. *)
Lemma createJobset_memo_witness :
  createJobset 3600 exampleJobsetDb 1000 "p" "j" ∅
  = Ok (("p", "j")%string, exampleJobsets)
  ∧ is_Some (exampleJobsets !! ("p", "j")%string)
  ∧ (∀ d' now', createJobset 3600 d' now' "p" "j" exampleJobsets
                = Ok (("p", "j")%string, exampleJobsets)).
Proof.
  split; [exact exampleJobsets_run|].
  destruct (createJobset_memo 3600 exampleJobsetDb 1000 "p" "j" ∅ _ _
              exampleJobsets_run) as (_ & Hin & _ & _ & Hagain).
  split; [exact Hin | exact Hagain].
Defined.

Lemma createJobset_shares_witness :
  sharesPositive ∅
  ∧ createJobset 3600 exampleJobsetDb 1000 "p" "j" ∅
    = Ok (("p", "j")%string, exampleJobsets)
  ∧ sharesPositive exampleJobsets
  ∧ ∃ js, exampleJobsets !! ("p", "j")%string = Some js ∧ shares js = 1%N.
Proof.
  assert (sharesPositive ∅) as H0.
  { intros k js Hk. by rewrite lookup_empty in Hk. }
  split; [exact H0|]. split; [exact exampleJobsets_run|].
  destruct (createJobset_shares 3600 exampleJobsetDb 1000 "p" "j" ∅ _ _ H0
              exampleJobsets_run) as [Hpos Hnew].
  split; [exact Hpos|].
  destruct (Hnew (lookup_empty _)) as (z & rest & js & Hq & Hjs & _ & Hs).
  exists js. split; [exact Hjs|]. injection Hq as <- _. exact Hs.
Defined.

(** ** Builds that are admitted *)

Section Admission.
Context (E : Env).

(** Propagation covers the top-level step itself. *)
Lemma propagatePriorities_toplevel b a w s :
  toplevel b = Some a → heap w !! a = Some s →
  ∃ w' s', propagatePriorities E b w = Ok w' ∧ heapOnly w w'
    ∧ heap w' !! a = Some s' ∧ covers b s'.
Proof.
  intros Ht Hs. unfold propagatePriorities. rewrite Ht.
  eexists _. 
  pose proof (visitLoop_pointwise E (raisePriorities b)
                (λ s s', covers b s → covers b s')
                (λ _ H, H) (λ _ _ _ H1 H2 H, H2 (H1 H))
                (λ s _, covers_raise b s)) as Hpt.
  unfold visitDependencies. cbn [visitLoop].
  match goal with
  | |- context [visitLoop E ?f _ ?t ?q ?h] =>
      specialize (Hpt f t q h a)
  end.
  rewrite lookup_alter_eq, Hs in Hpt. simpl in Hpt.
  destruct Hpt as (s' & Hs' & Hc). exists s'.
  split; [reflexivity|]. split; [done|]. split; [exact Hs'|].
  apply Hc, covers_raise.
Qed.

(** X16. The expansion of a build (with [finishedInDB] false) produced
    the top-level step [a]; every new step has no cached failure and a
    machine that supports it. Then the loader admits the build: it
    enters the registry under its id with [toplevel] set to [a]; the
    database, the [BuildSteps] table and [nrBuildsDone] are untouched;
    the top-level step is alive afterwards and covers the priorities,
    the id and the jobset of the build. *)
Theorem createBuild_admits depth fuel held b w a x w1 w2 s :
  isValidPath E (build_drvPath b) = true →
  finishedInDB b = false →
  createStep E depth (build_drvPath b) (Some (build_id b)) None
    emptyExpansion (enter b w) = Ok (Some a, x, w1) →
  loadNested
    (createBuild E depth fuel (held ∪ newSteps x ∪ option_to_set (Some a)))
    (order E (elements (newSteps x))) w1 = Ok w2 →
  (∀ r, r ∈ newSteps x → ∃ s, heap w2 !! r = Some s ∧ goodStep E s) →
  heap w2 !! a = Some s →
  ∃ w',
    createBuild E depth (S fuel) held b w
      = Ok (set_toplevel (Some a) b, w')
    ∧ builds_ w' = <[build_id b := set_toplevel (Some a) b]> (builds_ w2)
    ∧ db w' = db w2 ∧ buildSteps w' = buildSteps w2
    ∧ nrBuildsDone w' = nrBuildsDone w2 ∧ clock w' = clock w2
    ∧ ∃ s', heap w' !! a = Some s' ∧ covers (set_toplevel (Some a) b) s'.
Proof.
  intros Hv Hf Hstep Hnest Hgood Hs.
  set (b' := set_toplevel (Some a) b).
  set (w3 := set_builds (<[build_id b := b']> (builds_ w2)) w2).
  destruct (propagatePriorities_toplevel b' a w3 s eq_refl Hs)
    as (w4 & s' & Hprop & Hw4 & Hs' & Hcov).
  exists (leave held x (Some a) w4). split.
  { cbn [createBuild]. rewrite Hv. cbn [negb].
    lazymatch goal with
    | |- context [createStep E _ _ _ _ _ ?w0] => change w0 with (enter b w)
    end.
    rewrite Hstep. cbn [mbind result_bind]. rewrite Hnest.
    cbn [mbind result_bind]. rewrite checkSteps_good.
    2:{ intros r Hr. apply Hgood. apply elem_of_order in Hr.
        by apply elem_of_elements in Hr. }
    cbn [mbind result_bind finishedInDB set_toplevel]. rewrite Hf.
    fold b'. change (build_id b') with (build_id b). fold w3.
    rewrite Hprop. reflexivity. }
  unfold leave. cbn [builds_ db buildSteps nrBuildsDone clock set_heap].
  rewrite Hw4. cbn [builds_ db buildSteps nrBuildsDone clock set_heap].
  repeat (split; [reflexivity|]).
  exists s'. split; [|done]. cbn [heap set_heap].
  apply dropRefs_keeps; [|done]. unfold owners.
  apply elem_of_union_r. apply (elem_of_registryRoots _ (build_id b) b').
  - rewrite Hw4. simpl. apply lookup_insert_eq.
  - done.
Qed.

End Admission.

(** Build 1 of the example is admitted with the Step of [a] on top. *)
Lemma createBuild_admits_witness :
  isValidPath exampleEnv (build_drvPath (exampleBuild 1 "/d/a.drv" 5)) = true
  ∧ finishedInDB (exampleBuild 1 "/d/a.drv" 5) = false
  ∧ createStep exampleEnv 5 "/d/a.drv" (Some 1%N) None emptyExpansion
      (enter (exampleBuild 1 "/d/a.drv" 5) exampleWorld)
    = Ok (Some 0, exampleExpansion, exampleExpanded)
  ∧ ∃ w',
      createBuild exampleEnv 5 1 ∅ (exampleBuild 1 "/d/a.drv" 5) exampleWorld
        = Ok (set_toplevel (Some 0) (exampleBuild 1 "/d/a.drv" 5), w')
      ∧ builds_ w' !! 1%N
        = Some (set_toplevel (Some 0) (exampleBuild 1 "/d/a.drv" 5))
      ∧ db w' = exampleDb.
Proof.
  assert (createStep exampleEnv 5 "/d/a.drv" (Some 1%N) None emptyExpansion
            (enter (exampleBuild 1 "/d/a.drv" 5) exampleWorld)
          = Ok (Some 0, exampleExpansion, exampleExpanded)) as Hstep
    by (vm_compute; reflexivity).
  split; [reflexivity|]. split; [reflexivity|]. split; [exact Hstep|].
  assert (∀ r, r = 0 ∨ r = 1 →
            heap exampleExpanded !! r
            = Some (default (new_Step "") (heap exampleExpanded !! r))
            ∧ goodStep exampleEnv
                (default (new_Step "") (heap exampleExpanded !! r)))
    as Hsteps.
  { intros r [-> | ->]; (split; [vm_compute; reflexivity|]);
      unfold goodStep; split; vm_compute; reflexivity. }
  destruct (createBuild_admits exampleEnv 5 0 ∅
              (exampleBuild 1 "/d/a.drv" 5) exampleWorld 0 exampleExpansion
              exampleExpanded exampleExpanded
              (default (new_Step "") (heap exampleExpanded !! 0))
              eq_refl eq_refl Hstep)
    as (w' & Hrun & Hreg & Hdb & _).
  - vm_compute. reflexivity.
  - intros r Hr. exists (default (new_Step "") (heap exampleExpanded !! r)).
    apply Hsteps.
    assert (newSteps exampleExpansion = {[0; 1]}) as Hx
      by (vm_compute; reflexivity).
    rewrite Hx in Hr. clear -Hr. set_solver.
  - apply Hsteps. by left.
  - exists w'. split; [exact Hrun|]. split.
    + rewrite Hreg. apply lookup_insert_eq.
    + rewrite Hdb. vm_compute. reflexivity.
Defined.

(** ** The visitor of [propagatePriorities] *)

(** X17. The update that [propagatePriorities] applies to a step is
    idempotent, the updates of two builds commute, and the update of a
    build changes nothing exactly on a step that covers the build. *)
Theorem raisePriorities_algebra b1 b2 s :
  raisePriorities b1 (raisePriorities b1 s) = raisePriorities b1 s
  ∧ raisePriorities b1 (raisePriorities b2 s)
    = raisePriorities b2 (raisePriorities b1 s)
  ∧ (raisePriorities b1 s = s ↔ covers b1 s).
Proof.
  split; [|split].
  - unfold raisePriorities. simpl. f_equal.
    + set_solver.
    + lia.
    + lia.
    + lia.
  - unfold raisePriorities. simpl. f_equal.
    + set_solver.
    + lia.
    + lia.
    + lia.
  - split.
    + intros Heq. unfold covers. rewrite <- Heq. simpl.
      split; [lia|]. split; [lia|]. split; [lia | set_solver].
    + intros (Hg & Hl & Hi & Hj). destruct s. unfold raisePriorities.
      simpl in *. f_equal.
      * set_solver.
      * lia.
      * lia.
      * lia.
Qed.

(** ** How a pass can fail *)

Lemma bind_Err {A B} (m : result A) (f : A → result B) (e : error) :
  m ≫= f = Err e → m = Err e ∨ ∃ a, m = Ok a ∧ f a = Err e.
Proof. destruct m as [a|e']; [eauto | intros [= ->]; by left]. Qed.

Section Failures.
Context (E : Env) (rank : string → nat).
Hypothesis Hacyclic : acyclic E rank.

Lemma createDeps_alive rec a :
  (∀ p rb rs x w r x' w',
     newStepsAlive x w → rec p rb rs x w = Ok (r, x', w') →
     newStepsAlive x' w') →
  ∀ inputs x w x' w',
    newStepsAlive x w → createDeps rec a inputs x w = Ok (x', w') →
    newStepsAlive x' w'.
Proof.
  intros Hrec. induction inputs as [|i rest IH]; intros x w x' w' Hal H.
  - by injection H as <- <-.
  - apply createDeps_Ok_inv in H as (dep & x1 & w1 & H1 & H2).
    apply Hrec in H1; [|done]. eapply IH; [|exact H2].
    destruct dep as [d|]; [|done]. destruct H1 as [HF Hal1]. split.
    + intros i' Hi'. simpl in Hi'. apply lookup_alter_is_Some in Hi'.
      by apply HF.
    + intros r Hr. simpl. apply lookup_alter_is_Some. by apply Hal1.
Qed.

Lemma createStep_alive fuel : ∀ p rb rs x w r x' w',
  newStepsAlive x w → createStep E fuel p rb rs x w = Ok (r, x', w') →
  newStepsAlive x' w'.
Proof.
  induction fuel as [|fuel IH]; intros p rb rs x w r x' w' [HF Hal] H;
    [discriminate|].
  pose proof (extends_heapFresh _ _ _ _
                (createStep_extends E _ _ _ _ _ _ _ _ _ H) HF) as HF'.
  split; [done|].
  apply createStep_Ok_inv in H
    as [(_ & _ & -> & ->)
       |[(_ & a & s & Hl & _ & _ & -> & ->)
        |(_ & _ & d & _ & [(_ & _ & -> & ->)
                           |(_ & x2 & w3 & Hd & Hf & _ & ->)])]].
  - done.
  - intros i Hi. simpl. apply lookup_insert_is_Some'; right. by apply Hal.
  - intros i Hi. simpl. rewrite delete_insert_eq.
    specialize (Hal i Hi). pose proof (HF i Hal).
    rewrite lookup_delete_ne by lia. done.
  - apply (createDeps_alive _ _ IH) in Hd as [HF3 Hal3].
    + apply finishStep_Ok in Hf as (s & Hs & _ & Hh & _).
      intros i Hi. rewrite Hh. apply lookup_insert_is_Some'; right.
      by apply Hal3.
    + split.
      * by apply (extends_heapFresh _ _ _ _ (extends_allocStep E p rb rs d x w)).
      * intros i Hi. simpl in Hi. simpl.
        apply elem_of_union in Hi as [->%elem_of_singleton|Hi].
        -- rewrite lookup_insert_eq. eauto.
        -- apply lookup_insert_is_Some'; right. by apply Hal.
Qed.

Lemma createDeps_Err rec a (P : string → Prop) :
  (∀ i x w e, P i → rec i None (Some a) x w = Err e →
     e = AssertionFailed ∨ (e = Exception ∧ unreadableFrom E i)) →
  ∀ inputs x w e,
    (∀ i, i ∈ inputs → P i.1) →
    createDeps rec a inputs x w = Err e →
    e = AssertionFailed
    ∨ (e = Exception ∧ ∃ i, i ∈ inputs.*1 ∧ unreadableFrom E i).
Proof.
  intros Hrec. induction inputs as [|i rest IH]; intros x w e HP H;
    [discriminate|].
  cbn [createDeps] in H. apply bind_Err in H as [H|([[dep x1] w1] & _ & H)].
  - apply Hrec in H as [->|[-> Hu]]; [by left| |apply HP; by left].
    right. split; [done|]. exists i.1. split; [|done].
    rewrite fmap_cons. by left.
  - apply IH in H as [->|(-> & j & Hj & Hu)]; [by left| |].
    + right. split; [done|]. exists j. split; [|done].
      rewrite fmap_cons. by right.
    + intros j Hj. apply HP. by right.
Qed.

Lemma createStep_Err fuel : ∀ p rb rs x w e,
  rank p < fuel → createStep E fuel p rb rs x w = Err e →
  e = AssertionFailed ∨ (e = Exception ∧ unreadableFrom E p).
Proof.
  induction fuel as [|fuel IH]; intros p rb rs x w e Hrank H; [lia|].
  cbn [createStep] in H. case_decide as Hfin; [discriminate|].
  destruct (lockStep w p) as [[a s]|] eqn:Hlock.
  - apply bind_Err in H as [H|(w1 & _ & H)]; [|discriminate].
    unfold linkStep in H. case_bool_decide; [|discriminate].
    injection H as <-. by left.
  - apply bind_Err in H as [H|(w1 & Hlink & H)].
    { unfold linkStep in H. by rewrite bool_decide_eq_false_2 in H. }
    apply linkStep_Ok in Hlink as [_ ->].
    apply bind_Err in H as [H|(d & Hd & H)].
    { destruct (readDerivation E p) eqn:Hd; [discriminate|].
      injection H as <-. right. split; [done|]. by exists p. }
    apply from_option_Ok in Hd. rewrite allocStep_eq in H.
    destruct (allValid E d); [discriminate|].
    apply bind_Err in H as [H|([x2 w3] & Hdeps & H)].
    + apply (createDeps_Err _ _ (λ i, rank i < fuel)) in H
        as [->|(-> & i & Hi & q & Hq & Hnone)]; [by left| | |].
      * right. split; [done|]. exists q. split; [|done].
        eapply rtc_l; [|exact Hq]. by exists d.
      * intros i x0 w0 e0 Hi. by apply IH.
      * intros i Hi. pose proof (Hacyclic p d i.1 Hd) as Hlt.
        assert (i.1 ∈ (inputDrvs d).*1) as Hin
          by (apply list_elem_of_fmap; eauto).
        specialize (Hlt Hin). lia.
    + apply bind_Err in H as [H|(w4 & _ & H)]; [|discriminate].
      eapply createDeps_self in Hdeps as (s' & Hs' & _);
        [| by simpl; rewrite lookup_insert_eq | simpl; lia].
      unfold finishStep in H. rewrite Hs' in H.
      destruct (created s'); [|discriminate]. injection H as <-. by left.
Qed.

Lemma checkSteps_Err b step l w e :
  (∀ r, r ∈ l → is_Some (heap w !! r)) →
  checkSteps E b step l w = Err e → False.
Proof.
  induction l as [|r l IH]; intros Hal H; [discriminate|].
  cbn [checkSteps] in H. destruct (Hal r ltac:(by left)) as [s Hs].
  rewrite Hs in H. destruct (classifyStep E step r s) as [status stepStatus].
  case_decide.
  - apply IH; [|done]. intros r' Hr'. apply Hal. by right.
  - cbn [time0] in H. by destruct (finishedInDB b).
Qed.

End Failures.

Lemma readRows_pendingOk (E : Env) last w last' ids w1 :
  readRows E (queryQueue (db w) last) last [] (startPass w)
    = (last', ids, w1) →
  pendingOk w1.
Proof.
  intros Hread. destruct (readRows_pass _ _ _ _ _ _ Hread) as (A & _ & Hb1 & Hd1).
  intros i b Hb. destruct (A i b Hb) as (r & Hr & Hf & _ & _ & Hreg & ->).
  rewrite Hb1, Hd1. eauto 10.
Qed.

Section PassFailures.
Context (E : Env) (rank : string → nat) (depth : nat).
Hypothesis Hacyclic : acyclic E rank.
Hypothesis Hdepth : ∀ p, rank p < depth.

Lemma expected_mono (m m' : gmap BuildID Build) e :
  m' ⊆ m → expected E m' e → expected E m e.
Proof.
  intros Hsub [->|(-> & i & b & Hb & Hu)]; [by left|]. right.
  split; [done|]. exists i, b. split; [by eapply lookup_weaken | done].
Qed.

Lemma loadNested_Err (rec : Build → World → result (Build * World)) k n :
  (∀ b w e,
     graphInv w → pendingOk w → newBuildsByID w !! build_id b = Some b →
     size (newBuildsByID w) ≤ n → (∀ r, r ∈ k → is_Some (heap w !! r)) →
     rec b w = Err e → expected E (newBuildsByID w) e) →
  (∀ b w b' w',
     graphInv w → rec b w = Ok (b', w') → graphInv w' ∧ keeps k w w') →
  (∀ b w b' w',
     pendingOk w → newBuildsByID w !! build_id b = Some b →
     rec b w = Ok (b', w') →
     pendingOk w' ∧ changes (newBuildsByID w) w w' ∧ noneLost w w') →
  ∀ l w e,
    (∀ r, r ∈ l → r ∈ k) → (∀ r, r ∈ k → is_Some (heap w !! r)) →
    graphInv w → pendingOk w → size (newBuildsByID w) ≤ n →
    loadNested rec l w = Err e → expected E (newBuildsByID w) e.
Proof.
  intros Herr Hinv Hch.
  induction l as [|r l IH]; intros w e Hl Hal Hg Hp Hn H; [discriminate|].
  cbn [loadNested] in H.
  destruct (Hal r (Hl r ltac:(by left))) as [s Hs]. rewrite Hs in H.
  assert (∀ r', r' ∈ l → r' ∈ k) as Hl' by (intros r' Hr'; apply Hl; by right).
  destruct (findByPath (drvPath s) (newBuildsByPath w)) as [i|]; [|eauto].
  destruct (newBuildsByID w !! i) as [b|] eqn:Hb; [|eauto].
  destruct (Hp i b Hb) as (Hid & _). rewrite <- Hid in Hb.
  apply bind_Err in H as [H|([b' w1] & H1 & H)]; [eauto|].
  destruct (Hinv _ _ _ _ Hg H1) as [Hg1 Hk1].
  destruct (Hch _ _ _ _ Hp Hb H1) as (Hp1 & (Hsub & _) & _).
  apply (expected_mono _ (newBuildsByID w1)); [done|].
  apply (IH w1 e); try done.
  - intros r' Hr'. destruct (Hal r' Hr') as [s' Hs'].
    destruct (Hk1 r' s' Hr' Hs') as (s1 & -> & _). eauto.
  - apply map_subseteq_size in Hsub. lia.
Qed.

Lemma createBuild_Err fuel : ∀ held b w e,
  graphInv w → pendingOk w → newBuildsByID w !! build_id b = Some b →
  size (newBuildsByID w) ≤ fuel → (∀ r, r ∈ held → is_Some (heap w !! r)) →
  createBuild E depth fuel held b w = Err e →
  expected E (newBuildsByID w) e.
Proof.
  induction fuel as [|fuel IH]; intros held b w e Hg Hp Hb Hn Hal H.
  { assert (size (newBuildsByID w) = 0) as Hz by lia.
    apply map_size_empty_inv in Hz. rewrite Hz in Hb. done. }
  destruct (isValidPath E (build_drvPath b)) eqn:Hv.
  2:{ rewrite (createBuild_invalid E depth fuel held b w Hv) in H.
      by destruct (finishedInDB b). }
  cbn [createBuild] in H. rewrite Hv in H. cbn [negb] in H.
  change (set_newBuildsByID _ _) with (enter b w) in H.
  assert (graphInv (enter b w)) as Hg0 by (by eapply graphInv_same).
  apply bind_Err in H as [H|([[step x] w1] & Hs & H)].
  { apply (createStep_Err E rank Hacyclic) in H as [->|[-> Hu]];
      [by left | | apply Hdepth].
    right. split; [done|]. by exists (build_id b), b. }
  pose proof (createStep_extends E _ _ _ _ _ _ _ _ _ Hs) as Hext.
  assert (∀ k, keeps k (enter b w) w1) as Hk01.
  { intros k. eapply keeps_extends; [|exact Hext].
    by destruct Hg0 as [(? & _) _]. }
  assert (graphInv w1) as Hg1.
  { destruct Hg0 as [Hsh0 Hadm0]. split.
    - eapply (createStep_sharing E); [|exact Hs]. split; [done|].
      intros p Hin. simpl in Hin. set_solver.
    - apply (admitted_keeps (enter b w) w1); [|exact Hadm0|apply Hk01].
      by destruct Hext as (-> & _). }
  assert (newStepsAlive x w1) as [_ Hnew].
  { eapply createStep_alive; [|exact Hs]. split.
    - by destruct Hg0 as [(? & _) _].
    - intros r Hr. simpl in Hr. set_solver. }
  assert (pendingOk w1) as Hp1.
  { apply (pendingOk_same (enter b w));
      [by destruct Hext as (-> & _)..|]. by apply pendingOk_enter. }
  assert (size (newBuildsByID w1) ≤ fuel) as Hn1.
  { assert (newBuildsByID w1 = delete (build_id b) (newBuildsByID w)) as ->
      by (by destruct Hext as (-> & _)).
    rewrite map_size_delete_Some by eauto. lia. }
  assert (∀ r, r ∈ held ∪ newSteps x ∪ option_to_set step →
               is_Some (heap w1 !! r)) as Hal1.
  { intros r Hr. apply elem_of_union in Hr as [Hr|Hr];
      [apply elem_of_union in Hr as [Hr|Hr]|].
    - destruct (Hal r Hr) as [s Hs0].
      destruct (Hk01 held r s Hr Hs0) as (s1 & -> & _). eauto.
    - by apply Hnew.
    - destruct step as [a|]; [|set_solver].
      simpl in Hr. apply elem_of_singleton in Hr as ->.
      destruct Hg0 as [Hsh0 _].
      destruct (createStep_returned E _ _ _ _ _ _ _ _ _ Hsh0 Hs)
        as (s1 & -> & _). eauto. }
  assert (newBuildsByID w1 ⊆ newBuildsByID w) as Hsub1.
  { assert (newBuildsByID w1 = delete (build_id b) (newBuildsByID w)) as ->
      by (by destruct Hext as (-> & _)).
    apply delete_subseteq. }
  apply bind_Err in H as [H|(w2 & Hnest & H)].
  { apply (expected_mono _ (newBuildsByID w1)); [done|].
    eapply (loadNested_Err _ (held ∪ newSteps x ∪ option_to_set step) fuel);
      [| | | |exact Hal1|exact Hg1|exact Hp1|exact Hn1|exact H].
    - intros b0 w0 e0. apply IH.
    - intros b0 w0 b' w'. apply createBuild_inv.
    - intros b0 w0 b' w' K0 B0 R0.
      destruct (createBuild_changes E _ _ _ _ _ _ _ K0 B0 R0)
        as (? & ? & ? & _). done.
    - intros r Hr. apply elem_of_union_l, elem_of_union_r.
      apply elem_of_elements. by apply elem_of_order in Hr. }
  destruct (loadNested_inv _ _ (createBuild_inv E depth fuel _) _ _ _ Hg1 Hnest)
    as [Hg2 Hk12].
  destruct step as [a|].
  - apply bind_Err in H as [H|([[bad b2] w3] & _ & H)].
    + exfalso. eapply checkSteps_Err; [|exact H].
      intros r Hr. apply elem_of_order, elem_of_elements in Hr.
      destruct (Hnew r Hr) as [s1 Hs1].
      destruct (Hk12 r s1) as (s2 & -> & _); [set_solver | done | eauto].
    + destruct bad; [discriminate|].
      by apply bind_Err in H as [H|(w4 & _ & H)].
  - apply bind_Err in H as [H|(d & _ & H)]; [|discriminate].
    destruct (readDerivation E (build_drvPath b)) eqn:Hd; [discriminate|].
    injection H as <-. right. split; [done|].
    exists (build_id b), b. split; [done|]. by exists (build_drvPath b).
Qed.

Lemma loadBuilds_Err ids : ∀ w e,
  graphInv w → pendingOk w → loadBuilds E depth ids w = Err e →
  expected E (newBuildsByID w) e.
Proof.
  induction ids as [|i ids IH]; intros w e Hg Hp H; [discriminate|].
  cbn [loadBuilds] in H.
  destruct (newBuildsByID w !! i) as [b|] eqn:Hb; [|eauto].
  destruct (Hp i b Hb) as (Hid & _).
  assert (graphInv (set_nrAdded 0 (clearNewRunnable w))) as Hg0.
  { unfold clearNewRunnable.
    eapply (graphInv_same
              (set_heap (dropRefs (newRunnable w) (registryRoots w)
                           (heap w)) w)); [done..|].
    by apply graphInv_dropRefs. }
  assert (pendingOk (set_nrAdded 0 (clearNewRunnable w))) as Hp0
    by (by apply (pendingOk_same w)).
  apply bind_Err in H as [H|([b' w1] & Hc & H)].
  - apply (createBuild_Err _ ∅) in H; [exact H | exact Hg0 | exact Hp0 | | |].
    + by rewrite Hid.
    + lia.
    + intros r Hr. by apply elem_of_empty in Hr.
  - pose proof Hc as Hc'.
    apply createBuild_inv in Hc as [Hg1 _]; [|done].
    apply createBuild_changes in Hc' as (Hp1 & (Hsub & _) & _);
      [|done | by rewrite Hid].
    rewrite foldl_makeRunnable in H.
    apply (expected_mono _ (newBuildsByID w1)); [exact Hsub|].
    apply IH in H; [exact H | |].
    + by eapply graphInv_same.
    + by apply (pendingOk_same w1).
Qed.

(** X20. The loop of a pass that loads the builds read from the queue
    (lines 229-250), from a state that satisfies the invariants of the
    Step Graph and in which the builds that wait are well formed, either
    returns, in a state that satisfies the invariants again, or fails
    with the exception of the store at a derivation that one of the
    waiting builds needs: its own, or an input reached through readable
    derivations. No null Step pointer is dereferenced, no assertion
    fails, and the recursion of [createStep] and [createBuild] ends. *)
Theorem loadBuilds_failures ids w :
  graphInv w → allCreated w → pendingOk w →
  match loadBuilds E depth ids w with
  | Ok w' => graphInv w' ∧ allCreated w'
  | Err e =>
      e = Exception
      ∧ ∃ i b, newBuildsByID w !! i = Some b
          ∧ unreadableFrom E (build_drvPath b)
  end.
Proof.
  intros Hg Hall Hp.
  pose proof (loadBuilds_safe E rank Hacyclic depth ids w Hall) as Hsafe.
  destruct (loadBuilds E depth ids w) as [w'|e] eqn:Hrun.
  - split; [by eapply loadBuilds_inv | done].
  - simpl in Hsafe. by apply loadBuilds_Err in Hrun as [->|He].
Qed.

Section WithJobsets.
Context (schedulingWindow : Z) (jd : JobsetDb).

Lemma createJobset_Ok d now p j m ptr m' :
  createJobset schedulingWindow d now p j m = Ok (ptr, m') →
  ptr = (p, j) ∧ ∀ k, m' !! k = None → m !! k = None.
Proof.
  intros H. unfold createJobset in H.
  destruct (m !! (p, j)) eqn:Hm; [by injection H as <- <-|].
  destruct (querySchedulingShares d p j) as [|z rest]; [done|].
  apply bind_Ok in H as (n & _ & [= <- <-]). split; [done|].
  intros k Hk. apply lookup_insert_None in Hk. by destruct Hk.
Qed.

Lemma createJobset_Err w now p j m e :
  createJobset schedulingWindow (jobsetTables jd w) now p j m = Err e →
  e = Exception ∧ jobsetFailure jd m p j.
Proof.
  intros H. unfold createJobset in H. unfold jobsetFailure.
  change (querySchedulingShares (jobsetTables jd w) p j)
    with (querySchedulingShares jd p j) in H.
  destruct (m !! (p, j)); [done|].
  destruct (querySchedulingShares jd p j) as [|z rest].
  { injection H as <-. split; [done|]. split; [done|]. by left. }
  apply bind_Err in H as [H|(n & _ & H)]; [|done].
  unfold as_BuildID in H. case_decide; [done|]. injection H as <-.
  split; [done|]. split; [done|]. right. eauto.
Qed.

(** The row loop with the jobsets, when it returns, read what [readRows]
    reads; the clock apart. *)
Lemma readRowsWithJobsets_Ok rows : ∀ last ids w v m last' ids' w1 m',
  (∃ c, w = set_clock c v) →
  readRowsWithJobsets E schedulingWindow jd rows last ids w m
    = Ok (last', ids', w1, m') →
  ∃ v1 c, readRows E rows last ids v = (last', ids', v1)
    ∧ w1 = set_clock c v1.
Proof.
  induction rows as [|[i r] rows IH];
    intros last ids w v m last' ids' w1 m' [c Hw] H.
  - injection H as <- <- <- <-. by exists v, c.
  - cbn [readRowsWithJobsets readRows] in *.
    assert (builds_ w = builds_ v) as Hb by (by rewrite Hw).
    destruct (_ && _); [by eapply IH; eauto|].
    rewrite Hb in H. case_decide; [by eapply IH; eauto|].
    cbn [time0] in H. apply bind_Ok in H as ([ptr m1] & Hj & H).
    apply createJobset_Ok in Hj as [-> _].
    eapply IH; [|exact H]. subst w.
    destruct (m !! (project r, jobset_ r)); by eexists.
Qed.

Lemma readRowsWithJobsets_Err rows : ∀ last ids w m e,
  readRowsWithJobsets E schedulingWindow jd rows last ids w m = Err e →
  e = Exception
  ∧ ∃ i r, (i, r) ∈ rows ∧ accepted E (builds_ w) (i, r)
      ∧ jobsetFailure jd m (project r) (jobset_ r).
Proof.
  induction rows as [|[i r] rows IH]; intros last ids w m e H;
    [discriminate|].
  cbn [readRowsWithJobsets] in H.
  assert (∀ last ids w' m',
            builds_ w' = builds_ w →
            (∀ k, m' !! k = None → m !! k = None) →
            readRowsWithJobsets E schedulingWindow jd rows last ids w' m'
              = Err e →
            e = Exception
            ∧ ∃ i' r', (i', r') ∈ (i, r) :: rows
                ∧ accepted E (builds_ w) (i', r')
                ∧ jobsetFailure jd m (project r') (jobset_ r')) as Hrest.
  { intros last0 ids0 w' m' Hb Hm H'.
    apply IH in H' as (-> & i' & r' & Hin & Hacc & Hnone & Hq).
    split; [done|]. exists i', r'. split; [by right|].
    rewrite Hb in Hacc. split; [done|]. split; [by apply Hm | done]. }
  destruct (bool_decide (buildOne E ≠ 0%N) && bool_decide (i ≠ buildOne E))
    eqn:Hone; [by eapply Hrest|].
  case_decide as Hreg; [by eapply Hrest|].
  cbn [time0] in H. apply bind_Err in H as [H|([ptr m1] & Hj & H)].
  - apply createJobset_Err in H as [-> Hf]. split; [done|].
    exists i, r. split; [by left|]. split; [|done]. split.
    + apply andb_false_iff in Hone as [Hone|Hone].
      * left. apply bool_decide_eq_false in Hone.
        by destruct (decide (buildOne E = 0%N)).
      * right. apply bool_decide_eq_false in Hone.
        by destruct (decide (i = buildOne E)).
    + simpl. by apply eq_None_not_Some.
  - apply createJobset_Ok in Hj as [-> Hm].
    eapply Hrest; [|exact Hm|exact H].
    by destruct (m !! (project r, jobset_ r)).
Qed.

(** X18. A pass of the queue monitor, with the row loop that calls
    [createJobset], from a state that satisfies the invariants of the
    Step Graph either returns, in a state that satisfies them again, or
    fails with an exception at an unfinished row above the watermark
    that passes the [buildOne] filter and is not registered: either
    [createJobset] throws for the jobset of the row, or the store cannot
    read a derivation that the build of the row needs. No null Step
    pointer is dereferenced, no assertion fails, and the recursion of
    [createStep] and [createBuild] ends. *)
Theorem getQueuedBuilds_failures last w jobsets_ :
  graphInv w → allCreated w →
  match getQueuedBuildsWithJobsets E schedulingWindow jd depth last w
          jobsets_ with
  | Ok (_, w', _) => graphInv w' ∧ allCreated w'
  | Err e =>
      e = Exception
      ∧ ∃ i r, db w !! i = Some r ∧ finished r = 0%Z ∧ (last < i)%N
          ∧ (buildOne E = 0%N ∨ i = buildOne E) ∧ builds_ w !! i = None
          ∧ (jobsetFailure jd jobsets_ (project r) (jobset_ r)
             ∨ unreadableFrom E (drvPath_ r))
  end.
Proof.
  intros Hg Hall. unfold getQueuedBuildsWithJobsets.
  change (db (startPass w)) with (db w).
  destruct (readRowsWithJobsets E schedulingWindow jd
              (queryQueue (db w) last) last [] (startPass w) jobsets_)
    as [[[[last1 ids] w1] m1]|e] eqn:Hrows; cbn [mbind result_bind].
  2:{ apply readRowsWithJobsets_Err in Hrows
        as (-> & i & r & Hin & [Hone Hreg] & Hf).
      apply elem_of_queryQueue in Hin as (Hr & Hlt & Hfin).
      split; [done|]. exists i, r. eauto 10. }
  apply (readRowsWithJobsets_Ok _ _ _ _ (startPass w)) in Hrows
    as (v1 & c & Hread & ->); [|by exists (clock (startPass w)); destruct w].
  destruct (readRows_pass _ _ _ _ _ _ Hread) as (A & _ & Hb1 & Hd1).
  assert (graphInv (set_clock c v1)) as Hg1.
  { apply (graphInv_same v1); [done..|].
    pose proof (readRows_inv E (queryQueue (db w) last) last []
                  (startPass w)) as Hinv.
    rewrite Hread in Hinv. apply Hinv. by eapply graphInv_same. }
  assert (allCreated (set_clock c v1)) as Hall1.
  { eapply allCreated_graphSafe; [|by apply (graphSafe_same v1)].
    pose proof (readRows_graph E (queryQueue (db w) last) last []
                  (startPass w)) as Hgr.
    rewrite Hread in Hgr. eapply allCreated_graphSafe; [|exact Hgr].
    eapply allCreated_graphSafe; [exact Hall | by apply graphSafe_same]. }
  assert (pendingOk (set_clock c v1)) as Hp1.
  { apply (pendingOk_same v1); [done..|]. by eapply readRows_pendingOk. }
  pose proof (loadBuilds_safe E rank Hacyclic depth ids _ Hall1) as Hsafe.
  destruct (loadBuilds E depth ids (set_clock c v1)) as [w2|e] eqn:Hload;
    cbn [mbind result_bind].
  - split.
    + apply graphInv_dropRefs; [done|]. by eapply loadBuilds_inv.
    + eapply allCreated_graphSafe; [exact Hsafe|].
      apply graphSafe_subheap; [done..|]. apply dropRefs_subseteq.
  - simpl in Hsafe.
    apply loadBuilds_Err in Hload as [->|(-> & i & b & Hb & Hu)];
      [done| |done..].
    split; [done|].
    destruct (A i b Hb) as (r & Hr & Hf & Hlt & Hone & Hreg & ->).
    exists i, r. eauto 10.
Qed.

End WithJobsets.
End PassFailures.

Section ReconcileFailures.
Context (E : Env).

Lemma reconcile_cons cur i ids w :
  reconcile E cur (i :: ids) w
  = reconcile E cur [i] w ≫= reconcile E cur ids.
Proof.
  cbn [reconcile]. destruct (builds_ w !! i) as [b|]; [|done].
  destruct (cur !! i) as [p|]; [|done]. case_decide; [|done].
  by destruct (propagatePriorities E _ _).
Qed.

Lemma reconcile_Err cur ids : ∀ w e,
  graphInv w → reconcile E cur ids w = Err e → False.
Proof.
  induction ids as [|i ids IH]; intros w e Hg H; [discriminate|].
  rewrite reconcile_cons in H. apply bind_Err in H as [H|(w1 & H1 & H)].
  - cbn [reconcile] in H. destruct (builds_ w !! i) as [b|] eqn:Hb; [|done].
    destruct (cur !! i) as [p|]; [|done]. case_decide; [|done].
    destruct Hg as [_ Hadm].
    destruct (Hadm i b Hb) as (_ & a & s & Ht & _).
    unfold propagatePriorities in H. cbn in H. by rewrite Ht in H.
  - eapply IH; [|exact H]. by eapply reconcile_inv.
Qed.

Lemma readCurrentIds_Err rows : ∀ m e,
  readCurrentIds rows m = Err e →
  e = Exception ∧ ∃ i g, (i, g) ∈ rows ∧ ¬ (0 ≤ g < 2 ^ 32)%Z.
Proof.
  induction rows as [|[i g] rows IH]; intros m e H; [discriminate|].
  cbn [readCurrentIds] in H. apply bind_Err in H as [H|(n & _ & H)].
  - unfold as_BuildID in H. case_decide; [discriminate|].
    injection H as <-. split; [done|]. exists i, g. split; [by left | done].
  - apply IH in H as (-> & j & g' & Hin & Hg). split; [done|].
    exists j, g'. split; [by right | done].
Qed.

(** X19. A reconciliation of the registry with the database, from a
    state that satisfies the invariants of the Step Graph, either returns,
    in a state that satisfies them again, or fails with the exception of
    the conversion [as<BuildID>()] of the [globalPriority] column: some
    unfinished row has a [globalPriority] that is negative or does not fit
    32 bits. The reconciliation never dereferences a null top-level
    Step. *)
Theorem processQueueChange_failures w :
  graphInv w →
  match processQueueChange E w with
  | Ok w' => graphInv w'
  | Err e =>
      e = Exception
      ∧ ∃ i r, db w !! i = Some r ∧ finished r = 0%Z
          ∧ ¬ (0 ≤ globalPriority_ r < 2 ^ 32)%Z
  end.
Proof.
  intros Hg. destruct (processQueueChange E w) as [w'|e] eqn:Hrun.
  { by eapply processQueueChange_inv. }
  unfold processQueueChange in Hrun.
  apply bind_Err in Hrun as [H|(cur & _ & H)].
  - apply readCurrentIds_Err in H as (-> & i & g & Hin & Hbad).
    split; [done|].
    apply elem_of_queryUnfinished in Hin as (r & Hr & Hf & ->). eauto.
  - exfalso. by eapply reconcile_Err.
Qed.

End ReconcileFailures.


Lemma exampleRank_bound p : exampleRank p < 5.
Proof. unfold exampleRank. repeat case_decide; lia. Qed.

Lemma graphInv_exampleUnreadable : graphInv exampleUnreadable.
Proof.
  apply (graphInv_same initialWorld); [reflexivity..|].
  apply graphInv_initialWorld.
Qed.

Lemma exampleUnreadable_run :
  getQueuedBuildsWithJobsets exampleEnv 3600 exampleJobsetDb 5 0
    exampleUnreadable ∅ = Err Exception.
Proof. vm_compute. reflexivity. Qed.

(** The pass over the queue with the unreadable derivation fails with an
    exception, at a row of the queue. *)
Lemma getQueuedBuilds_failures_witness :
  acyclic exampleEnv exampleRank ∧ (∀ p, exampleRank p < 5)
  ∧ graphInv exampleUnreadable ∧ allCreated exampleUnreadable
  ∧ getQueuedBuildsWithJobsets exampleEnv 3600 exampleJobsetDb 5 0
      exampleUnreadable ∅ = Err Exception
  ∧ ∃ i r, db exampleUnreadable !! i = Some r ∧ finished r = 0%Z
      ∧ (0 < i)%N
      ∧ (buildOne exampleEnv = 0%N ∨ i = buildOne exampleEnv)
      ∧ builds_ exampleUnreadable !! i = None
      ∧ (jobsetFailure exampleJobsetDb ∅ (project r) (jobset_ r)
         ∨ unreadableFrom exampleEnv (drvPath_ r)).
Proof.
  assert (allCreated exampleUnreadable) as Hall
    by exact allCreated_initialWorld.
  split; [exact exampleRank_acyclic|]. split; [exact exampleRank_bound|].
  split; [exact graphInv_exampleUnreadable|]. split; [exact Hall|].
  split; [exact exampleUnreadable_run|].
  pose proof (getQueuedBuilds_failures exampleEnv exampleRank 5
                exampleRank_acyclic exampleRank_bound 3600 exampleJobsetDb
                0 exampleUnreadable ∅ graphInv_exampleUnreadable Hall) as H.
  rewrite exampleUnreadable_run in H. exact (proj2 H).
Defined.

Lemma exampleUnreadableRead_eq :
  readRows exampleEnv (queryQueue (db exampleUnreadable) 0) 0 []
    (startPass exampleUnreadable)
  = (exampleUnreadableRead.1.1, exampleUnreadableRead.1.2,
     exampleUnreadableRead.2).
Proof.
  unfold exampleUnreadableRead.
  by destruct (readRows exampleEnv _ 0 [] _) as [[l ids] w].
Qed.

Lemma exampleUnreadableRead_run :
  loadBuilds exampleEnv 5 exampleUnreadableRead.1.2 exampleUnreadableRead.2
  = Err Exception.
Proof. vm_compute. reflexivity. Qed.

(** The loading loop over the queue with the unreadable derivation fails
    with the exception of the store. *)
Lemma loadBuilds_failures_witness :
  acyclic exampleEnv exampleRank ∧ (∀ p, exampleRank p < 5)
  ∧ graphInv exampleUnreadableRead.2 ∧ allCreated exampleUnreadableRead.2
  ∧ pendingOk exampleUnreadableRead.2
  ∧ loadBuilds exampleEnv 5 exampleUnreadableRead.1.2
      exampleUnreadableRead.2 = Err Exception
  ∧ ∃ i b, newBuildsByID exampleUnreadableRead.2 !! i = Some b
      ∧ unreadableFrom exampleEnv (build_drvPath b).
Proof.
  assert (graphInv (startPass exampleUnreadable)) as Hg0.
  { apply (graphInv_same initialWorld); [reflexivity..|].
    apply graphInv_initialWorld. }
  assert (graphInv exampleUnreadableRead.2) as Hg.
  { exact (readRows_inv exampleEnv _ 0 [] _ Hg0). }
  assert (allCreated exampleUnreadableRead.2) as Hall.
  { eapply allCreated_graphSafe;
      [exact allCreated_initialWorld|].
    exact (readRows_graph exampleEnv _ 0 [] (startPass exampleUnreadable)). }
  assert (pendingOk exampleUnreadableRead.2) as Hp.
  { exact (readRows_pendingOk exampleEnv 0 exampleUnreadable _ _ _
             exampleUnreadableRead_eq). }
  split; [exact exampleRank_acyclic|]. split; [exact exampleRank_bound|].
  split; [exact Hg|]. split; [exact Hall|]. split; [exact Hp|].
  split; [exact exampleUnreadableRead_run|].
  pose proof (loadBuilds_failures exampleEnv exampleRank 5
                exampleRank_acyclic exampleRank_bound
                exampleUnreadableRead.1.2 exampleUnreadableRead.2
                Hg Hall Hp) as H.
  rewrite exampleUnreadableRead_run in H. exact (proj2 H).
Defined.

Lemma exampleNegative_run :
  processQueueChange exampleEnv exampleNegative = Err Exception.
Proof. vm_compute. reflexivity. Qed.

Lemma graphInv_exampleNegative : graphInv exampleNegative.
Proof.
  apply (graphInv_same exampleAfterPass); [vm_compute; reflexivity..|].
  apply (getQueuedBuilds_inv exampleEnv 5 0 exampleWorld 6%N);
    [|exact exampleAfterPass_run].
  apply (graphInv_same initialWorld); [reflexivity..|].
  apply graphInv_initialWorld.
Qed.

(** The reconciliation with the negative priority fails in the
    conversion. *)
Lemma processQueueChange_failures_witness :
  graphInv exampleNegative
  ∧ processQueueChange exampleEnv exampleNegative = Err Exception
  ∧ ∃ i r, db exampleNegative !! i = Some r ∧ finished r = 0%Z
      ∧ ¬ (0 ≤ globalPriority_ r < 2 ^ 32)%Z.
Proof.
  split; [exact graphInv_exampleNegative|].
  split; [exact exampleNegative_run|].
  pose proof (processQueueChange_failures exampleEnv exampleNegative
                graphInv_exampleNegative) as H.
  rewrite exampleNegative_run in H. exact (proj2 H).
Defined.
